(** * talks_board: the router and the long-polling talks server

    A shallow embedding of [router.js] (class [Router]) and of the server
    script (class [SkillShareServer] and its five routes), followed by the
    properties of routing, of the version counter and of the long-poll
    waiters.

    Conventions of the embedding.
    - A JavaScript string is the list of its UTF-16 code units.
    - A regular expression literal is a list of [Item]s interpreted by a
      backtracking matcher, [exec], that follows [RegExp.prototype.exec]
      for the constructs the sources use.
    - The server object is a record [SkillShareServer]; what surrounds it (timers,
      the responses written, the files written) is the record [World].
      One [Event] is one turn of the event loop that touches the server. *)

From Stdlib Require Import List NArith ZArith Bool Ascii String Lia Permutation.
From Stdlib Require Import DecimalString DecimalN.
Import ListNotations.

Set Implicit Arguments.
Unset Strict Implicit.

Local Open Scope N_scope.

(* ================================================================== *)
(** ** Strings *)

Module JSStr.

(** A string: its UTF-16 code units, each in [0, 65535]. *)
Definition JSString : Type := list N.

(** A literal of the sources (ASCII only). *)
Definition js (s : string) : JSString :=
  map N_of_ascii (list_ascii_of_string s).

Fixpoint eqb (a b : JSString) : bool :=
  match a, b with
  | [], [] => true
  | x :: a', y :: b' => (x =? y) && eqb a' b'
  | _, _ => false
  end.

(** [strip p s] is [Some r] when [s = p ++ r]. *)
Fixpoint strip (p s : JSString) : option JSString :=
  match p, s with
  | [], _ => Some s
  | x :: p', y :: s' => if x =? y then strip p' s' else None
  | _ :: _, [] => None
  end.

(** Decimal digits of a natural number, as [Number.prototype.toString]
    prints an integer below 10^21. *)
Definition NumberToString (n : N) : JSString :=
  js (NilZero.string_of_uint (N.to_uint n)).

End JSStr.
Import JSStr.

(* ================================================================== *)
(** ** Regular expressions *)

Module RegExp.

(** The constructs that occur in the five literals of the sources. *)
Inductive Item : Type :=
| Bol                                   (* ^  (no m flag) *)
| Eol                                   (* $  (no m flag) *)
| WordB                                 (* \b *)
| Lit (s : JSString)                    (* literal characters *)
| Cap (cls : N -> bool) (plus : bool).  (* (c+) when plus, (c* ) otherwise *)

Definition RegEx : Type := list Item.

(** The result of a successful [exec]: [index], [m[0]] and [m.slice(1)]. *)
Record Match : Type := mkMatch {
  index : nat;
  matched : JSString;
  captures : list JSString
}.

Definition is_digit (c : N) : bool := (48 <=? c) && (c <=? 57).

(** \w : [A-Za-z0-9_] *)
Definition is_word (c : N) : bool :=
  ((65 <=? c) && (c <=? 90)) || ((97 <=? c) && (c <=? 122))
  || is_digit c || (c =? 95).

(** . : anything but a line terminator *)
Definition is_dot (c : N) : bool :=
  negb ((c =? 10) || (c =? 13) || (c =? 8232) || (c =? 8233)).

(** [^\/] *)
Definition not_slash (c : N) : bool := negb (c =? 47).

Definition word_at (c : option N) : bool :=
  match c with Some x => is_word x | None => false end.

(** Greedy repetition of a class followed by the continuation [k]: the
    longest run is tried first, then shorter ones. [taken] holds the
    characters consumed so far, last one first. *)
Fixpoint greedy (A : Type) (cls : N -> bool) (plus : bool)
         (k : option N -> JSString -> option A)
         (prev : option N) (s taken : JSString) : option (JSString * A) :=
  let here :=
    if plus && match taken with [] => true | _ => false end then None
    else match k prev s with
         | Some a => Some (rev taken, a)
         | None => None
         end in
  match s with
  | c :: s' =>
      if cls c then
        match greedy cls plus k (Some c) s' (c :: taken) with
        | Some r => Some r
        | None => here
        end
      else here
  | [] => here
  end.

(** The character before the position reached once [t] is consumed. *)
Definition prev_after (t : JSString) (prev : option N) : option N :=
  match rev t with c :: _ => Some c | [] => prev end.

(** Match the items at the current position. [prev] is the character
    before the position, [None] at the start of the input. The result is
    the text consumed and the captures. *)
Fixpoint match_items (re : RegEx) (prev : option N) (s : JSString)
  : option (JSString * list JSString) :=
  match re with
  | [] => Some ([], [])
  | Bol :: k =>
      match prev with None => match_items k prev s | Some _ => None end
  | Eol :: k =>
      match s with [] => match_items k prev s | _ :: _ => None end
  | WordB :: k =>
      if xorb (word_at prev) (word_at (hd_error s))
      then match_items k prev s else None
  | Lit l :: k =>
      match strip l s with
      | Some rest =>
          match match_items k (prev_after l prev) rest with
          | Some (m, caps) => Some (l ++ m, caps)
          | None => None
          end
      | None => None
      end
  | Cap cls plus :: k =>
      match greedy cls plus (match_items k) prev s [] with
      | Some (g, (m, caps)) => Some (g ++ m, g :: caps)
      | None => None
      end
  end.

(** Try every start position, leftmost first. *)
Fixpoint exec_from (re : RegEx) (prev : option N) (s : JSString) (i : nat)
  : option Match :=
  match match_items re prev s with
  | Some (m, caps) => Some (mkMatch i m caps)
  | None =>
      match s with
      | [] => None
      | c :: s' => exec_from re (Some c) s' (S i)
      end
  end.

Definition exec (re : RegEx) (s : JSString) : option Match :=
  exec_from re None s 0.

End RegExp.
Import RegExp.

(** The route patterns of the server script. *)

(* /^\/talks\/([^\/]+)$/ *)
Definition talkPath : RegEx :=
  [Bol; Lit (js "/talks/"); Cap not_slash true; Eol].

(* /^\/talks\/([^\/]+)\/comments$/ *)
Definition talkPathAddComment : RegEx :=
  [Bol; Lit (js "/talks/"); Cap not_slash true; Lit (js "/comments"); Eol].

(* /^\/talks$/ *)
Definition talksPath : RegEx := [Bol; Lit (js "/talks"); Eol].

(* the literal of the list route: a double quote, a greedy group of any
   characters but line terminators, a double quote *)
Definition dquote : N := 34.
Definition quoted (s : JSString) : JSString := [dquote] ++ s ++ [dquote].
Definition quotedTag : RegEx := [Lit [dquote]; Cap is_dot false; Lit [dquote]].

(* /\bwait=(\d+)/ *)
Definition waitPref : RegEx := [WordB; Lit (js "wait="); Cap is_digit true].

(* ================================================================== *)
(** ** Numbers *)

Module JSNumber.

(** A Number value: binary64, kept as sign, integer significand and
    binary exponent ([m * 2^e]), or one of the three special values. *)
Inductive Num : Type :=
| NaN
| Inf (neg : bool)
| Fin (neg : bool) (m : N) (e : Z).

(** Round the non-negative rational [a / b] ([b > 0]) to the nearest
    binary64, ties to even: 53 significant bits, least exponent -1074,
    overflow to infinity. *)
Definition round_ratio (neg : bool) (a b : N) : Num :=
  if a =? 0 then Fin neg 0 0 else
  let k := (Z.of_N (N.log2 a) - Z.of_N (N.log2 b))%Z in
  let below :=
    a * 2 ^ Z.to_N (Z.max 0 (- k)) <? b * 2 ^ Z.to_N (Z.max 0 k) in
  let lg := (if below then k - 1 else k)%Z in      (* floor (log2 (a/b)) *)
  let e := Z.max (lg - 52) (-1074) in
  let num := a * 2 ^ Z.to_N (Z.max 0 (- e)) in
  let den := b * 2 ^ Z.to_N (Z.max 0 e) in
  let q := num / den in
  let r := num mod den in
  let m := if (den <? 2 * r) || ((den =? 2 * r) && N.odd q)
           then q + 1 else q in
  if (1024 <=? Z.of_N (N.log2 m) + e)%Z then Inf neg else Fin neg m e.

Definition of_N (n : N) : Num := round_ratio false n 1.

(** [x * c] for a natural constant [c], correctly rounded. *)
Definition mul_N (x : Num) (c : N) : Num :=
  match x with
  | NaN => NaN
  | Inf s => if c =? 0 then NaN else Inf s
  | Fin s m e =>
      round_ratio s (m * c * 2 ^ Z.to_N (Z.max 0 e))
                    (2 ^ Z.to_N (Z.max 0 (- e)))
  end.

(** [x == y] on Numbers. *)
Definition eqb (x y : Num) : bool :=
  match x, y with
  | Inf s, Inf t => Bool.eqb s t
  | Fin s m e, Fin t n f =>
      if (m =? 0) || (n =? 0) then (m =? 0) && (n =? 0)
      else Bool.eqb s t
           && (m * 2 ^ Z.to_N (e - Z.min e f)
               =? n * 2 ^ Z.to_N (f - Z.min e f))
  | _, _ => false
  end.

(** The integers that [++] still tells apart from their successor. *)
Definition MAX_EXACT : N := 2 ^ 53.

(** [v++] on a Number that holds a natural number: exact below 2^53;
    at 2^53 the sum 2^53 + 1 rounds back to 2^53. *)
Definition incr (v : N) : N := if v <? MAX_EXACT then v + 1 else v.

(** *** StringToNumber *)

(** StrWhiteSpaceChar: WhiteSpace and LineTerminator. *)
Definition is_space (c : N) : bool :=
  ((9 <=? c) && (c <=? 13)) || (c =? 32) || (c =? 160) || (c =? 5760)
  || ((8192 <=? c) && (c <=? 8202)) || (c =? 8232) || (c =? 8233)
  || (c =? 8239) || (c =? 8287) || (c =? 12288) || (c =? 65279).

Fixpoint drop_while (p : N -> bool) (s : JSString) : JSString :=
  match s with
  | c :: s' => if p c then drop_while p s' else s
  | [] => []
  end.

Definition trim (s : JSString) : JSString :=
  rev (drop_while is_space (rev (drop_while is_space s))).

(** The longest prefix in the class, and the rest. *)
Fixpoint span (p : N -> bool) (s : JSString) : JSString * JSString :=
  match s with
  | c :: s' =>
      if p c then let (a, b) := span p s' in (c :: a, b) else ([], s)
  | [] => ([], [])
  end.

Definition hexval (c : N) : option N :=
  if is_digit c then Some (c - 48)
  else if (97 <=? c) && (c <=? 102) then Some (c - 87)
  else if (65 <=? c) && (c <=? 70) then Some (c - 55)
  else None.

Definition in_base (base : N) (c : N) : bool :=
  match hexval c with Some d => d <? base | None => false end.

Definition digits_val (base : N) (ds : JSString) : N :=
  fold_left
    (fun acc c => acc * base + match hexval c with Some d => d | None => 0 end)
    ds 0.

(** NonDecimalIntegerLiteral after its two-character prefix. *)
Definition non_decimal (base : N) (ds : JSString) : Num :=
  match ds with
  | [] => NaN
  | _ :: _ => if forallb (in_base base) ds
              then round_ratio false (digits_val base ds) 1 else NaN
  end.

(** ExponentPart, optional, up to the end of the literal. *)
Definition exponent_part (s : JSString) : option Z :=
  match s with
  | [] => Some 0%Z
  | c :: r =>
      if (c =? 101) || (c =? 69) then
        let (neg, ds) :=
          match r with
          | 43 :: d => (false, d)
          | 45 :: d => (true, d)
          | _ => (false, r)
          end in
        match ds with
        | [] => None
        | _ :: _ =>
            if forallb is_digit ds
            then let v := Z.of_N (digits_val 10 ds) in
                 Some (if neg then - v else v)%Z
            else None
        end
      else None
  end.

(** StrUnsignedDecimalLiteral other than Infinity: significand digits
    and decimal exponent. *)
Definition unsigned_decimal (s : JSString) : option (N * Z) :=
  let (ip, r1) := span is_digit s in
  let '(dot, fp, r2) :=
    match r1 with
    | 46 :: r => let (f, r') := span is_digit r in (true, f, r')
    | _ => (false, [], r1)
    end in
  match ip ++ fp with
  | [] => None
  | _ :: _ =>
      match exponent_part r2 with
      | Some ex =>
          Some (digits_val 10 (ip ++ fp),
                (ex - Z.of_nat (List.length fp))%Z)
      | None => None
      end
  end.

Definition Infinity_lit : JSString := js "Infinity".

Definition decimal (neg : bool) (s : JSString) : Num :=
  if JSStr.eqb s Infinity_lit then Inf neg else
  match unsigned_decimal s with
  | Some (m, ex) =>
      round_ratio neg (m * 10 ^ Z.to_N (Z.max 0 ex))
                      (10 ^ Z.to_N (Z.max 0 (- ex)))
  | None => NaN
  end.

(** The prefix of a NonDecimalIntegerLiteral: its base and what follows. *)
Definition radix_prefix (s : JSString) : option (N * JSString) :=
  match s with
  | z :: x :: ds =>
      if z =? 48 then
        if (x =? 120) || (x =? 88) then Some (16, ds)
        else if (x =? 111) || (x =? 79) then Some (8, ds)
        else if (x =? 98) || (x =? 66) then Some (2, ds)
        else None
      else None
  | _ => None
  end.

(** ToNumber applied to a String. *)
Definition StringToNumber (s : JSString) : Num :=
  match trim s with
  | [] => Fin false 0 0
  | c :: r =>
      match radix_prefix (c :: r) with
      | Some (base, ds) => non_decimal base ds
      | None =>
          if c =? 43 then decimal false r
          else if c =? 45 then decimal true r
          else decimal false (c :: r)
      end
  end.

(** [s != v] and [s == v] for a String [s] and a Number holding the
    natural number [v]: the String is converted with ToNumber. *)
Definition loose_eq (s : JSString) (v : N) : bool :=
  eqb (StringToNumber s) (of_N v).

End JSNumber.
Import JSNumber.

(* ================================================================== *)
(** ** Thrown values and completions *)

(** What the sources observe of a thrown value: [String(error)] and the
    properties the rejection handler of the server reads from it. The
    payload types are filled in below. *)
Record Thrown (B H : Type) : Type := mkThrown {
  err_text : JSString;          (* String(error) *)
  err_status : option N;        (* error.status, when neither null nor undefined *)
  err_body : option B;          (* error.body *)
  err_headers : option H        (* error.headers *)
}.

(** A call either returns or throws. *)
Inductive Completion (E A : Type) : Type :=
| Returns (a : A)
| Throws (e : E).
Arguments Returns {E A} a.
Arguments Throws {E A} e.

(* ================================================================== *)
(** ** decodeURIComponent *)

Module URI.

(** Where the scan stands. A multi-byte sequence in progress is
    [(need, acc, len)]: continuation bytes still to read, the bits
    gathered, and the length announced by the first byte. *)
Definition Seq : Type := option (nat * N * nat).

Inductive Scan : Type :=
| Plain                         (* outside an escape *)
| Hex1 (q : Seq)                (* after %, first hex digit expected *)
| Hex2 (q : Seq) (hi : N)       (* second hex digit expected *)
| Cont (need : nat) (acc : N) (len : nat).  (* % of a continuation byte expected *)

(** The code point decoded from [len] bytes is admissible: shortest
    form, no surrogate, at most U+10FFFF. *)
Definition valid_scalar (len : nat) (v : N) : bool :=
  match len with
  | 2%nat => 128 <=? v
  | 3%nat => (2048 <=? v) && negb ((55296 <=? v) && (v <=? 57343))
  | 4%nat => (65536 <=? v) && (v <=? 1114111)
  | _ => false
  end.

(** UTF16EncodeCodePoint *)
Definition utf16 (v : N) : JSString :=
  if v <? 65536 then [v]
  else [55296 + (v - 65536) / 1024; 56320 + (v - 65536) mod 1024].

(** One decoded byte [b], first of an escape or a continuation. The
    result is the text to append and the next state, or [None] for a
    URIError. *)
Definition on_byte (q : Seq) (b : N) : option (JSString * Scan) :=
  match q with
  | None =>
      if b <? 128 then Some ([b], Plain)
      else if b <? 192 then None                      (* one leading 1 *)
      else if b <? 224 then Some ([], Cont 1 (b - 192) 2)
      else if b <? 240 then Some ([], Cont 2 (b - 224) 3)
      else if b <? 248 then Some ([], Cont 3 (b - 240) 4)
      else None                                       (* more than four *)
  | Some (need, acc, len) =>
      if (128 <=? b) && (b <? 192) then
        let acc' := acc * 64 + (b - 128) in
        match need with
        | 1%nat => if valid_scalar len acc'
                   then Some (utf16 acc', Plain) else None
        | S n => Some ([], Cont n acc' len)
        | O => None
        end
      else None
  end.

Fixpoint scan (st : Scan) (s : JSString) : option JSString :=
  match s with
  | [] => match st with Plain => Some [] | _ => None end
  | c :: s' =>
      match st with
      | Plain =>
          if c =? 37 then scan (Hex1 None) s'
          else option_map (cons c) (scan Plain s')
      | Hex1 q =>
          match hexval c with
          | Some hi => scan (Hex2 q hi) s'
          | None => None
          end
      | Hex2 q hi =>
          match hexval c with
          | Some lo =>
              match on_byte q (16 * hi + lo) with
              | Some (out, st') => option_map (app out) (scan st' s')
              | None => None
              end
          | None => None
          end
      | Cont need acc len =>
          if c =? 37 then scan (Hex1 (Some (need, acc, len))) s' else None
      end
  end.

Definition URIError (B H : Type) : Thrown B H :=
  mkThrown (js "URIError: URI malformed") None None None.

Definition decodeURIComponent (B H : Type) (s : JSString)
  : Completion (Thrown B H) JSString :=
  match scan Plain s with
  | Some t => Returns t
  | None => Throws (URIError B H)
  end.

End URI.
Import URI.

(* ================================================================== *)
(** ** Data of the server *)

(** A value produced by [JSON.parse]. *)
#[local] Unset Elimination Schemes.
Inductive JValue : Type :=
| JNull
| JBool (b : bool)
| JNumber (x : Num)
| JString (s : JSString)
| JArray (l : list JValue)
| JObject (props : list (JSString * JValue)).
#[local] Set Elimination Schemes.

(** A talk: [{title, presenter, summary, comments}]. A comment is the
    parsed request body, as the POST route pushes it. *)
Record Talk : Type := mkTalk {
  title : JSString;
  presenter : JSString;
  summary : JSString;
  comments : list JValue
}.

Definition Headers : Type := list (JSString * JSString).

(** A response body. [TalkJSON t] stands for [JSON.stringify] of the talk
    [t] and [TalksJSON ts] for [JSON.stringify] of the array [ts]: the
    serializer is not part of the sources. *)
Inductive Body : Type :=
| Text (s : JSString)
| TalkJSON (t : Talk)
| TalksJSON (ts : list Talk).

Definition JSError : Type := Thrown Body Headers.

(** What a handler resolves to: [{body, status, headers}], each optional. *)
Record Descriptor : Type := mkDescriptor {
  body : option Body;
  status : option N;
  headers : option Headers
}.

(** The arguments of [response.writeHead(status, headers)] and
    [response.end(body)]. *)
Record Wire : Type := mkWire {
  w_status : N;
  w_headers : Headers;
  w_body : option Body
}.

(** What [readStream(request)] followed by [JSON.parse] makes of the
    request body. A handler that awaits [readStream] goes on in the turn
    in which the stream ends or fails; when the stream does neither, the
    handler stays suspended at the [await]. *)
Inductive Payload : Type :=
| StreamError (e : JSError)     (* the stream emits error: readStream rejects *)
| Unparsable                    (* JSON.parse throws *)
| Parsed (v : JValue)           (* JSON.parse returns v *)
| Unfinished.                   (* neither end nor error: readStream stays pending *)

(** A request as the sources read it: [request.method], the [pathname]
    that [parse(request.url)] gives, converted to a string as [exec]
    does, [request.headers] and the body stream. *)
Record Request : Type := mkRequest {
  method : JSString;
  pathname : JSString;
  req_headers : Headers;
  payload : Payload
}.

(** ** Objects used as maps *)

Module Obj.
Section Props.
Variable V : Type.

(** The own properties, in the order [Object.keys] lists them. *)
Definition t : Type := list (JSString * V).

Fixpoint get (k : JSString) (o : t) : option V :=
  match o with
  | [] => None
  | (k', v) :: o' => if JSStr.eqb k k' then Some v else get k o'
  end.

(** [k in o], for an object without prototype. *)
Definition has (k : JSString) (o : t) : bool :=
  match get k o with Some _ => true | None => false end.

(** [delete o[k]] *)
Fixpoint delete (k : JSString) (o : t) : t :=
  match o with
  | [] => []
  | (k', v) :: o' =>
      if JSStr.eqb k k' then delete k o' else (k', v) :: delete k o'
  end.

(** An array index: the canonical decimal string of an integer in
    [0, 2^32 - 2]. Such keys are listed first, in numeric order. *)
Definition array_index (k : JSString) : option N :=
  match k with
  | [] => None
  | c :: r =>
      if forallb is_digit k && (negb (c =? 48) || match r with [] => true | _ => false end)
      then let n := digits_val 10 k in
           if n <=? 4294967294 then Some n else None
      else None
  end.

Fixpoint replace (k : JSString) (v : V) (o : t) : t :=
  match o with
  | [] => []
  | (k', v') :: o' =>
      if JSStr.eqb k k' then (k', v) :: o' else (k', v') :: replace k v o'
  end.

Fixpoint insert_index (n : N) (k : JSString) (v : V) (o : t) : t :=
  match o with
  | [] => [(k, v)]
  | (k', v') :: o' =>
      match array_index k' with
      | Some n' => if n <? n' then (k, v) :: o
                   else (k', v') :: insert_index n k v o'
      | None => (k, v) :: o
      end
  end.

(** [o[k] = v] *)
Definition set (k : JSString) (v : V) (o : t) : t :=
  if has k o then replace k v o
  else match array_index k with
       | Some n => insert_index n k v o
       | None => o ++ [(k, v)]
       end.

(** The values in the order of [Object.keys]. *)
Definition values (o : t) : list V := map snd o.
End Props.
End Obj.

(** [request.headers[name]] *)
Definition header (name : JSString) (r : Request) : option JSString :=
  Obj.get name (req_headers r).

(** The string [exec] sees for a header: [undefined] is converted to the
    string of that name. *)
Definition ToString (h : option JSString) : JSString :=
  match h with Some s => s | None => js "undefined" end.

(** ** The server object and its surroundings *)

(** [this.talks], [this.version], [this.waiting]. The version is a Number
    that holds a natural number; [++] on it is [incr]. A pending long-poll
    is the [resolve] function of its promise; it is identified with the
    number of the request the promise belongs to. *)
Record SkillShareServer : Type := mkServer {
  talks : Obj.t Talk;
  version : N;
  waiting : list nat
}.

(** Around the server: the timers set and not yet fired, with their
    delay; the responses written, each with the number of its request
    (within one turn of the event loop, in the order in which the promises
    were settled); the requests handed to the static file server; the
    contents handed to [writeFile]; the connections closed by the peer;
    the number of the next request. *)
Record World : Type := mkWorld {
  server : SkillShareServer;
  timers : list (nat * Num);
  sent : list (nat * Wire);
  static : list nat;
  written : list (Obj.t Talk);
  closed : list nat;
  nextId : nat
}.

Definition with_server (w : World) (s : SkillShareServer) : World :=
  mkWorld s (timers w) (sent w) (static w) (written w) (closed w) (nextId w).

Definition defaultHeaders : Headers := [(js "Content-Type", js "text/plain")].

(** The destructuring [{body, status = 200, headers = defaultHeaders}]
    followed by [writeHead] and [end]. *)
Definition wire (d : Descriptor) : Wire :=
  mkWire (match status d with Some st => st | None => 200 end)
         (match headers d with Some h => h | None => defaultHeaders end)
         (body d).

(** The promise a handler returns. A pending promise is that of
    [waitForChanges] for the request, or that of a handler suspended on a
    body that does not end. *)
Inductive Promise : Type :=
| Resolved (d : Descriptor)
| Rejected (e : JSError)
| Pending (id : nat).     (* not settled: the promise made for request id *)

Definition mem (id : nat) (l : list nat) : bool := existsb (Nat.eqb id) l.

(** The promise of request [id] is settled with [d]: the continuation of
    the listener writes the response. Settling a promise twice has no
    effect. *)
Definition settle (id : nat) (d : Descriptor) (w : World) : World :=
  if mem id (map fst (sent w)) then w
  else mkWorld (server w) (timers w) (sent w ++ [(id, wire d)]) (static w)
               (written w) (closed w) (nextId w).

Definition json_headers : Headers :=
  [(js "Content-Type", js "application/json")].

(** [talkResponse()] *)
Definition talkResponse (s : SkillShareServer) : Descriptor :=
  mkDescriptor
    (Some (TalksJSON (Obj.values (talks s))))
    None
    (Some [(js "Content-Type", js "application/json");
           (js "ETag", quoted (NumberToString (version s)))]).

(** [waitForChanges(time)], called for request [id]: the new promise is
    pending, its [resolve] is pushed and the timer is set. *)
Definition waitForChanges (time : Num) (id : nat) (w : World)
  : World * Promise :=
  let s := server w in
  (mkWorld (mkServer (talks s) (version s) (waiting s ++ [id]))
           (timers w ++ [(id, mul_N time 1000)])
           (sent w) (static w) (written w) (closed w) (nextId w),
   Pending id).

(** The callback given to [setTimeout] by [waitForChanges]. The object it
    returns goes to the timer, which drops it. *)
Definition timeout (id : nat) (w : World) : World :=
  let s := server w in
  if negb (mem id (waiting s)) then w
  else with_server w
         (mkServer (talks s) (version s)
                   (filter (fun elem => negb (Nat.eqb elem id)) (waiting s))).

(** [writeTalks()]: the file content is computed at once; the outcome of
    the write is only logged. *)
Definition writeTalks (w : World) : World :=
  mkWorld (server w) (timers w) (sent w) (static w)
          (written w ++ [talks (server w)]) (closed w) (nextId w).

(** [updated()] *)
Definition updated (w : World) : World :=
  let s := server w in
  let s1 := mkServer (talks s) (incr (version s)) (waiting s) in
  let response := talkResponse s1 in
  let w1 := fold_left (fun acc resolve => settle resolve response acc)
                      (waiting s1) (with_server w s1) in
  let w2 := with_server w1 (mkServer (talks s1) (version s1) []) in
  writeTalks w2.

(* ================================================================== *)
(** ** The router *)

(** A handler is called as [handler(context, ...urlParts, request)]; the
    handlers of the server take no capture or one. *)
Inductive Handler : Type :=
| Plainly (f : World -> nat -> Request -> World * Promise)
| Titled (f : World -> nat -> JSString -> Request -> World * Promise).

Record Route : Type := mkRoute {
  r_method : JSString;
  urlRegEx : RegEx;
  handler : Handler
}.

Definition Router : Type := list Route.

(** [add(method, urlRegEx, handler)] *)
Definition add (m : JSString) (re : RegEx) (h : Handler) (routes : Router)
  : Router := routes ++ [mkRoute m re h].

(** [match.slice(1).map(decodeURIComponent)]: the first capture that does
    not decode throws. *)
Fixpoint decode_all (parts : list JSString)
  : Completion JSError (list JSString) :=
  match parts with
  | [] => Returns []
  | p :: ps =>
      match decodeURIComponent Body Headers p with
      | Throws e => Throws e
      | Returns d =>
          match decode_all ps with
          | Throws e => Throws e
          | Returns ds => Returns (d :: ds)
          end
      end
  end.

(** A call with a number of captures the handler does not expect. It does
    not occur with the routes of the server ([router_arity]). *)
Definition arity_mismatch : JSError :=
  mkThrown (js "TypeError") None None None.

Definition invoke (h : Handler) (w : World) (id : nat)
           (urlParts : list JSString) (r : Request) : World * Promise :=
  match h, urlParts with
  | Plainly f, [] => f w id r
  | Titled f, [t] => f w id t r
  | _, _ => (w, Rejected arity_mismatch)
  end.

(** [resolve(context, request)]: [None] is the [null] of the source. *)
Fixpoint resolve (routes : Router) (w : World) (id : nat) (r : Request)
  : Completion JSError (option (World * Promise)) :=
  match routes with
  | [] => Returns None
  | rt :: rest =>
      match exec (urlRegEx rt) (pathname r) with
      | Some m =>
          if negb (JSStr.eqb (method r) (r_method rt)) then resolve rest w id r
          else match decode_all (captures m) with
               | Throws e => Throws e
               | Returns urlParts => Returns (Some (invoke (handler rt) w id urlParts r))
               end
      | None => resolve rest w id r
      end
  end.

(* ================================================================== *)
(** ** The routes *)

Definition respond (st : option N) (b : option Body) (h : option Headers)
  : Promise := Resolved (mkDescriptor b st h).

Definition no_talk (t : JSString) : Body :=
  Text (js "No talk '" ++ t ++ js "' found").

(** [typeof v[name] == string], and the string. *)
Definition string_prop (name : JSString) (v : JValue) : option JSString :=
  match v with
  | JObject props =>
      match Obj.get name props with
      | Some (JString s) => Some s
      | _ => None
      end
  | _ => None
  end.

(** [!v] *)
Definition falsy (v : JValue) : bool :=
  match v with
  | JNull => true
  | JBool b => negb b
  | JNumber x => match x with
                 | NaN => true
                 | Fin _ m _ => m =? 0
                 | Inf _ => false
                 end
  | JString s => match s with [] => true | _ => false end
  | JArray _ | JObject _ => false
  end.

Definition set_talks (w : World) (ts : Obj.t Talk) : World :=
  with_server w (mkServer ts (version (server w)) (waiting (server w))).

(** GET of a talk *)
Definition get_talk (w : World) (id : nat) (t : JSString) (r : Request)
  : World * Promise :=
  match Obj.get t (talks (server w)) with
  | Some talk => (w, respond None (Some (TalkJSON talk)) (Some json_headers))
  | None => (w, respond (Some 404) (Some (no_talk t)) None)
  end.

(** DELETE of a talk *)
Definition delete_talk (w : World) (id : nat) (t : JSString) (r : Request)
  : World * Promise :=
  let w' := if Obj.has t (talks (server w))
            then updated (set_talks w (Obj.delete t (talks (server w))))
            else w in
  (w', respond (Some 204) None None).

(** PUT of a talk *)
Definition put_talk (w : World) (id : nat) (t : JSString) (r : Request)
  : World * Promise :=
  match payload r with
  | Unfinished => (w, Pending id)
  | StreamError e => (w, Rejected e)
  | Unparsable => (w, respond (Some 400) (Some (Text (js "Invalid JSON"))) None)
  | Parsed talk =>
      match falsy talk,
            string_prop (js "presenter") talk,
            string_prop (js "summary") talk with
      | false, Some p, Some s =>
          (updated (set_talks w (Obj.set t (mkTalk t p s []) (talks (server w)))),
           respond (Some 204) None None)
      | _, _, _ =>
          (w, respond (Some 400) (Some (Text (js "Bad talk data"))) None)
      end
  end.

(** POST of a comment *)
Definition post_comment (w : World) (id : nat) (t : JSString) (r : Request)
  : World * Promise :=
  match payload r with
  | Unfinished => (w, Pending id)
  | StreamError e => (w, Rejected e)
  | Unparsable => (w, respond (Some 400) (Some (Text (js "Invalid JSON"))) None)
  | Parsed comment =>
      match falsy comment,
            string_prop (js "author") comment,
            string_prop (js "message") comment with
      | false, Some _, Some _ =>
          match Obj.get t (talks (server w)) with
          | Some talk =>
              let talk' := mkTalk (title talk) (presenter talk) (summary talk)
                                  (comments talk ++ [comment]) in
              (updated (set_talks w (Obj.replace t talk' (talks (server w)))),
               respond (Some 204) None None)
          | None => (w, respond (Some 404) (Some (no_talk t)) None)
          end
      | _, _, _ =>
          (w, respond (Some 404) (Some (Text (js "Bad comment data"))) None)
      end
  end.

(** GET of the list of talks *)
Definition list_talks (w : World) (id : nat) (r : Request)
  : World * Promise :=
  let tag := exec quotedTag (ToString (header (js "if-none-match") r)) in
  let wait := exec waitPref (ToString (header (js "prefer") r)) in
  match tag with
  | None => (w, Resolved (talkResponse (server w)))
  | Some tm =>
      if negb (loose_eq (nth 0 (captures tm) []) (version (server w)))
      then (w, Resolved (talkResponse (server w)))
      else match wait with
           | None => (w, respond (Some 304) None None)
           | Some wm =>
               waitForChanges (StringToNumber (nth 0 (captures wm) [])) id w
           end
  end.

(** The five calls of [router.add], in the order of the script. *)
Definition router : Router :=
  add (js "GET") talksPath (Plainly list_talks)
    (add (js "POST") talkPathAddComment (Titled post_comment)
      (add (js "PUT") talkPath (Titled put_talk)
        (add (js "DELETE") talkPath (Titled delete_talk)
          (add (js "GET") talkPath (Titled get_talk) [])))).

(* ================================================================== *)
(** ** The request listener and the event loop *)

(** The rejection handler of the listener. *)
Definition on_rejected (error : JSError) : Descriptor :=
  match err_status error with
  | Some st => mkDescriptor (err_body error) (Some st) (err_headers error)
  | None => mkDescriptor (Some (Text (err_text error))) (Some 500) None
  end.

(** The callback given to [createServer], for the request numbered
    [nextId w]. An exception thrown by [resolve] leaves the callback. *)
Definition listener (routes : Router) (w : World) (r : Request)
  : Completion JSError World :=
  let id := nextId w in
  let w0 := mkWorld (server w) (timers w) (sent w) (static w) (written w)
                    (closed w) (S id) in
  match resolve routes w0 id r with
  | Throws e => Throws e
  | Returns None =>
      Returns (mkWorld (server w0) (timers w0) (sent w0) (static w0 ++ [id])
                       (written w0) (closed w0) (nextId w0))
  | Returns (Some (w1, resolved)) =>
      match resolved with
      | Resolved d => Returns (settle id d w1)
      | Rejected e => Returns (settle id (on_rejected e) w1)
      | Pending _ => Returns w1
      end
  end.

(** One turn of the event loop: a request is handled (for PUT and POST,
    once its body has been read; a request whose body never ends is left
    suspended), a timer fires, or a peer closes its connection. The script
    registers nothing for the last. *)
Inductive Event : Type :=
| Arrive (r : Request)
| Fire (id : nat)
| Close (id : nat).

Definition has_timer (id : nat) (w : World) : bool :=
  mem id (map fst (timers w)).

Definition step (w : World) (ev : Event) : Completion JSError World :=
  match ev with
  | Arrive r => listener router w r
  | Fire id =>
      if has_timer id w then
        let w' := mkWorld (server w)
                          (filter (fun t => negb (Nat.eqb (fst t) id)) (timers w))
                          (sent w) (static w) (written w) (closed w) (nextId w) in
        Returns (timeout id w')
      else Returns w
  | Close id =>
      Returns (mkWorld (server w) (timers w) (sent w) (static w) (written w)
                       (id :: closed w) (nextId w))
  end.

(** The events in order, up to the first uncaught exception. The result
    is the last state reached and the exception, if any. *)
Fixpoint run (w : World) (evs : list Event) : World * option JSError :=
  match evs with
  | [] => (w, None)
  | ev :: rest =>
      match step w ev with
      | Returns w' => run w' rest
      | Throws e => (w, Some e)
      end
  end.

(** [new SkillShareServer(Object.create(null))] followed by [start]:
    [loadTalks] leaves the object empty or fills it from the file, which
    holds what [writeTalks] wrote: talk records. *)
Definition start (loaded : Obj.t Talk) : World :=
  mkWorld (mkServer loaded 0 []) [] [] [] [] [] 0.

(* ================================================================== *)
(** ** Vocabulary of the properties *)

(** Both tests of [resolve] pass for the route. *)
Definition hits (rt : Route) (r : Request) : bool :=
  match exec (urlRegEx rt) (pathname r) with
  | Some _ => JSStr.eqb (method r) (r_method rt)
  | None => false
  end.

(** What [resolve] does with the route it stops at. *)
Definition dispatch (rt : Route) (w : World) (id : nat) (r : Request)
  : Completion JSError (option (World * Promise)) :=
  match exec (urlRegEx rt) (pathname r) with
  | Some m =>
      match decode_all (captures m) with
      | Throws e => Throws e
      | Returns urlParts => Returns (Some (invoke (handler rt) w id urlParts r))
      end
  | None => Returns None
  end.

(** A JSON object whose properties [a] and [b] are strings. *)
Definition has_strings (a b : JSString) (v : JValue) : bool :=
  match v with
  | JObject props =>
      match Obj.get a props, Obj.get b props with
      | Some (JString _), Some (JString _) => true
      | _, _ => false
      end
  | _ => false
  end.

(** The title a request addresses through a pattern with one capture. *)
Definition target (re : RegEx) (r : Request) : option JSString :=
  match exec re (pathname r) with
  | Some m => match captures m with
              | [c] => scan Plain c
              | _ => None
              end
  | None => None
  end.

(** The event is a successful mutation: a talk is created or replaced, a
    talk that exists is deleted, or a comment is appended to a talk that
    exists. *)
Definition mutation (w : World) (ev : Event) : bool :=
  match ev with
  | Arrive r =>
      if JSStr.eqb (method r) (js "PUT") then
        match target talkPath r, payload r with
        | Some _, Parsed v => has_strings (js "presenter") (js "summary") v
        | _, _ => false
        end
      else if JSStr.eqb (method r) (js "DELETE") then
        match target talkPath r with
        | Some t => Obj.has t (talks (server w))
        | None => false
        end
      else if JSStr.eqb (method r) (js "POST") then
        match target talkPathAddComment r, payload r with
        | Some t, Parsed v =>
            has_strings (js "author") (js "message") v
            && Obj.has t (talks (server w))
        | _, _ => false
        end
      else false
  | Fire _ | Close _ => false
  end.

(** The number of successful mutations among the events handled. *)
Fixpoint mutations (w : World) (evs : list Event) : N :=
  match evs with
  | [] => 0
  | ev :: rest =>
      match step w ev with
      | Returns w' => (if mutation w ev then 1 else 0) + mutations w' rest
      | Throws _ => 0
      end
  end.

(** A status of the 4xx class. *)
Definition client_error (st : N) : bool := (400 <=? st) && (st <? 500).

(** Requests used in the examples. A request without body has an empty
    stream, which [JSON.parse] rejects. *)
Definition GET (p : string) (hs : Headers) : Request :=
  mkRequest (js "GET") (js p) hs Unparsable.

Definition DELETE (p : string) : Request :=
  mkRequest (js "DELETE") (js p) [] Unparsable.

Definition PUT (p : string) (v : JValue) : Request :=
  mkRequest (js "PUT") (js p) [] (Parsed v).

Definition POST (p : string) (v : JValue) : Request :=
  mkRequest (js "POST") (js p) [] (Parsed v).

Definition object2 (k1 v1 k2 v2 : string) : JValue :=
  JObject [(js k1, JString (js v1)); (js k2, JString (js v2))].

(** A long-poll: the validator of version [v] and a wait preference. *)
Definition poll (v : N) (secs : string) : Request :=
  GET "/talks" [(js "if-none-match", quoted (NumberToString v));
                (js "prefer", js "wait=" ++ js secs)].

(** The states the server can be in. *)
Inductive reachable : World -> Prop :=
| reach_start (loaded : Obj.t Talk) : reachable (start loaded)
| reach_step (w w' : World) (ev : Event) :
    reachable w -> step w ev = Returns w' -> reachable w'.

(** Request numbers are issued in order; a pending waiter belongs to a
    request that has no response yet and whose timer is still set. *)
Record consistent (w : World) : Prop := mkConsistent {
  waiting_nodup : NoDup (waiting (server w));
  waiting_fresh : forall id, In id (waiting (server w)) ->
                             ~ In id (map fst (sent w));
  waiting_timer : forall id, In id (waiting (server w)) ->
                             In id (map fst (timers w));
  waiting_bound : forall id, In id (waiting (server w)) -> (id < nextId w)%nat;
  sent_bound : forall id, In id (map fst (sent w)) -> (id < nextId w)%nat;
  timers_bound : forall id, In id (map fst (timers w)) -> (id < nextId w)%nat
}.

(* ================================================================== *)
(** ** The body stream *)

(** What a request stream emits. A chunk is given as [chunk.toString()]. *)
Inductive StreamEvent : Type :=
| Data (chunk : JSString)
| End
| Error (e : JSError).

(** [readStream(stream)], started with [data] read so far: the state of
    the promise after the events, [None] while it is pending. The first
    [end] or [error] settles it; what the stream emits later has no
    effect on it. *)
Fixpoint readStream (evs : list StreamEvent) (data : JSString)
  : option (Completion JSError JSString) :=
  match evs with
  | [] => None
  | Data chunk :: rest => readStream rest (data ++ chunk)
  | End :: _ => Some (Returns data)
  | Error e :: _ => Some (Throws e)
  end.

(** The body a handler has after [await readStream(request)] and
    [JSON.parse], for a request whose stream emits [evs]; [parse] is
    [JSON.parse], [None] where it throws. *)
Definition body_of (parse : JSString -> option JValue)
           (evs : list StreamEvent) : Payload :=
  match readStream evs [] with
  | None => Unfinished
  | Some (Throws e) => StreamError e
  | Some (Returns data) =>
      match parse data with
      | Some v => Parsed v
      | None => Unparsable
      end
  end.

(* ================================================================== *)
(** ** Vocabulary of the further properties *)

Definition nonempty (s : JSString) : bool :=
  match s with [] => false | _ :: _ => true end.

(** The segment of a path of the shape /talks/{segment}. *)
Definition talk_segment (p : JSString) : option JSString :=
  match strip (js "/talks/") p with
  | Some t => if nonempty t && forallb not_slash t then Some t else None
  | None => None
  end.

(** The segment of a path of the shape /talks/{segment}/comments. *)
Definition comment_segment (p : JSString) : option JSString :=
  match strip (js "/talks/") p with
  | Some rest =>
      let (t, tail) := span not_slash rest in
      if nonempty t && JSStr.eqb tail (js "/comments") then Some t else None
  | None => None
  end.

Definition is_some (A : Type) (o : option A) : bool :=
  match o with Some _ => true | None => false end.

(** The requests the five routes are for, by method and shape of path. *)
Definition routed (r : Request) : bool :=
  (JSStr.eqb (method r) (js "GET") && JSStr.eqb (pathname r) (js "/talks"))
  || ((JSStr.eqb (method r) (js "GET") || JSStr.eqb (method r) (js "DELETE")
       || JSStr.eqb (method r) (js "PUT"))
      && is_some (talk_segment (pathname r)))
  || (JSStr.eqb (method r) (js "POST")
      && is_some (comment_segment (pathname r))).

(** The ways one turn of the event loop may change the talks. *)
Inductive change : Obj.t Talk -> Obj.t Talk -> Prop :=
| ch_delete (o : Obj.t Talk) (t : JSString) :
    Obj.has t o = true -> change o (Obj.delete t o)
| ch_put (o : Obj.t Talk) (t p s : JSString) :
    change o (Obj.set t (mkTalk t p s []) o)
| ch_comment (o : Obj.t Talk) (t : JSString) (talk : Talk) (c : JValue) :
    Obj.get t o = Some talk ->
    change o (Obj.replace t (mkTalk (title talk) (presenter talk)
                                    (summary talk) (comments talk ++ [c])) o).

(** Titles are unique keys and every talk is stored under its title. *)
Definition well_keyed (o : Obj.t Talk) : Prop :=
  NoDup (map fst o) /\ forall k talk, In (k, talk) o -> title talk = k.

(** A request to the talk route of title [t], percent-encoded as [seg]. *)
Definition addresses (r : Request) (m : string) (seg t : JSString) : Prop :=
  method r = js m /\ pathname r = js "/talks/" ++ seg
  /\ seg <> [] /\ forallb not_slash seg = true /\ scan Plain seg = Some t.

(** The world after request [id] was answered with [x] and nothing else
    happened. *)
Definition answered (w : World) (x : Wire) : World :=
  mkWorld (server w) (timers w) (sent w ++ [(nextId w, x)]) (static w)
          (written w) (closed w) (S (nextId w)).

(** The world once the listener has taken the number of the request. *)
Definition bump (w : World) : World :=
  mkWorld (server w) (timers w) (sent w) (static w) (written w) (closed w)
          (S (nextId w)).

(** The response to a successful mutation. *)
Definition no_content : Wire := mkWire 204 defaultHeaders None.

(* ================================================================== *)
(** * Properties *)

Ltac break_match H :=
  repeat match type of H with
         | context [match ?x with _ => _ end] => destruct x eqn:?
         | context [if ?x then _ else _] => destruct x eqn:?
         end.

Ltac eval_methods :=
  repeat match goal with
         | |- context [JSStr.eqb (js ?a) (js ?b)] =>
             let v := eval vm_compute in (JSStr.eqb (js a) (js b)) in
             change (JSStr.eqb (js a) (js b)) with v
         end.

(** ** Strings and regular expressions *)

Lemma eqb_eq (a b : JSString) : JSStr.eqb a b = true <-> a = b.
Proof.
  revert b; induction a as [|x a IH]; intros [|y b]; simpl;
    try (split; [discriminate | congruence]); try tauto.
  rewrite andb_true_iff, N.eqb_eq, IH. split.
  - intros [-> ->]; reflexivity.
  - intros E; injection E; auto.
Qed.

Lemma eqb_refl (a : JSString) : JSStr.eqb a a = true.
Proof. apply eqb_eq; reflexivity. Qed.

Lemma strip_sound (p s r : JSString) : strip p s = Some r -> s = p ++ r.
Proof.
  revert s; induction p as [|x p IH]; intros s; simpl.
  - intros E; injection E; auto.
  - destruct s as [|y s]; [discriminate|].
    destruct (N.eqb_spec x y); [subst|discriminate].
    intros E; rewrite (IH _ E); reflexivity.
Qed.

Lemma strip_app (p r : JSString) : strip p (p ++ r) = Some r.
Proof.
  induction p as [|x p IH]; simpl; [reflexivity|].
  rewrite N.eqb_refl; exact IH.
Qed.

(** What a greedy group returns: a run of the class, then the rest of the
    pattern on what follows the run. *)
Lemma greedy_sound (A : Type) cls plus (k : option N -> JSString -> option A) :
  forall s prev taken g a,
    greedy cls plus k prev s taken = Some (g, a) ->
    exists s1 s2 prev',
      s = s1 ++ s2 /\ g = rev taken ++ s1 /\ forallb cls s1 = true
      /\ k prev' s2 = Some a /\ (plus = true -> g <> []).
Proof.
  assert (Here : forall s prev taken g a,
    (if plus && match taken with [] => true | _ => false end then None
     else match k prev s with Some a => Some (rev taken, a) | None => None end)
    = Some (g, a) ->
    exists s1 s2 prev',
      s = s1 ++ s2 /\ g = rev taken ++ s1 /\ forallb cls s1 = true
      /\ k prev' s2 = Some a /\ (plus = true -> g <> [])).
  { intros s prev taken g a H.
    destruct (plus && _) eqn:P; [discriminate|].
    destruct (k prev s) eqn:K; [|discriminate].
    injection H as <- <-.
    exists [], s, prev. rewrite app_nil_r. repeat split; auto.
    intros ->. destruct taken; [discriminate|].
    simpl. intros E. apply app_eq_nil in E. destruct E; discriminate. }
  induction s as [|c s IH]; intros prev taken g a H.
  - simpl in H. apply Here in H. exact H.
  - simpl in H. destruct (cls c) eqn:C.
    + destruct (greedy cls plus k (Some c) s (c :: taken)) as [[g' a']|] eqn:G.
      * injection H as <- <-.
        destruct (IH _ _ _ _ G) as (s1 & s2 & p' & -> & -> & F & K & NE).
        exists (c :: s1), s2, p'.
        split; [reflexivity|].
        split; [simpl; rewrite <- app_assoc; reflexivity|].
        split; [simpl; rewrite C; exact F|].
        split; [exact K|exact NE].
      * apply Here in H. exact H.
    + apply Here in H. exact H.
Qed.

Lemma exec_hit (re : RegEx) (s t : JSString) (caps : list JSString) :
  match_items re None s = Some (t, caps) ->
  exec re s = Some (mkMatch 0 t caps).
Proof.
  unfold exec. intros E. destruct s; simpl; rewrite E; reflexivity.
Qed.

(** A pattern that starts with ^ matches at the start of the input or
    nowhere. *)
Lemma exec_from_Bol (k : RegEx) (s : JSString) (c : N) (i : nat) :
  exec_from (Bol :: k) (Some c) s i = None.
Proof.
  revert c i; induction s as [|d s IH]; intros c i; simpl; auto.
Qed.

Lemma exec_Bol (k : RegEx) (s : JSString) (m : Match) :
  exec (Bol :: k) s = Some m ->
  index m = 0%nat /\ match_items k None s = Some (matched m, captures m).
Proof.
  unfold exec. destruct s as [|c s]; simpl.
  - destruct (match_items k None []) as [[t caps]|]; [|discriminate].
    intros E; injection E as <-; auto.
  - destruct (match_items k None (c :: s)) as [[t caps]|].
    + intros E; injection E as <-; auto.
    + rewrite exec_from_Bol. discriminate.
Qed.

(** A greedy group takes the whole run of its class when the rest of the
    pattern matches right after the run. *)
Lemma greedy_run (A : Type) cls plus (k : option N -> JSString -> option A) :
  forall t rest prev taken a,
    forallb cls t = true ->
    match rest with [] => True | c :: _ => cls c = false end ->
    (plus = true -> rev taken ++ t <> []) ->
    k (prev_after t prev) rest = Some a ->
    greedy cls plus k prev (t ++ rest) taken = Some (rev taken ++ t, a).
Proof.
  induction t as [|c t IH]; intros rest prev taken a F R NE K.
  - rewrite app_nil_r in *. unfold prev_after in K; simpl in K.
    assert (P : plus && match taken with [] => true | _ => false end = false).
    { destruct plus; simpl; auto. destruct taken; auto.
      exfalso; apply NE; reflexivity. }
    destruct rest as [|d rest]; simpl.
    + rewrite P, K; reflexivity.
    + rewrite R, P, K; reflexivity.
  - simpl in F. apply andb_true_iff in F as [C F].
    simpl. rewrite C.
    rewrite (IH rest (Some c) (c :: taken) a F R).
    + simpl. rewrite <- app_assoc. reflexivity.
    + intros _. simpl. intros E. apply app_eq_nil in E as [E _].
      apply app_eq_nil in E as [_ E]. discriminate.
    + unfold prev_after in *. simpl in K.
      destruct (rev t) as [|x l] eqn:E; simpl in *; exact K.
Qed.

(** The paths each route pattern accepts, and the match it returns. *)
Lemma talkPath_sound (p : JSString) (m : Match) :
  exec talkPath p = Some m ->
  exists t, p = js "/talks/" ++ t /\ t <> [] /\ forallb not_slash t = true
            /\ m = mkMatch 0 p [t].
Proof.
  intros E. apply exec_Bol in E as [I E].
  cbn [match_items] in E.
  destruct (strip (js "/talks/") p) as [rest|] eqn:S; [|discriminate].
  apply strip_sound in S. subst p.
  destruct (greedy _ _ _ _ _ _) as [[g [t caps]]|] eqn:G; [|discriminate].
  apply greedy_sound in G as (s1 & s2 & p' & -> & -> & F & K & NE).
  simpl in K. destruct s2; [|discriminate]. injection K as <- <-.
  exists s1. change (rev [] ++ s1) with s1 in *.
  rewrite app_nil_r in E. rewrite app_nil_r.
  repeat split; auto.
  destruct m as [i mt cs]. simpl in *. subst i.
  injection E as <- <-. reflexivity.
Qed.

Lemma talkPath_exec (t : JSString) :
  t <> [] -> forallb not_slash t = true ->
  exec talkPath (js "/talks/" ++ t) = Some (mkMatch 0 (js "/talks/" ++ t) [t]).
Proof.
  intros NE F. apply exec_hit. unfold talkPath.
  cbn [match_items].
  rewrite strip_app.
  rewrite <- (app_nil_r t) at 1.
  rewrite (greedy_run (k := match_items [Eol]) (t := t) (rest := [])
             (prev := Some 47) (taken := []) (a := ([], [])) F I).
  - simpl. rewrite app_nil_r. reflexivity.
  - intros _. exact NE.
  - reflexivity.
Qed.

Lemma talkPathAddComment_sound (p : JSString) (m : Match) :
  exec talkPathAddComment p = Some m ->
  exists t, p = js "/talks/" ++ t ++ js "/comments" /\ t <> []
            /\ forallb not_slash t = true /\ m = mkMatch 0 p [t].
Proof.
  intros E. apply exec_Bol in E as [I E].
  cbn [match_items] in E.
  destruct (strip (js "/talks/") p) as [rest|] eqn:S; [|discriminate].
  apply strip_sound in S. subst p.
  destruct (greedy _ _ _ _ _ _) as [[g [t caps]]|] eqn:G; [|discriminate].
  apply greedy_sound in G as (s1 & s2 & p' & -> & -> & F & K & NE).
  cbn [match_items] in K.
  destruct (strip (js "/comments") s2) as [r2|] eqn:S2; [|discriminate].
  apply strip_sound in S2. subst s2.
  destruct r2; [|discriminate]. injection K as <- <-.
  exists s1. simpl in NE |- *.
  repeat split; auto.
  destruct m as [i mt cs]. simpl in *. subst i.
  injection E as <- <-. reflexivity.
Qed.

Lemma talkPathAddComment_exec (t : JSString) :
  t <> [] -> forallb not_slash t = true ->
  exec talkPathAddComment (js "/talks/" ++ t ++ js "/comments")
  = Some (mkMatch 0 (js "/talks/" ++ t ++ js "/comments") [t]).
Proof.
  intros NE F. apply exec_hit. unfold talkPathAddComment.
  cbn [match_items].
  rewrite strip_app.
  rewrite (greedy_run (k := match_items [Lit (js "/comments"); Eol])
             (t := t) (rest := js "/comments")
             (prev := Some 47) (taken := []) (a := (js "/comments", [])) F).
  - reflexivity.
  - reflexivity.
  - intros _. exact NE.
  - reflexivity.
Qed.

Lemma talksPath_sound (p : JSString) (m : Match) :
  exec talksPath p = Some m -> p = js "/talks" /\ m = mkMatch 0 p [].
Proof.
  intros E. apply exec_Bol in E as [I E].
  cbn [match_items] in E.
  destruct (strip (js "/talks") p) as [rest|] eqn:S; [|discriminate].
  apply strip_sound in S. subst p.
  destruct rest; [|discriminate]. simpl in E.
  split; [reflexivity|].
  destruct m as [i mt cs]. simpl in *. subst i.
  injection E as <- <-. reflexivity.
Qed.

(** ** Routing *)

Lemma resolve_find (routes : Router) (w : World) (id : nat) (r : Request) :
  resolve routes w id r
  = match find (fun rt => hits rt r) routes with
    | Some rt => dispatch rt w id r
    | None => Returns None
    end.
Proof.
  induction routes as [|rt rest IH]; simpl; [reflexivity|].
  unfold hits at 1, dispatch at 1.
  destruct (exec (urlRegEx rt) (pathname r)) as [m|] eqn:E; [|exact IH].
  destruct (JSStr.eqb (method r) (r_method rt)) eqn:M; simpl; [|exact IH].
  unfold dispatch. rewrite E. reflexivity.
Qed.

Lemma find_unique_perm (A : Type) (f : A -> bool) (l l' : list A) :
  Permutation l l' ->
  (forall a b, In a l -> In b l -> f a = true -> f b = true -> a = b) ->
  find f l = find f l'.
Proof.
  induction 1 as [|x l l' P IH|x y l|l l' l'' P1 IH1 P2 IH2]; intros U.
  - reflexivity.
  - simpl. destruct (f x); [reflexivity|].
    apply IH. intros a b Ha Hb. apply U; right; assumption.
  - simpl. destruct (f x) eqn:Fx, (f y) eqn:Fy; try reflexivity.
    f_equal. apply U; simpl; auto.
  - rewrite IH1 by exact U. apply IH2.
    intros a b Ha Hb. apply U; eapply Permutation_in;
      try (apply Permutation_sym; exact P1); assumption.
Qed.

Lemma hits_inv (rt : Route) (r : Request) :
  hits rt r = true ->
  exists m, exec (urlRegEx rt) (pathname r) = Some m
            /\ method r = r_method rt.
Proof.
  unfold hits. destruct (exec _ _) as [m|]; [|discriminate].
  intros E. apply eqb_eq in E. eauto.
Qed.

(** No path is accepted by two of the three route patterns. *)
Lemma talk_comment_disjoint (p : JSString) (m m' : Match) :
  exec talkPath p = Some m -> exec talkPathAddComment p = Some m' -> False.
Proof.
  intros E E'.
  apply talkPath_sound in E as (t & -> & _ & F & _).
  apply talkPathAddComment_sound in E' as (t' & E' & _).
  apply app_inv_head in E'. subst t.
  rewrite forallb_app in F. apply andb_true_iff in F as [_ F].
  discriminate.
Qed.

Lemma talk_list_disjoint (p : JSString) (m m' : Match) :
  exec talkPath p = Some m -> exec talksPath p = Some m' -> False.
Proof.
  intros E E'.
  apply talkPath_sound in E as (t & -> & _).
  apply talksPath_sound in E' as [E' _]. discriminate.
Qed.

Lemma comment_list_disjoint (p : JSString) (m m' : Match) :
  exec talkPathAddComment p = Some m -> exec talksPath p = Some m' -> False.
Proof.
  intros E E'.
  apply talkPathAddComment_sound in E as (t & -> & _).
  apply talksPath_sound in E' as [E' _]. discriminate.
Qed.

(** Each handler of the server gets the number of captures it expects. *)
Lemma router_arity (rt : Route) (p : JSString) (m : Match)
      (parts : list JSString) :
  In rt router ->
  exec (urlRegEx rt) p = Some m ->
  decode_all (captures m) = Returns parts ->
  match handler rt, parts with
  | Plainly _, [] => True
  | Titled _, [_] => True
  | _, _ => False
  end.
Proof.
  intros Hin E D.
  unfold router, add in Hin. simpl in Hin.
  repeat (destruct Hin as [<-|Hin]; [|]); try contradiction; simpl in *;
    first [ destruct (talkPath_sound E) as (c & _ & _ & _ & ->)
          | destruct (talkPathAddComment_sound E) as (c & _ & _ & _ & ->)
          | destruct (talksPath_sound E) as (_ & ->) ];
    simpl in D; unfold decodeURIComponent in D;
    try destruct (scan Plain c); try discriminate;
    injection D as <-; exact I.
Qed.

(** At most one route of the server passes both tests. *)
Lemma router_unique (r : Request) (a b : Route) :
  In a router -> In b router ->
  hits a r = true -> hits b r = true -> a = b.
Proof.
  intros Ha Hb Fa Fb.
  apply hits_inv in Fa as (ma & Ea & Ma).
  apply hits_inv in Fb as (mb & Eb & Mb).
  unfold router, add in Ha, Hb. simpl in Ha, Hb.
  repeat (destruct Ha as [<-|Ha]; [|]); try contradiction;
    repeat (destruct Hb as [<-|Hb]; [|]); try contradiction;
    simpl in *; try reflexivity;
    try (rewrite Ma in Mb; discriminate);
    solve [ exfalso; eauto using talk_comment_disjoint, talk_list_disjoint,
                                 comment_list_disjoint ].
Qed.

Lemma talkPath_rejects_comments (x : JSString) :
  exec talkPath (js "/talks/" ++ x ++ js "/comments") = None.
Proof.
  destruct (exec talkPath _) as [m|] eqn:E; [exfalso|reflexivity].
  apply talkPath_sound in E as (t & E & _ & F & _).
  apply app_inv_head in E. subst t.
  rewrite forallb_app in F. apply andb_true_iff in F as [_ F].
  discriminate.
Qed.

Lemma talkPathAddComment_rejects_talk (x : JSString) :
  forallb not_slash x = true ->
  exec talkPathAddComment (js "/talks/" ++ x) = None.
Proof.
  intros F.
  destruct (exec talkPathAddComment _) as [m|] eqn:E; [exfalso|reflexivity].
  apply talkPathAddComment_sound in E as (t & E & _ & _ & _).
  apply app_inv_head in E. subst x.
  rewrite forallb_app in F. apply andb_true_iff in F as [_ F].
  discriminate.
Qed.

(** C5. Route matching is anchored on the whole path: a registered pattern
    that matches a path matches it from its first to its last character.
    The talk pattern rejects every path "/talks/x/comments" and the
    comment pattern rejects every one-segment path "/talks/x". The routes
    may be registered in any order: [resolve] gives the same result. *)
Theorem route_matching_is_anchored :
  (forall rt p m, In rt router -> exec (urlRegEx rt) p = Some m ->
                  index m = 0%nat /\ matched m = p)
  /\ (forall x, exec talkPath (js "/talks/" ++ x ++ js "/comments") = None)
  /\ (forall x, forallb not_slash x = true ->
                exec talkPathAddComment (js "/talks/" ++ x) = None)
  /\ (forall routes w id r, Permutation router routes ->
                            resolve routes w id r = resolve router w id r).
Proof.
  split; [|split; [|split]].
  - intros rt p m Hin E.
    unfold router, add in Hin. simpl in Hin.
    repeat (destruct Hin as [<-|Hin]; [|]); try contradiction; simpl in E.
    all: first
      [ apply talkPath_sound in E as (t & _ & _ & _ & ->)
      | apply talkPathAddComment_sound in E as (t & _ & _ & _ & ->)
      | apply talksPath_sound in E as (_ & ->) ]; split; reflexivity.
  - exact talkPath_rejects_comments.
  - exact talkPathAddComment_rejects_talk.
  - intros routes w id r P.
    rewrite !resolve_find.
    rewrite (find_unique_perm (f := fun rt => hits rt r) P); [reflexivity|].
    intros a b Ha Hb. apply router_unique; assumption.
Qed.

Lemma route_matching_is_anchored_witness :
  exec talkPath (js "/talks/x/comments") = None
  /\ exec talkPathAddComment (js "/talks/x") = None
  /\ (forall w id r, resolve (rev router) w id r = resolve router w id r).
Proof.
  destruct route_matching_is_anchored as (_ & T & C & O).
  split; [exact (T (js "x"))|].
  split; [apply (C (js "x")); reflexivity|].
  intros w id r. apply O. apply Permutation_rev.
Defined.

(** ** Settling promises, [updated] *)

Lemma mem_In (id : nat) (l : list nat) : mem id l = true <-> In id l.
Proof.
  unfold mem. rewrite existsb_exists. split.
  - intros (x & Hx & E). apply Nat.eqb_eq in E. subst; exact Hx.
  - intros H. exists id. split; [exact H|apply Nat.eqb_refl].
Qed.

Lemma mem_false (id : nat) (l : list nat) : mem id l = false <-> ~ In id l.
Proof.
  rewrite <- mem_In. destruct (mem id l); split; congruence.
Qed.

(** The promises of [ids] settled one after the other with [d]. *)
Lemma settle_all_frame (d : Descriptor) (ids : list nat) :
  forall w,
    let w' := fold_left (fun acc resolve => settle resolve d acc) ids w in
    server w' = server w /\ timers w' = timers w /\ static w' = static w
    /\ written w' = written w /\ closed w' = closed w /\ nextId w' = nextId w
    /\ (forall i, In i (map fst (sent w')) <->
                  In i (map fst (sent w)) \/ In i ids)
    /\ (forall e, In e (sent w) -> In e (sent w')).
Proof.
  induction ids as [|id ids IH]; intros w; simpl.
  - repeat split; auto. intros [H|[]]; exact H.
  - destruct (IH (settle id d w)) as (S1 & S2 & S3 & S4 & S5 & S6 & S7 & S8).
    unfold settle in *.
    destruct (mem id (map fst (sent w))) eqn:M.
    + repeat split; auto; try apply S7.
      * intros H. apply S7 in H. tauto.
      * intros [H|[<-|H]]; apply S7; auto. left. apply mem_In; exact M.
    + simpl in *. repeat split; auto.
      * intros H. apply S7 in H. rewrite map_app, in_app_iff in H.
        simpl in H. tauto.
      * intros H. apply S7. rewrite map_app, in_app_iff. simpl. tauto.
      * intros e He. apply S8. apply in_or_app. auto.
Qed.

(** Distinct promises, none settled before: one response each, the same
    for all, in the order of the list. *)
Lemma settle_all_fresh (d : Descriptor) (ids : list nat) :
  forall w,
    NoDup ids ->
    (forall id, In id ids -> ~ In id (map fst (sent w))) ->
    sent (fold_left (fun acc resolve => settle resolve d acc) ids w)
    = sent w ++ map (fun id => (id, wire d)) ids.
Proof.
  induction ids as [|id ids IH]; intros w ND F; simpl.
  - rewrite app_nil_r; reflexivity.
  - inversion ND as [|? ? NI ND']; subst.
    assert (M : mem id (map fst (sent w)) = false).
    { apply mem_false. apply F. left; reflexivity. }
    rewrite IH; auto.
    + unfold settle. rewrite M. simpl. rewrite <- app_assoc. reflexivity.
    + intros i Hi. unfold settle. rewrite M. simpl.
      rewrite map_app, in_app_iff. simpl.
      intros [H|[<-|[]]]; [|exact (NI Hi)].
      apply (F i); [right; exact Hi|exact H].
Qed.

Lemma updated_frame (w : World) :
  let w' := updated w in
  talks (server w') = talks (server w)
  /\ version (server w') = incr (version (server w))
  /\ waiting (server w') = []
  /\ timers w' = timers w /\ static w' = static w
  /\ written w' = written w ++ [talks (server w)]
  /\ closed w' = closed w /\ nextId w' = nextId w
  /\ (forall i, In i (map fst (sent w')) <->
                In i (map fst (sent w)) \/ In i (waiting (server w)))
  /\ (forall e, In e (sent w) -> In e (sent w')).
Proof.
  unfold updated.
  set (s1 := mkServer (talks (server w)) (incr (version (server w)))
                      (waiting (server w))).
  pose proof (settle_all_frame (talkResponse s1) (waiting s1)
                               (with_server w s1)) as H.
  cbv zeta in H. revert H.
  set (w1 := fold_left _ (waiting s1) (with_server w s1)).
  intros (S1 & S2 & S3 & S4 & S5 & S6 & S7 & S8).
  unfold writeTalks, with_server. simpl in *.
  rewrite S2, S3, S4, S5, S6.
  repeat split; auto; apply S7.
Qed.

(** ** What a handler can do to the world *)

Lemma invoke_cases (rt : Route) (w w1 : World) (id : nat)
      (parts : list JSString) (r : Request) (p : Promise) :
  In rt router ->
  invoke (handler rt) w id parts r = (w1, p) ->
  (w1 = w /\ forall i, p <> Pending i)
  \/ (exists ts, w1 = updated (set_talks w ts) /\ forall i, p <> Pending i)
  \/ (exists time, w1 = fst (waitForChanges time id w) /\ p = Pending id)
  \/ (w1 = w /\ p = Pending id /\ payload r = Unfinished).
Proof.
  intros Hin E.
  unfold router, add in Hin. simpl in Hin.
  repeat (destruct Hin as [<-|Hin]; [|]); try contradiction;
    unfold invoke in E; simpl in E;
    unfold get_talk, delete_talk, put_talk, post_comment, list_talks,
           respond in E;
    break_match E; injection E as <- <-;
    try (left; split; [reflexivity|discriminate]);
    try (right; left; eexists; split; [reflexivity|discriminate]);
    try (right; right; left; eexists; split; reflexivity);
    try (right; right; right; repeat split; assumption).
Qed.

Lemma resolve_cases (w w1 : World) (id : nat) (r : Request) (p : Promise) :
  resolve router w id r = Returns (Some (w1, p)) ->
  (w1 = w /\ forall i, p <> Pending i)
  \/ (exists ts, w1 = updated (set_talks w ts) /\ forall i, p <> Pending i)
  \/ (exists time, w1 = fst (waitForChanges time id w) /\ p = Pending id)
  \/ (w1 = w /\ p = Pending id /\ payload r = Unfinished).
Proof.
  rewrite resolve_find.
  destruct (find _ router) as [rt|] eqn:F; [|discriminate].
  apply find_some in F as [Hin _].
  unfold dispatch. destruct (exec _ _) as [m|]; [|discriminate].
  destruct (decode_all _) as [parts|e]; [|discriminate].
  intros E. injection E as E. eapply invoke_cases; eauto.
Qed.

Lemma settle_frame (id : nat) (d : Descriptor) (w : World) :
  let w' := settle id d w in
  server w' = server w /\ timers w' = timers w /\ static w' = static w
  /\ written w' = written w /\ closed w' = closed w /\ nextId w' = nextId w
  /\ (forall i, In i (map fst (sent w')) <->
                In i (map fst (sent w)) \/ i = id)
  /\ (forall e, In e (sent w) -> In e (sent w')).
Proof.
  destruct (settle_all_frame d [id] w) as (S1 & S2 & S3 & S4 & S5 & S6 & S7 & S8).
  simpl in *. repeat split; auto.
  - intros H. apply S7 in H. intuition.
  - intros H. apply S7. intuition.
Qed.

(** The ways the listener leaves the world after a route was found. *)
Lemma listener_cases (w w' : World) (r : Request) :
  listener router w r = Returns w' ->
  let id := nextId w in
  let w0 := mkWorld (server w) (timers w) (sent w) (static w) (written w)
                    (closed w) (S id) in
  w' = mkWorld (server w) (timers w) (sent w) (static w ++ [id]) (written w)
               (closed w) (S id)
  \/ (exists d, w' = settle id d w0)
  \/ (exists ts d, w' = settle id d (updated (set_talks w0 ts)))
  \/ (exists time, w' = fst (waitForChanges time id w0))
  \/ (w' = w0 /\ payload r = Unfinished).
Proof.
  intros E id w0. unfold listener in E. fold id in E. fold w0 in E.
  destruct (resolve router w0 id r) as [[[w1 p]|]|e] eqn:R; [| |discriminate].
  - apply resolve_cases
      in R as [[-> NP]|[(ts & -> & NP)|[(time & -> & ->)|(-> & -> & U)]]].
    4: { right; right; right; right. injection E as <-. auto. }
    + right; left. destruct p as [d|e|i].
      * injection E as <-. eauto.
      * injection E as <-. eauto.
      * exfalso. exact (NP i eq_refl).
    + right; right; left. destruct p as [d|e|i].
      * injection E as <-. eauto.
      * injection E as <-. eauto.
      * exfalso. exact (NP i eq_refl).
    + right; right; right; left. injection E as <-. exists time. reflexivity.
  - left. injection E as <-. reflexivity.
Qed.

Lemma filter_In_neq (id : nat) (l : list nat) (i : nat) :
  In i (filter (fun elem => negb (Nat.eqb elem id)) l) <-> In i l /\ i <> id.
Proof.
  rewrite filter_In, negb_true_iff, Nat.eqb_neq. reflexivity.
Qed.

Lemma timers_filter_In (id : nat) (l : list (nat * Num)) (i : nat) :
  In i (map fst (filter (fun t => negb (Nat.eqb (fst t) id)) l))
  <-> In i (map fst l) /\ i <> id.
Proof.
  rewrite !in_map_iff. split.
  - intros ([a b] & <- & H). apply filter_In in H as [H N].
    apply negb_true_iff, Nat.eqb_neq in N. split; [|exact N].
    exists (a, b); auto.
  - intros (([a b] & <- & H) & N). exists (a, b). split; [reflexivity|].
    apply filter_In. split; [exact H|].
    apply negb_true_iff, Nat.eqb_neq. exact N.
Qed.

(** What one turn of the loop can add to the pending set and to the
    responses written. *)
Lemma step_frame (w w' : World) (ev : Event) :
  step w ev = Returns w' ->
  (nextId w <= nextId w')%nat
  /\ (forall i, In i (waiting (server w')) ->
                In i (waiting (server w)) \/ i = nextId w)
  /\ (forall i, In i (map fst (sent w')) ->
                In i (map fst (sent w)) \/ In i (waiting (server w))
                \/ i = nextId w).
Proof.
  destruct ev as [r|id|id]; simpl.
  - intros E. apply listener_cases in E.
    destruct E as [->|[(d & ->)|[(ts & d & ->)|[(time & ->)|(-> & _)]]]].
    5: { simpl. repeat split; auto. }
    + simpl. repeat split; auto.
    + destruct (settle_frame (nextId w) d
                  (mkWorld (server w) (timers w) (sent w) (static w)
                           (written w) (closed w) (S (nextId w))))
        as (S1 & _ & _ & _ & _ & S6 & S7 & _).
      rewrite S1, S6. simpl in *. repeat split; auto.
      intros i H. apply S7 in H. tauto.
    + match goal with |- context [settle ?i ?d ?u] =>
        destruct (settle_frame i d u) as (S1 & _ & _ & _ & _ & S6 & S7 & _);
        match u with updated ?v =>
          destruct (updated_frame v) as (_ & _ & U3 & _ & _ & _ & _ & U8 & U9 & _)
        end
      end.
      rewrite S1, S6, U3, U8. simpl in *. repeat split; auto.
      * intros i [].
      * intros i H. apply S7 in H as [H| ->]; [|tauto].
        apply U9 in H. tauto.
    + simpl. repeat split; auto.
      intros i H. apply in_app_or in H as [H|[<-|[]]]; auto.
  - destruct (has_timer id w).
    + intros E. injection E as <-. unfold timeout. simpl.
      destruct (negb (mem id (waiting (server w)))); simpl.
      * repeat split; auto.
      * repeat split; auto.
        intros i H. apply filter_In_neq in H as [H _]. auto.
    + intros E. injection E as <-. repeat split; auto.
  - intros E. injection E as <-. simpl. repeat split; auto.
Qed.

(** ** The invariant of the pending set *)

Lemma consistent_start (loaded : Obj.t Talk) : consistent (start loaded).
Proof.
  constructor; simpl; try (intros i []). constructor.
Qed.

Lemma consistent_step (w w' : World) (ev : Event) :
  consistent w -> step w ev = Returns w' -> consistent w'.
Proof.
  intros [ND FR TM WB SB TB] E. destruct ev as [r|id|id]; simpl in E.
  - apply listener_cases in E.
    destruct E as [->|[(d & ->)|[(ts & d & ->)|[(time & ->)|(-> & _)]]]].
    5: { constructor; simpl; eauto using Nat.lt_lt_succ_r. }
    + constructor; simpl; eauto using Nat.lt_lt_succ_r.
    + match goal with |- consistent (settle ?i ?d ?u) =>
        destruct (settle_frame i d u) as (S1 & S2 & _ & _ & _ & S6 & S7 & _)
      end.
      constructor; rewrite ?S1, ?S2, ?S6; simpl in *; eauto using Nat.lt_lt_succ_r.
      * intros i Hi H. apply S7 in H as [H| ->].
        -- exact (FR i Hi H).
        -- apply WB in Hi. lia.
      * intros i H. apply S7 in H as [H| ->]; eauto using Nat.lt_lt_succ_r.
    + match goal with |- consistent (settle ?i ?d ?u) =>
        destruct (settle_frame i d u) as (S1 & S2 & _ & _ & _ & S6 & S7 & _);
        match u with updated ?v =>
          destruct (updated_frame v)
            as (_ & _ & U3 & U4 & _ & _ & _ & U8 & U9 & _)
        end
      end.
      constructor; rewrite ?S1, ?S2, ?S6, ?U3, ?U4, ?U8; simpl in *;
        try (intros i []); eauto using Nat.lt_lt_succ_r.
      * constructor.
      * intros i H. apply S7 in H as [H| ->]; [|lia].
        apply U9 in H as [H|H]; eauto using Nat.lt_lt_succ_r.
    + constructor; simpl.
      * apply NoDup_app; [exact ND|repeat constructor; intros []|].
        intros i Hi [<-|[]]. apply WB in Hi. lia.
      * intros i Hi H. apply in_app_or in Hi as [Hi|[<-|[]]].
        -- exact (FR i Hi H).
        -- apply SB in H. lia.
      * intros i Hi. rewrite map_app, in_app_iff. simpl.
        apply in_app_or in Hi as [Hi|[<-|[]]]; eauto using Nat.lt_lt_succ_r.
      * intros i Hi. apply in_app_or in Hi as [Hi|[<-|[]]]; eauto using Nat.lt_lt_succ_r.
      * eauto using Nat.lt_lt_succ_r.
      * intros i Hi. rewrite map_app, in_app_iff in Hi. simpl in Hi.
        destruct Hi as [Hi|[<-|[]]]; eauto using Nat.lt_lt_succ_r.
  - destruct (has_timer id w); [|injection E as <-; constructor; auto].
    injection E as <-. unfold timeout. simpl.
    destruct (mem id (waiting (server w))) eqn:M; simpl.
    + constructor; simpl.
      * apply NoDup_filter. exact ND.
      * intros i Hi. apply filter_In_neq in Hi as [Hi _]. auto.
      * intros i Hi. apply filter_In_neq in Hi as [Hi N].
        apply timers_filter_In. auto.
      * intros i Hi. apply filter_In_neq in Hi as [Hi _]. auto.
      * eauto using Nat.lt_lt_succ_r.
      * intros i Hi. apply timers_filter_In in Hi as [Hi _]. auto.
    + apply mem_false in M. constructor; simpl; eauto using Nat.lt_lt_succ_r.
      * intros i Hi. apply timers_filter_In. split; eauto using Nat.lt_lt_succ_r.
        intros ->. exact (M Hi).
      * intros i Hi. apply timers_filter_In in Hi as [Hi _]. auto.
  - injection E as <-. constructor; simpl; eauto using Nat.lt_lt_succ_r.
Qed.

Lemma reachable_consistent (w : World) : reachable w -> consistent w.
Proof.
  induction 1 as [loaded|w w' ev R IH E].
  - apply consistent_start.
  - eapply consistent_step; eauto.
Qed.

Lemma run_reachable (evs : list Event) :
  forall w, reachable w -> reachable (fst (run w evs)).
Proof.
  induction evs as [|ev evs IH]; intros w R; simpl; [exact R|].
  destruct (step w ev) as [w'|e] eqn:E; [|exact R].
  apply IH. eapply reach_step; eauto.
Qed.

Lemma incr_exact (v : N) : v < MAX_EXACT -> incr v = v + 1.
Proof.
  unfold incr. intros H. apply N.ltb_lt in H. rewrite H. reflexivity.
Qed.

(** ** Release of the waiters *)

(** C2. In a reachable state with K pending waiters (and a version below
    2^53, where [++] is exact), one call of [updated] adds exactly 1 to the
    version, computes one response, writes that same response (same ETag,
    same body) once for each of the K waiters, and leaves the pending set
    empty. *)
Theorem updated_releases_all (w : World) :
  reachable w ->
  version (server w) < MAX_EXACT ->
  let w' := updated w in
  let response :=
    mkDescriptor
      (Some (TalksJSON (Obj.values (talks (server w)))))
      None
      (Some [(js "Content-Type", js "application/json");
             (js "ETag", quoted (NumberToString (version (server w) + 1)))]) in
  version (server w') = version (server w) + 1
  /\ talkResponse (server w') = response
  /\ sent w'
     = sent w ++ map (fun id => (id, wire response)) (waiting (server w))
  /\ List.length (sent w')
     = (List.length (sent w) + List.length (waiting (server w)))%nat
  /\ waiting (server w') = [].
Proof.
  intros R V w' response.
  apply reachable_consistent in R. destruct R as [ND FR _ _ _ _].
  assert (S : sent w' = sent w ++ map (fun id => (id, wire response))
                                      (waiting (server w))).
  { unfold w', updated, writeTalks, with_server. simpl.
    rewrite settle_all_fresh; auto.
    simpl. unfold talkResponse. simpl. rewrite incr_exact by exact V.
    reflexivity. }
  destruct (updated_frame w) as (U1 & U2 & U3 & _).
  fold w' in U1, U2, U3.
  split; [rewrite U2; apply incr_exact; exact V|].
  split; [unfold talkResponse, response; rewrite U1, U2, incr_exact by exact V;
          reflexivity|].
  split; [exact S|].
  split; [rewrite S, length_app, length_map; reflexivity|exact U3].
Qed.

Lemma updated_releases_all_witness :
  let w := fst (run (start []) [Arrive (poll 0 "30"); Arrive (poll 0 "5")]) in
  waiting (server w) = [0%nat; 1%nat]
  /\ version (server (updated w)) = 1
  /\ waiting (server (updated w)) = []
  /\ map fst (sent (updated w)) = [0%nat; 1%nat]
  /\ map (fun e => w_body (snd e)) (sent (updated w))
     = [Some (TalksJSON []); Some (TalksJSON [])].
Proof.
  intros w.
  assert (R : reachable w) by (apply run_reachable; apply reach_start).
  assert (V : version (server w) < MAX_EXACT) by reflexivity.
  destruct (updated_releases_all R V) as (A & _ & B & _ & C).
  split; [reflexivity|].
  split; [exact A|].
  split; [exact C|].
  rewrite B. split; reflexivity.
Defined.

(** ** Timers *)

(** A request that is neither pending nor answered stays without a
    response whatever happens later. *)
Lemma unanswered_forever (id : nat) (evs : list Event) :
  forall w,
    (id < nextId w)%nat ->
    ~ In id (waiting (server w)) ->
    ~ In id (map fst (sent w)) ->
    ~ In id (map fst (sent (fst (run w evs)))).
Proof.
  induction evs as [|ev evs IH]; intros w B NW NS; simpl; [exact NS|].
  destruct (step w ev) as [w'|e] eqn:E; [|exact NS].
  apply step_frame in E as (B' & W' & S').
  apply IH.
  - lia.
  - intros H. apply W' in H as [H| ->]; [exact (NW H)|lia].
  - intros H. apply S' in H as [H|[H| ->]]; [exact (NS H)|exact (NW H)|lia].
Qed.

(** The timer of a pending waiter takes it out of the pending set and
    writes nothing. *)
Lemma timer_drops_waiter (w w' : World) (id : nat) :
  has_timer id w = true ->
  step w (Fire id) = Returns w' ->
  ~ In id (waiting (server w')) /\ sent w' = sent w
  /\ version (server w') = version (server w).
Proof.
  simpl. intros -> E. injection E as <-. unfold timeout. simpl.
  destruct (mem id (waiting (server w))) eqn:M; simpl.
  - split; [|split; reflexivity].
    intros H. apply filter_In_neq in H as [_ H]. exact (H eq_refl).
  - apply mem_false in M. split; [exact M|split; reflexivity].
Qed.

(** C1, on the code. A long-poll with "wait=0" on an unchanged server
    ([GET /talks] with the validator of version 0), then its timer: the
    waiter is registered, the timer takes it out of the pending set, and
    no response is written, neither 304 nor any other, then or at any
    later time. *)
Theorem timeout_writes_no_response :
  let evs := [Arrive (poll 0 "0"); Fire 0] in
  let w := fst (run (start []) evs) in
  waiting (server (fst (run (start []) [Arrive (poll 0 "0")]))) = [0%nat]
  /\ timers (fst (run (start []) [Arrive (poll 0 "0")]))
     = [(0%nat, Fin false 0 0)]
  /\ snd (run (start []) evs) = None
  /\ waiting (server w) = []
  /\ sent w = []
  /\ forall later, ~ In 0%nat (map fst (sent (fst (run w later)))).
Proof.
  intros evs w.
  repeat (split; [reflexivity|]).
  intros later. apply unanswered_forever.
  - unfold w. simpl. lia.
  - intros [].
  - intros [].
Qed.

(** ** Malformed escapes *)

(** C6, on the code. [GET /talks/%] matches the talk pattern; decoding the
    capture throws inside [resolve], and the exception leaves the request
    listener: no response is written, whatever the state of the server. *)
Theorem malformed_capture_is_uncaught (w : World) :
  exec talkPath (js "/talks/%") = Some (mkMatch 0 (js "/talks/%") [js "%"])
  /\ step w (Arrive (GET "/talks/%" [])) = Throws (URIError Body Headers)
  /\ run w [Arrive (GET "/talks/%" [])] = (w, Some (URIError Body Headers)).
Proof.
  assert (E : step w (Arrive (GET "/talks/%" []))
              = Throws (URIError Body Headers)) by reflexivity.
  split; [reflexivity|]. split; [exact E|].
  unfold run. rewrite E. reflexivity.
Qed.

(** ** The list route *)



(** A value that is one quoted string without line terminator: the
    capture is what stands between the quotes. *)
Lemma quotedTag_exec (v : JSString) :
  forallb is_dot v = true ->
  exec quotedTag (quoted v) = Some (mkMatch 0 (quoted v) [v]).
Proof.
  intros F. apply exec_hit. unfold quotedTag, quoted.
  cbn [match_items]. rewrite strip_app.
  assert (G : forall prev taken,
             greedy is_dot false (match_items [Lit [dquote]]) prev
                    (v ++ [dquote]) taken
             = Some (rev taken ++ v, ([dquote], []))).
  { induction v as [|c v IH]; intros prev taken.
    - simpl. rewrite app_nil_r. reflexivity.
    - simpl in F. apply andb_true_iff in F as [C F].
      simpl. rewrite C, (IH F). simpl. rewrite <- app_assoc. reflexivity. }
  rewrite G. reflexivity.
Qed.

Lemma route_list (w : World) (id : nat) (r : Request) :
  method r = js "GET" -> pathname r = js "/talks" ->
  resolve router w id r = Returns (Some (list_talks w id r)).
Proof.
  destruct r as [m p hs pl]. simpl. intros -> ->. reflexivity.
Qed.

Lemma settle_fresh (id : nat) (d : Descriptor) (w : World) :
  ~ In id (map fst (sent w)) ->
  settle id d w
  = mkWorld (server w) (timers w) (sent w ++ [(id, wire d)]) (static w)
            (written w) (closed w) (nextId w).
Proof.
  intros H. apply mem_false in H. unfold settle. rewrite H. reflexivity.
Qed.

(** The response a waiter gets is the one [updated] computes. *)
Lemma waiter_gets_snapshot (u : World) (id : nat) :
  consistent u -> In id (waiting (server u)) ->
  In (id, wire (talkResponse (server (updated u)))) (sent (updated u)).
Proof.
  intros [ND FR _ _ _ _] Hin.
  unfold updated at 2, writeTalks, with_server. simpl.
  rewrite settle_all_fresh; auto. simpl.
  apply in_or_app. right.
  apply in_map_iff. exists id. split; [|exact Hin].
  f_equal.
Qed.

(** ** The validator the server hands out is the one it recognises *)

Lemma digit_not_space (c : N) : is_digit c = true -> is_space c = false.
Proof.
  unfold is_digit, is_space. intros H.
  apply andb_true_iff in H as [A B].
  apply N.leb_le in A. apply N.leb_le in B.
  repeat match goal with
         | |- context [?x <=? ?y] => destruct (N.leb_spec x y); try lia
         | |- context [?x =? ?y] => destruct (N.eqb_spec x y); try lia
         end; reflexivity.
Qed.

Lemma trim_digits (ds : JSString) :
  forallb is_digit ds = true -> trim ds = ds.
Proof.
  intros F. unfold trim.
  assert (D : forall l, forallb is_digit l = true -> drop_while is_space l = l).
  { intros [|c l]; simpl; [reflexivity|].
    intros H. apply andb_true_iff in H as [H _].
    rewrite (digit_not_space H). reflexivity. }
  rewrite (D ds F).
  rewrite D; [apply rev_involutive|].
  rewrite forallb_forall in *. intros x Hx. apply F. apply in_rev. exact Hx.
Qed.

Lemma span_digits (ds : JSString) :
  forallb is_digit ds = true -> span is_digit ds = (ds, []).
Proof.
  induction ds as [|c ds IH]; simpl; [reflexivity|].
  intros H. apply andb_true_iff in H as [C F].
  rewrite C, (IH F). reflexivity.
Qed.

Lemma round_ratio_eqb (neg : bool) (a b : N) :
  JSNumber.eqb (round_ratio neg a b) (round_ratio neg a b) = true.
Proof.
  unfold round_ratio.
  destruct (a =? 0); [reflexivity|].
  cbv zeta.
  match goal with |- context [if ?c then Inf neg else ?f] =>
    destruct c; [simpl; apply eqb_reflx|]
  end.
  simpl.
  match goal with |- context [(?m =? 0) || (?m =? 0)] =>
    destruct (m =? 0); simpl; [reflexivity|]
  end.
  rewrite eqb_reflx, N.eqb_refl. reflexivity.
Qed.

(** The digits printed for a number are read back as that number. *)
Lemma digits_of_N (v : N) :
  NumberToString v <> []
  /\ forallb is_digit (NumberToString v) = true
  /\ digits_val 10 (NumberToString v) = v.
Proof.
  unfold NumberToString, digits_val.
  set (f := fun acc c => acc * 10 + match hexval c with Some d => d | None => 0 end).
  assert (A : forall d acc,
             fold_left f (js (NilEmpty.string_of_uint d)) (Npos acc)
             = Npos (Pos.of_uint_acc d acc)).
  { induction d; intros acc;
      cbn [NilEmpty.string_of_uint js list_ascii_of_string map fold_left
           Pos.of_uint_acc];
      try reflexivity; rewrite <- IHd; f_equal; unfold f;
      match goal with |- context [hexval ?c] =>
        let x := eval vm_compute in (hexval c) in change (hexval c) with x
      end; cbv iota; lia. }
  assert (B : forall d, fold_left f (js (NilEmpty.string_of_uint d)) 0
                        = N.of_uint d).
  { induction d;
      cbn [NilEmpty.string_of_uint js list_ascii_of_string map fold_left
           N.of_uint Pos.of_uint];
      try reflexivity; try exact IHd; apply A. }
  assert (C : forall d, forallb is_digit (js (NilEmpty.string_of_uint d)) = true).
  { induction d; simpl; auto. }
  pose proof (DecimalN.Unsigned.of_to v) as OT.
  unfold NilZero.string_of_uint.
  destruct (N.to_uint v) eqn:E;
    try (split; [discriminate|split; [apply (C (_ u))|]]).
  - simpl in OT. subst v. repeat split. discriminate.
  - rewrite <- OT. apply (B (Decimal.D0 u)).
  - rewrite <- OT. apply (B (Decimal.D1 u)).
  - rewrite <- OT. apply (B (Decimal.D2 u)).
  - rewrite <- OT. apply (B (Decimal.D3 u)).
  - rewrite <- OT. apply (B (Decimal.D4 u)).
  - rewrite <- OT. apply (B (Decimal.D5 u)).
  - rewrite <- OT. apply (B (Decimal.D6 u)).
  - rewrite <- OT. apply (B (Decimal.D7 u)).
  - rewrite <- OT. apply (B (Decimal.D8 u)).
  - rewrite <- OT. apply (B (Decimal.D9 u)).
Qed.

Lemma StringToNumber_digits (ds : JSString) :
  ds <> [] -> forallb is_digit ds = true ->
  StringToNumber ds = of_N (digits_val 10 ds).
Proof.
  intros NE F. unfold StringToNumber. rewrite (trim_digits F).
  destruct ds as [|c r]; [contradiction|].
  pose proof F as F'. simpl in F'. apply andb_true_iff in F' as [C R].
  assert (Cb : 48 <= c <= 57).
  { unfold is_digit in C. apply andb_true_iff in C as [A B].
    apply N.leb_le in A. apply N.leb_le in B. lia. }
  assert (RP : radix_prefix (c :: r) = None).
  { unfold radix_prefix. destruct r as [|x r]; [reflexivity|].
    destruct (c =? 48); [|reflexivity].
    simpl in R. apply andb_true_iff in R as [X _].
    unfold is_digit in X. apply andb_true_iff in X as [A B].
    apply N.leb_le in A. apply N.leb_le in B.
    repeat match goal with
           | |- context [?a =? ?b] => destruct (N.eqb_spec a b); try lia
           end; reflexivity. }
  rewrite RP.
  destruct (N.eqb_spec c 43); [lia|]. destruct (N.eqb_spec c 45); [lia|].
  unfold decimal.
  assert (I : JSStr.eqb (c :: r) Infinity_lit = false).
  { simpl. destruct (N.eqb_spec c 73); [lia|reflexivity]. }
  rewrite I. unfold unsigned_decimal. rewrite (span_digits F).
  rewrite app_nil_r. cbn [exponent_part List.length].
  unfold of_N. f_equal. simpl. lia.
Qed.

(** For every version, the text of the ETag the server sends equals that
    version under [!=]. *)
Lemma etag_is_current (v : N) : loose_eq (NumberToString v) v = true.
Proof.
  destruct (digits_of_N v) as (NE & F & D).
  unfold loose_eq. rewrite (StringToNumber_digits NE F), D.
  apply round_ratio_eqb.
Qed.

(** A natural number up to 2^53 is a Number as it stands: no rounding. *)
Lemma of_N_exact (n : N) :
  n <= MAX_EXACT ->
  exists m e, of_N n = Fin false m e
              /\ (-52 <= e)%Z
              /\ (Z.of_N m * 2 ^ (e + 52) = Z.of_N n * 2 ^ 52)%Z.
Proof.
  intros B. unfold MAX_EXACT in B.
  destruct (N.eqb_spec n 0) as [->|NZ].
  { exists 0, 0%Z. split; [reflexivity|]. split; [lia|reflexivity]. }
  destruct (N.eq_dec n (2 ^ 53)) as [->|NE].
  { exists (2 ^ 52), 1%Z. split; [vm_compute; reflexivity|].
    split; [lia|]. vm_compute. reflexivity. }
  assert (K : N.log2 n < 53).
  { apply N.log2_lt_pow2; lia. }
  pose proof (N.log2_spec n ltac:(lia)) as [L _].
  remember (N.log2 n) as k eqn:Hk.
  exists (n * 2 ^ (52 - k)), (Z.of_N k - 52)%Z.
  split; [|split; [lia|]].
  - unfold of_N, round_ratio.
    rewrite (proj2 (N.eqb_neq n 0) NZ). cbv zeta.
    change (N.log2 1) with 0. change (Z.of_N 0) with 0%Z.
    rewrite Z.sub_0_r, <- Hk.
    replace (Z.max 0 (- Z.of_N k)) with 0%Z by lia.
    replace (Z.max 0 (Z.of_N k)) with (Z.of_N k) by lia.
    rewrite N2Z.id. change (Z.to_N 0) with 0.
    rewrite N.pow_0_r, !N.mul_1_r, !N.mul_1_l.
    rewrite (proj2 (N.ltb_ge n (2 ^ k)) L).
    replace (Z.max (Z.of_N k - 52) (-1074)) with (Z.of_N k - 52)%Z by lia.
    replace (Z.max 0 (Z.of_N k - 52)) with 0%Z by lia.
    replace (Z.max 0 (- (Z.of_N k - 52))) with (Z.of_N (52 - k)) by lia.
    rewrite N2Z.id. change (Z.to_N 0) with 0.
    rewrite N.pow_0_r, N.mod_1_r, N.div_1_r.
    change (1 <? 2 * 0) with false. change (1 =? 2 * 0) with false.
    cbn [orb andb].
    rewrite N.log2_mul_pow2 by lia. rewrite <- Hk.
    replace (52 - k + k) with 52 by lia.
    replace (1024 <=? Z.of_N 52 + (Z.of_N k - 52))%Z with false
      by (symmetry; apply Z.leb_gt; lia).
    reflexivity.
  - rewrite N2Z.inj_mul, N2Z.inj_pow.
    replace (Z.of_N k - 52 + 52)%Z with (Z.of_N k) by lia.
    rewrite <- Z.mul_assoc, <- Z.pow_add_r by lia.
    f_equal. f_equal. lia.
Qed.

(** [==] tells such numbers apart. *)
Lemma eqb_exact (u v : N) :
  u <= MAX_EXACT -> v <= MAX_EXACT ->
  JSNumber.eqb (of_N u) (of_N v) = true -> u = v.
Proof.
  intros BU BV.
  destruct (of_N_exact BU) as (m & e & -> & Le & Se).
  destruct (of_N_exact BV) as (n & f & -> & Lf & Sf).
  assert (P : (0 < 2 ^ 52)%Z) by (apply Z.pow_pos_nonneg; lia).
  cbn [JSNumber.eqb].
  destruct ((m =? 0) || (n =? 0)) eqn:Zr.
  - intros H. apply andb_true_iff in H as [Hm Hn].
    apply N.eqb_eq in Hm, Hn. subst m n. simpl in Se, Sf. nia.
  - cbn [Bool.eqb andb]. intros H. apply N.eqb_eq in H.
    apply (f_equal Z.of_N) in H.
    rewrite !N2Z.inj_mul, !N2Z.inj_pow, !Z2N.id in H by lia.
    change (Z.of_N 2) with 2%Z in H.
    assert (Q : (Z.of_N m * 2 ^ (e + 52) = Z.of_N n * 2 ^ (f + 52))%Z).
    { replace (e + 52)%Z with (e - Z.min e f + (Z.min e f + 52))%Z by lia.
      replace (f + 52)%Z with (f - Z.min e f + (Z.min e f + 52))%Z by lia.
      rewrite (Z.pow_add_r 2 (e - Z.min e f)) by lia.
      rewrite (Z.pow_add_r 2 (f - Z.min e f)) by lia.
      rewrite !Z.mul_assoc, H. reflexivity. }
    rewrite Se, Sf in Q. apply Z.mul_cancel_r in Q; lia.
Qed.

(** The text the server sends for a version compares equal to that
    version and to no other one. *)
Lemma etag_names_one_version (u v : N) :
  u <= MAX_EXACT -> v <= MAX_EXACT ->
  (loose_eq (NumberToString u) v = true <-> u = v).
Proof.
  intros BU BV. split.
  - destruct (digits_of_N u) as (NE & F & D).
    unfold loose_eq. rewrite (StringToNumber_digits NE F), D.
    apply eqb_exact; assumption.
  - intros ->. apply etag_is_current.
Qed.

Lemma digits_are_dots (ds : JSString) :
  forallb is_digit ds = true -> forallb is_dot ds = true.
Proof.
  induction ds as [|c ds IH]; simpl; [reflexivity|].
  intros H. apply andb_true_iff in H as [C F]. rewrite (IH F), andb_true_r.
  unfold is_digit in C. apply andb_true_iff in C as [A B].
  apply N.leb_le in A. apply N.leb_le in B. unfold is_dot.
  repeat match goal with
         | |- context [?a =? ?b] => destruct (N.eqb_spec a b); try lia
         end; reflexivity.
Qed.

(** The validator of the current version, as the server sends it in the
    ETag header, is extracted and found current. *)
Lemma own_etag_is_current (v : N) :
  option_map (fun m => nth 0 (captures m) [])
             (exec quotedTag (quoted (NumberToString v))) = Some (NumberToString v)
  /\ loose_eq (NumberToString v) v = true.
Proof.
  destruct (digits_of_N v) as (_ & F & _).
  rewrite (quotedTag_exec (digits_are_dots F)).
  split; [reflexivity|apply etag_is_current].
Qed.

(** C3 as stated fails. The validator is compared with the version by
    [!=], which converts the text to a number, so a quoted value that is
    not the current version as the server writes it can still be equal to
    it. On a fresh server (version 0) a request with the empty validator
    is answered 304, not 200 with the collection; after one PUT
    (version 1) a request with the validator 0x1 and a wait preference is
    parked with nothing written. *)
Lemma validator_is_compared_as_number :
  let empty := GET "/talks" [(js "if-none-match", quoted [])] in
  let hex := GET "/talks" [(js "if-none-match", quoted (js "0x1"));
                           (js "prefer", js "wait=5")] in
  let w1 := fst (run (start [])
                     [Arrive (PUT "/talks/Intro"
                                  (object2 "presenter" "Ann"
                                           "summary" "Hi"))]) in
  let validator r :=
    option_map (fun m => nth 0 (captures m) [])
               (exec quotedTag (ToString (header (js "if-none-match") r))) in
  version (server (start [])) = 0
  /\ validator empty = Some []
  /\ [] <> NumberToString 0
  /\ step (start []) (Arrive empty)
     = Returns (mkWorld (mkServer [] 0 []) []
                        [(0%nat, mkWire 304 defaultHeaders None)]
                        [] [] [] 1)
  /\ version (server w1) = 1
  /\ validator hex = Some (js "0x1")
  /\ js "0x1" <> NumberToString 1
  /\ (exists w',
         step w1 (Arrive hex) = Returns w'
         /\ sent w' = sent w1
         /\ waiting (server w') = [1%nat]
         /\ has_timer 1 w' = true).
Proof.
  intros empty hex w1 validator.
  repeat (split; [first [reflexivity|discriminate]|]).
  eexists. repeat split.
Qed.

(** C3, amended. [GET /talks]. Let the validator be the quoted part of
    the [If-None-Match] header and the preference the digits after
    [wait=] in the [Prefer] header; the validator equals the current
    version when, converted to a number, it is that number (the [!=] of
    the source). If the header is absent (then there is no validator), or
    the validator does not equal the current version, the response is
    written at once: status 200, the serialized collection, the current
    version as quoted ETag. If it is equal and there is no wait
    preference, 304 is written at once. If it is equal and the preference
    is N, nothing is written now: [waitForChanges(N)] registers the
    request as a waiter with its timer, and whatever [updated] later
    resolves the waiter with is the response written for it. The
    validator the server sends for the current version is equal to it,
    and the one it sent for any other version is not. *)
Theorem list_talks_negotiation (w : World) (r : Request) :
  consistent w ->
  method r = js "GET" -> pathname r = js "/talks" ->
  let id := nextId w in
  let v := version (server w) in
  let tag := option_map (fun m => nth 0 (captures m) [])
               (exec quotedTag (ToString (header (js "if-none-match") r))) in
  let wait := option_map (fun m => nth 0 (captures m) [])
                (exec waitPref (ToString (header (js "prefer") r))) in
  let snapshot :=
    mkWire 200
           [(js "Content-Type", js "application/json");
            (js "ETag", quoted (NumberToString v))]
           (Some (TalksJSON (Obj.values (talks (server w))))) in
  let answered x :=
    Returns (E := JSError)
            (mkWorld (server w) (timers w) (sent w ++ [(id, x)]) (static w)
                     (written w) (closed w) (S id)) in
  (header (js "if-none-match") r = None -> tag = None)
  /\ (tag = None -> step w (Arrive r) = answered snapshot)
  /\ (forall t, tag = Some t -> loose_eq t v = false ->
                step w (Arrive r) = answered snapshot)
  /\ (forall t, tag = Some t -> loose_eq t v = true -> wait = None ->
                step w (Arrive r) = answered (mkWire 304 defaultHeaders None))
  /\ (forall t n, tag = Some t -> loose_eq t v = true -> wait = Some n ->
        step w (Arrive r)
        = Returns (mkWorld (mkServer (talks (server w)) v
                                     (waiting (server w) ++ [id]))
                           (timers w ++ [(id, mul_N (StringToNumber n) 1000)])
                           (sent w) (static w) (written w) (closed w) (S id))
        /\ forall u, consistent u -> In id (waiting (server u)) ->
             In (id, wire (talkResponse (server (updated u))))
                (sent (updated u)))
  /\ (forall u, header (js "if-none-match") r
                = Some (quoted (NumberToString u)) ->
                tag = Some (NumberToString u))
  /\ loose_eq (NumberToString v) v = true
  /\ (forall u, u <= MAX_EXACT -> v <= MAX_EXACT ->
                loose_eq (NumberToString u) v = true -> u = v).
Proof.
  intros C M P id v tag wait snapshot answered.
  assert (Fresh : ~ In id (map fst (sent w))).
  { intros H. apply (sent_bound C) in H. unfold id in H. lia. }
  assert (L : forall d,
             list_talks (mkWorld (server w) (timers w) (sent w) (static w)
                                 (written w) (closed w) (S id)) id r
             = (mkWorld (server w) (timers w) (sent w) (static w)
                        (written w) (closed w) (S id), Resolved d) ->
             step w (Arrive r) = answered (wire d)).
  { intros d H. simpl. unfold listener. fold id.
    rewrite (route_list _ _ M P), H.
    rewrite settle_fresh by exact Fresh. reflexivity. }
  unfold tag, wait.
  split; [|split; [|split; [|split; [|split; [|split; [|split]]]]]].
  8: { intros u BU BV. apply etag_names_one_version; assumption. }
  7: { apply etag_is_current. }
  6: { intros u H. rewrite H. apply own_etag_is_current. }
  - intros A. rewrite A. reflexivity.
  - intros T. apply (L (talkResponse (server w))).
    unfold list_talks. simpl.
    destruct (exec quotedTag _) as [tm|]; [discriminate|reflexivity].
  - intros t T NE. apply (L (talkResponse (server w))).
    unfold list_talks. simpl.
    destruct (exec quotedTag _) as [tm|]; [|reflexivity].
    injection T as <-. fold v. rewrite NE. reflexivity.
  - intros t T EQ W. apply (L (mkDescriptor None (Some 304) None)).
    unfold list_talks. simpl.
    destruct (exec quotedTag _) as [tm|]; [|discriminate].
    injection T as <-. fold v. rewrite EQ. simpl.
    destruct (exec waitPref _) as [wm|]; [discriminate|reflexivity].
  - intros t n T EQ W. split; [|intros u; apply waiter_gets_snapshot].
    simpl. unfold listener. fold id. rewrite (route_list _ _ M P).
    unfold list_talks. simpl.
    destruct (exec quotedTag _) as [tm|]; [|discriminate].
    injection T as <-. fold v. rewrite EQ. simpl.
    destruct (exec waitPref _) as [wm|]; [|discriminate].
    injection W as <-. reflexivity.
Qed.

Lemma list_talks_negotiation_witness :
  let none := GET "/talks" [] in
  let stale := GET "/talks" [(js "if-none-match", quoted (js "7"))] in
  let fresh := GET "/talks" [(js "if-none-match", quoted (js "0"))] in
  let snapshot :=
    mkWire 200
           [(js "Content-Type", js "application/json");
            (js "ETag", quoted (js "0"))]
           (Some (TalksJSON [])) in
  let talk := mkTalk (js "Intro") (js "Ann") (js "Hi") [] in
  let w1 := fst (run (start [])
                     [Arrive (PUT "/talks/Intro"
                                  (object2 "presenter" "Ann"
                                           "summary" "Hi"))]) in
  let snapshot1 :=
    mkWire 200
           [(js "Content-Type", js "application/json");
            (js "ETag", quoted (js "1"))]
           (Some (TalksJSON [talk])) in
  sent (fst (run (start []) [Arrive none])) = [(0%nat, snapshot)]
  /\ sent (fst (run (start []) [Arrive stale])) = [(0%nat, snapshot)]
  /\ sent (fst (run (start []) [Arrive fresh]))
     = [(0%nat, mkWire 304 defaultHeaders None)]
  /\ step (start []) (Arrive (poll 0 "90"))
     = Returns (mkWorld (mkServer [] 0 [0%nat])
                        [(0%nat, Fin false 6184752906240000 (-36))]
                        [] [] [] [] 1)
  /\ sent (fst (run w1 [Arrive fresh])) = sent w1 ++ [(1%nat, snapshot1)]
  /\ loose_eq (js "0") 1 = false
  /\ sent (fst (run w1 [Arrive (GET "/talks"
                                    [(js "if-none-match", quoted (js "1"))])]))
     = sent w1 ++ [(1%nat, mkWire 304 defaultHeaders None)].
Proof.
  intros none stale fresh snapshot talk w1 snapshot1.
  pose proof (consistent_start []) as C.
  assert (C1 : consistent w1).
  { apply reachable_consistent, run_reachable, reach_start. }
  destruct (list_talks_negotiation (r := none) C eq_refl eq_refl)
    as (A0 & A & _ & _ & _ & _ & _ & _).
  destruct (list_talks_negotiation (r := stale) C eq_refl eq_refl)
    as (_ & _ & B & _ & _ & _ & _ & _).
  destruct (list_talks_negotiation (r := fresh) C eq_refl eq_refl)
    as (_ & _ & _ & D & _ & _ & _ & _).
  destruct (list_talks_negotiation (r := poll 0 "90") C eq_refl eq_refl)
    as (_ & _ & _ & _ & F & _ & _ & _).
  destruct (list_talks_negotiation (r := fresh) C1 eq_refl eq_refl)
    as (_ & _ & B1 & _ & _ & T1 & _ & I1).
  destruct (list_talks_negotiation
              (r := GET "/talks" [(js "if-none-match", quoted (js "1"))])
              C1 eq_refl eq_refl)
    as (_ & _ & _ & D1 & _ & _ & _ & _).
  assert (NE : loose_eq (js "0") 1 = false).
  { destruct (loose_eq (js "0") 1) eqn:Q; [|reflexivity].
    apply (I1 0) in Q; [discriminate Q|discriminate|discriminate]. }
  split; [unfold run; rewrite (A (A0 eq_refl)); reflexivity|].
  split; [unfold run; rewrite (B (js "7") eq_refl eq_refl); reflexivity|].
  split; [unfold run; rewrite (D (js "0") eq_refl eq_refl eq_refl);
          reflexivity|].
  destruct (F (js "0") (js "90") eq_refl eq_refl eq_refl) as [G _].
  split; [rewrite G; reflexivity|].
  split; [unfold run at 1; rewrite (B1 (js "0") (T1 0 eq_refl) NE);
          reflexivity|].
  split; [exact NE|].
  unfold run at 1. rewrite (D1 (js "1") eq_refl eq_refl eq_refl). reflexivity.
Defined.



(** ** The comment route *)

Lemma has_strings_test (a b : JSString) (v : JValue) :
  has_strings a b v = true <->
  exists x y, falsy v = false /\ string_prop a v = Some x
              /\ string_prop b v = Some y.
Proof.
  unfold has_strings, string_prop. destruct v as [|b0|x0|s0|l0|props]; simpl;
    try (split; [discriminate|intros (x & y & _ & H & _); discriminate]).
  destruct (Obj.get a props) as [[|?|?|x|?|?]|];
    try (split; [discriminate|intros (x' & y & _ & H & _); discriminate]).
  destruct (Obj.get b props) as [[|?|?|y|?|?]|];
    try (split; [discriminate|intros (x' & y' & _ & _ & H); discriminate]).
  split; eauto.
Qed.

Lemma route_comment (w : World) (id : nat) (r : Request) (t t' : JSString) :
  method r = js "POST" ->
  pathname r = js "/talks/" ++ t ++ js "/comments" ->
  t <> [] -> forallb not_slash t = true -> scan Plain t = Some t' ->
  resolve router w id r = Returns (Some (post_comment w id t' r)).
Proof.
  intros M P NE F D. unfold router, add. simpl app.
  pose proof (talkPathAddComment_exec NE F) as X.
  assert (Y : exec talkPath (js "/talks/" ++ t ++ js "/comments") = None).
  { apply talkPath_rejects_comments. }
  cbn [resolve urlRegEx r_method handler]. rewrite P, Y, X, M. simpl.
  unfold decodeURIComponent. rewrite D. reflexivity.
Qed.

Lemma get_replace (V : Type) (k : JSString) (v v0 : V) (o : Obj.t V) :
  Obj.get k o = Some v0 -> Obj.get k (Obj.replace k v o) = Some v.
Proof.
  induction o as [|[k' x] o IH]; simpl; [discriminate|].
  destruct (JSStr.eqb k k') eqn:E; simpl; rewrite E; auto.
Qed.

(** C8. [POST /talks/{title}/comments], once the body has been read. A
    body that is not a JSON object with a string [author] and a string
    [message] gets a response of the 4xx class (400 when it does not
    parse, 404 when it parses to something else) and the server is left
    as it was. A valid body for a title that is absent gets 404 with the
    text "No talk '{title}' found" and the server is left as it was. A
    valid body for a talk that exists: the comment is appended to the
    talk, [updated] runs, and 204 is written. *)
Theorem post_comment_contract (w : World) (r : Request) (t t' : JSString) :
  consistent w ->
  method r = js "POST" ->
  pathname r = js "/talks/" ++ t ++ js "/comments" ->
  t <> [] -> forallb not_slash t = true -> scan Plain t = Some t' ->
  let id := nextId w in
  let valid := has_strings (js "author") (js "message") in
  let w0 := mkWorld (server w) (timers w) (sent w) (static w) (written w)
                    (closed w) (S id) in
  let answered st msg :=
    Returns (E := JSError)
            (mkWorld (server w) (timers w)
                     (sent w ++ [(id, mkWire st defaultHeaders (Some msg))])
                     (static w) (written w) (closed w) (S id)) in
  (payload r = Unparsable ->
   step w (Arrive r) = answered 400 (Text (js "Invalid JSON")))
  /\ (forall v, payload r = Parsed v -> valid v = false ->
                step w (Arrive r) = answered 404 (Text (js "Bad comment data")))
  /\ client_error 400 = true /\ client_error 404 = true
  /\ (forall v, payload r = Parsed v -> valid v = true ->
                Obj.get t' (talks (server w)) = None ->
                step w (Arrive r)
                = answered 404 (Text (js "No talk '" ++ t' ++ js "' found")))
  /\ (forall v talk, payload r = Parsed v -> valid v = true ->
        Obj.get t' (talks (server w)) = Some talk ->
        let talk' := mkTalk (title talk) (presenter talk) (summary talk)
                            (comments talk ++ [v]) in
        let w1 := updated (set_talks w0 (Obj.replace t' talk'
                                           (talks (server w)))) in
        step w (Arrive r)
        = Returns (mkWorld (server w1) (timers w1)
                           (sent w1 ++ [(id, mkWire 204 defaultHeaders None)])
                           (static w1) (written w1) (closed w1) (nextId w1))
        /\ Obj.get t' (talks (server w1)) = Some talk'
        /\ version (server w1) = incr (version (server w))).
Proof.
  intros C M P NE F D id valid w0 answered.
  assert (Fresh : ~ In id (map fst (sent w))).
  { intros H. apply (sent_bound C) in H. unfold id in H. lia. }
  assert (L : step w (Arrive r)
              = match post_comment w0 id t' r with
                | (w1, Resolved d) => Returns (settle id d w1)
                | (w1, Rejected e) => Returns (settle id (on_rejected e) w1)
                | (w1, Pending _) => Returns w1
                end).
  { simpl. unfold listener. fold id. fold w0.
    rewrite (route_comment _ _ M P NE F D).
    destruct (post_comment w0 id t' r) as [w1 [d|e|i]]; reflexivity. }
  rewrite L. unfold post_comment, valid.
  split; [|split; [|split; [|split; [|split]]]]; try reflexivity.
  - intros ->. unfold respond. cbv beta iota.
    rewrite settle_fresh by exact Fresh. reflexivity.
  - intros v -> V. unfold respond. cbv beta iota.
    assert (X : match falsy v, string_prop (js "author") v,
                      string_prop (js "message") v with
                | false, Some _, Some _ => false
                | _, _, _ => true
                end = true).
    { destruct (falsy v) eqn:Fv; [reflexivity|].
      destruct (string_prop (js "author") v) eqn:A; [|reflexivity].
      destruct (string_prop (js "message") v) eqn:B; [|reflexivity].
      assert (has_strings (js "author") (js "message") v = true)
        by (apply has_strings_test; eauto).
      congruence. }
    destruct (falsy v); [rewrite settle_fresh by exact Fresh; reflexivity|].
    destruct (string_prop (js "author") v);
      [|rewrite settle_fresh by exact Fresh; reflexivity].
    destruct (string_prop (js "message") v);
      [discriminate|rewrite settle_fresh by exact Fresh; reflexivity].
  - intros v -> V G.
    apply has_strings_test in V as (x & y & V1 & V2 & V3).
    rewrite V1, V2, V3. unfold w0 at 1. cbn [server talks]. rewrite G.
    unfold respond. cbv beta iota.
    rewrite settle_fresh by exact Fresh. reflexivity.
  - intros v talk -> V G.
    set (talk' := mkTalk (title talk) (presenter talk) (summary talk)
                         (comments talk ++ [v])).
    set (w1 := updated (set_talks w0 (Obj.replace t' talk'
                                        (talks (server w))))).
    apply has_strings_test in V as (x & y & V1 & V2 & V3).
    rewrite V1, V2, V3. unfold w0 at 1. cbn [server talks]. rewrite G.
    unfold respond. cbv beta iota. fold talk'.
    change (server w0) with (server w). fold w1.
    destruct (updated_frame (set_talks w0 (Obj.replace t' talk'
                                             (talks (server w)))))
      as (U1 & U2 & _ & _ & _ & _ & _ & U8 & U9 & _).
    change (talks (server w1)
            = Obj.replace t' talk' (talks (server w))) in U1.
    change (version (server w1) = incr (version (server w))) in U2.
    change (nextId w1 = S id) in U8.
    change (forall i, In i (map fst (sent w1)) <->
                      In i (map fst (sent w)) \/ In i (waiting (server w)))
      in U9.
    split; [|split].
    + rewrite settle_fresh; [reflexivity|].
      intros H. apply U9 in H as [H|H]; [exact (Fresh H)|].
      apply (waiting_bound C) in H. unfold id in H. lia.
    + rewrite U1. eapply get_replace; eauto.
    + exact U2.
Qed.

Lemma post_comment_contract_witness :
  let w := fst (run (start [])
                    [Arrive (PUT "/talks/Intro"
                                 (object2 "presenter" "Ann" "summary" "Hi"))]) in
  let answered st msg :=
    Returns (E := JSError)
            (mkWorld (server w) (timers w)
                     (sent w ++ [(1%nat, mkWire st defaultHeaders (Some msg))])
                     (static w) (written w) (closed w) 2) in
  let comment := object2 "author" "Bob" "message" "Nice" in
  step w (Arrive (POST "/talks/Intro/comments" (JString (js "Nice"))))
  = answered 404 (Text (js "Bad comment data"))
  /\ step w (Arrive (POST "/talks/Other/comments" comment))
     = answered 404 (Text (js "No talk 'Other' found"))
  /\ (forall w', step w (Arrive (POST "/talks/Intro/comments" comment))
                 = Returns w' ->
                 version (server w') = 2
                 /\ option_map comments (Obj.get (js "Intro") (talks (server w')))
                    = Some [comment]).
Proof.
  intros w answered comment.
  assert (C : consistent w).
  { apply reachable_consistent, run_reachable, reach_start. }
  assert (NI : js "Intro" <> []) by discriminate.
  assert (NO : js "Other" <> []) by discriminate.
  destruct (post_comment_contract
              (r := POST "/talks/Intro/comments" (JString (js "Nice")))
              (t := js "Intro") (t' := js "Intro")
              C eq_refl eq_refl NI eq_refl eq_refl) as (_ & A & _).
  destruct (post_comment_contract
              (r := POST "/talks/Other/comments" comment)
              (t := js "Other") (t' := js "Other")
              C eq_refl eq_refl NO eq_refl eq_refl) as (_ & _ & _ & _ & B & _).
  destruct (post_comment_contract
              (r := POST "/talks/Intro/comments" comment)
              (t := js "Intro") (t' := js "Intro")
              C eq_refl eq_refl NI eq_refl eq_refl) as (_ & _ & _ & _ & _ & D).
  split; [exact (A _ eq_refl eq_refl)|].
  split; [exact (B _ eq_refl eq_refl eq_refl)|].
  intros w' E.
  destruct (D comment (mkTalk (js "Intro") (js "Ann") (js "Hi") [])
              eq_refl eq_refl eq_refl) as (S & G & V).
  rewrite S in E. injection E as <-. split.
  - etransitivity; [exact V|reflexivity].
  - etransitivity; [apply f_equal; exact G|reflexivity].
Defined.

(** ** The dispatch boundary *)

(** C9. When the promise a handler returns is rejected with an error, the
    listener turns the rejection into a response. An error without
    [status] gives status 500, the default headers and [String(error)] as
    body. An error that carries a [status] is itself taken as the
    response: its status, its body, and its headers or the default
    ones. *)
Theorem rejection_becomes_response
        (routes : Router) (w w1 : World) (r : Request) (e : JSError) :
  let id := nextId w in
  let w0 := mkWorld (server w) (timers w) (sent w) (static w) (written w)
                    (closed w) (S id) in
  resolve routes w0 id r = Returns (Some (w1, Rejected e)) ->
  listener routes w r = Returns (settle id (on_rejected e) w1)
  /\ (err_status e = None ->
      wire (on_rejected e)
      = mkWire 500 defaultHeaders (Some (Text (err_text e))))
  /\ (forall st, err_status e = Some st ->
      wire (on_rejected e)
      = mkWire st
               (match err_headers e with Some h => h | None => defaultHeaders end)
               (err_body e)).
Proof.
  intros id w0 R. split; [|split].
  - unfold listener. fold id. fold w0. rewrite R. reflexivity.
  - intros N. unfold on_rejected. rewrite N. reflexivity.
  - intros st S. unfold on_rejected. rewrite S. reflexivity.
Qed.

Lemma rejection_becomes_response_witness :
  let plain := mkThrown (B := Body) (H := Headers)
                        (js "Error: aborted") None None None in
  let coded := mkThrown (js "Error: too large") (Some 413)
                        (Some (Text (js "Payload too large"))) None in
  let broken e := mkRequest (js "PUT") (js "/talks/Intro") [] (StreamError e) in
  step (start []) (Arrive (broken plain))
  = Returns (mkWorld (mkServer [] 0 []) []
                     [(0%nat, mkWire 500 defaultHeaders
                                     (Some (Text (js "Error: aborted"))))]
                     [] [] [] 1)
  /\ step (start []) (Arrive (broken coded))
     = Returns (mkWorld (mkServer [] 0 []) []
                        [(0%nat, mkWire 413 defaultHeaders
                                        (Some (Text (js "Payload too large"))))]
                        [] [] [] 1).
Proof.
  intros plain coded broken.
  destruct (rejection_becomes_response
              (routes := router) (w := start []) (r := broken plain)
              (w1 := mkWorld (mkServer [] 0 []) [] [] [] [] [] 1)
              (e := plain) eq_refl) as (A & B & _).
  destruct (rejection_becomes_response
              (routes := router) (w := start []) (r := broken coded)
              (w1 := mkWorld (mkServer [] 0 []) [] [] [] [] [] 1)
              (e := coded) eq_refl) as (C & _ & D).
  split.
  - simpl step. rewrite A. unfold settle. simpl mem. cbv iota.
    rewrite (B eq_refl). reflexivity.
  - simpl step. rewrite C. unfold settle. simpl mem. cbv iota.
    rewrite (D 413 eq_refl). reflexivity.
Defined.

(** ** The version counter *)

Lemma updated_version (w : World) :
  version (server (updated w)) = incr (version (server w)).
Proof. apply updated_frame. Qed.

Lemma has_strings_false (a b : JSString) (v : JValue) (A : Type)
      (X : JSString -> JSString -> A) (Y : A) :
  has_strings a b v = false ->
  match falsy v, string_prop a v, string_prop b v with
  | false, Some p, Some s => X p s
  | _, _, _ => Y
  end = Y.
Proof.
  intros H.
  destruct (falsy v) eqn:F; [reflexivity|].
  destruct (string_prop a v) eqn:P; [|reflexivity].
  destruct (string_prop b v) eqn:Q; [|reflexivity].
  assert (has_strings a b v = true) by (apply has_strings_test; eauto).
  congruence.
Qed.

Lemma get_talk_version (w : World) (id : nat) (t : JSString) (r : Request) :
  version (server (fst (get_talk w id t r))) = version (server w).
Proof. unfold get_talk. destruct (Obj.get _ _); reflexivity. Qed.

Lemma list_talks_version (w : World) (id : nat) (r : Request) :
  version (server (fst (list_talks w id r))) = version (server w).
Proof.
  unfold list_talks.
  destruct (exec quotedTag _); [|reflexivity].
  destruct (negb _); [reflexivity|].
  destruct (exec waitPref _); reflexivity.
Qed.

Lemma delete_talk_version (w : World) (id : nat) (t : JSString) (r : Request) :
  version (server (fst (delete_talk w id t r)))
  = if Obj.has t (talks (server w)) then incr (version (server w))
    else version (server w).
Proof.
  unfold delete_talk. simpl.
  destruct (Obj.has _ _); [rewrite updated_version; reflexivity|reflexivity].
Qed.

Lemma put_talk_version (w : World) (id : nat) (t : JSString) (r : Request) :
  version (server (fst (put_talk w id t r)))
  = if match payload r with
       | Parsed v => has_strings (js "presenter") (js "summary") v
       | _ => false
       end
    then incr (version (server w)) else version (server w).
Proof.
  unfold put_talk. destruct (payload r) as [e| |v|]; try reflexivity.
  destruct (has_strings (js "presenter") (js "summary") v) eqn:H.
  - apply has_strings_test in H as (p & s & F & P & Q).
    rewrite F, P, Q. cbn [fst]. rewrite updated_version. reflexivity.
  - rewrite (has_strings_false _ _ H). reflexivity.
Qed.

Lemma post_comment_version (w : World) (id : nat) (t : JSString) (r : Request) :
  version (server (fst (post_comment w id t r)))
  = if match payload r with
       | Parsed v => has_strings (js "author") (js "message") v
                     && Obj.has t (talks (server w))
       | _ => false
       end
    then incr (version (server w)) else version (server w).
Proof.
  unfold post_comment. destruct (payload r) as [e| |v|]; try reflexivity.
  destruct (has_strings (js "author") (js "message") v) eqn:H.
  - apply has_strings_test in H as (p & s & F & P & Q).
    rewrite F, P, Q. unfold Obj.has.
    destruct (Obj.get t (talks (server w))); cbn [fst andb].
    + rewrite updated_version. reflexivity.
    + reflexivity.
  - rewrite (has_strings_false _ _ H). reflexivity.
Qed.

Lemma decode_one (c : JSString) (parts : list JSString) :
  decode_all [c] = Returns parts ->
  exists t, scan Plain c = Some t /\ parts = [t].
Proof.
  simpl. unfold decodeURIComponent.
  destruct (scan Plain c) as [t|]; [|discriminate].
  intros E; injection E as <-. eauto.
Qed.

(** What the route found does to the version. *)
Lemma resolve_version (w w1 : World) (id : nat) (r : Request) (p : Promise) :
  resolve router w id r = Returns (Some (w1, p)) ->
  version (server w1)
  = if mutation w (Arrive r) then incr (version (server w))
    else version (server w).
Proof.
  rewrite resolve_find.
  destruct (find _ router) as [rt|] eqn:F; [|discriminate].
  apply find_some in F as [Hin Hit].
  apply hits_inv in Hit as (m & E & M).
  unfold dispatch. rewrite E.
  destruct (decode_all (captures m)) as [parts|e] eqn:D; [|discriminate].
  intros Eq. injection Eq as Eq.
  unfold router, add in Hin. simpl in Hin.
  repeat (destruct Hin as [<-|Hin]; [|]); try contradiction;
    simpl in E, M, Eq; unfold mutation; rewrite M; eval_methods; cbv iota.
  - destruct (talkPath_sound E) as (c & _ & _ & _ & ->).
    apply decode_one in D as (t & S & ->). simpl in Eq.
    rewrite <- (get_talk_version w id t r), Eq. reflexivity.
  - destruct (talkPath_sound E) as (c & _ & _ & _ & ->).
    apply decode_one in D as (t & S & ->). simpl in Eq.
    unfold target. rewrite E. cbn [captures]. rewrite S.
    rewrite <- (delete_talk_version w id t r), Eq. reflexivity.
  - destruct (talkPath_sound E) as (c & _ & _ & _ & ->).
    apply decode_one in D as (t & S & ->). simpl in Eq.
    unfold target. rewrite E. cbn [captures]. rewrite S.
    rewrite <- (put_talk_version w id t r), Eq. reflexivity.
  - destruct (talkPathAddComment_sound E) as (c & _ & _ & _ & ->).
    apply decode_one in D as (t & S & ->). simpl in Eq.
    unfold target. rewrite E. cbn [captures]. rewrite S.
    rewrite <- (post_comment_version w id t r), Eq. reflexivity.
  - destruct (talksPath_sound E) as (_ & ->). simpl in D.
    injection D as <-. simpl in Eq.
    rewrite <- (list_talks_version w id r), Eq. reflexivity.
Qed.

Lemma miss_target (rt : Route) (r : Request) :
  hits rt r = false ->
  JSStr.eqb (method r) (r_method rt) = true ->
  target (urlRegEx rt) r = None.
Proof.
  unfold hits, target. intros H M.
  destruct (exec _ _); [congruence|reflexivity].
Qed.

(** A request no route takes is no mutation. *)
Lemma resolve_none (w : World) (id : nat) (r : Request) :
  resolve router w id r = Returns None -> mutation w (Arrive r) = false.
Proof.
  rewrite resolve_find.
  destruct (find _ router) as [rt|] eqn:F.
  - apply find_some in F as [_ Hit]. apply hits_inv in Hit as (m & E & _).
    unfold dispatch. rewrite E. destruct (decode_all _); discriminate.
  - intros _.
    pose proof (find_none _ _ F) as NF. unfold mutation.
    assert (IP : In (mkRoute (js "PUT") talkPath (Titled put_talk)) router)
      by (unfold router, add; simpl; tauto).
    assert (ID : In (mkRoute (js "DELETE") talkPath (Titled delete_talk)) router)
      by (unfold router, add; simpl; tauto).
    assert (IO : In (mkRoute (js "POST") talkPathAddComment
                             (Titled post_comment)) router)
      by (unfold router, add; simpl; tauto).
    apply NF in IP, ID, IO.
    destruct (JSStr.eqb (method r) (js "PUT")) eqn:MP.
    { pose proof (miss_target IP MP) as T. simpl in T. rewrite T.
      reflexivity. }
    destruct (JSStr.eqb (method r) (js "DELETE")) eqn:MD.
    { pose proof (miss_target ID MD) as T. simpl in T. rewrite T.
      reflexivity. }
    destruct (JSStr.eqb (method r) (js "POST")) eqn:MO; [|reflexivity].
    pose proof (miss_target IO MO) as T. simpl in T. rewrite T.
    reflexivity.
Qed.

(** One turn of the loop adds one to the version (as [++] does) when it is
    a successful mutation and leaves it alone otherwise. *)
Lemma step_version (w w' : World) (ev : Event) :
  step w ev = Returns w' ->
  version (server w')
  = if mutation w ev then incr (version (server w)) else version (server w).
Proof.
  destruct ev as [r|id|id]; simpl step.
  - unfold listener.
    set (w0 := mkWorld (server w) (timers w) (sent w) (static w) (written w)
                       (closed w) (S (nextId w))).
    change (mutation w (Arrive r)) with (mutation w0 (Arrive r)).
    change (version (server w)) with (version (server w0)).
    destruct (resolve router w0 (nextId w) r) as [[[w1 p]|]|e] eqn:R;
      [| |discriminate].
    + apply resolve_version in R. rewrite <- R.
      destruct p as [d|e|i]; intros E; injection E as <-;
        try reflexivity; f_equal; apply settle_frame.
    + apply resolve_none in R. rewrite R.
      intros E; injection E as <-. reflexivity.
  - destruct (has_timer id w); intros E; injection E as <-; [|reflexivity].
    unfold timeout. simpl. destruct (negb _); reflexivity.
  - intros E; injection E as <-. reflexivity.
Qed.

Lemma incr_le (v : N) : v <= incr v.
Proof. unfold incr. destruct (v <? MAX_EXACT); lia. Qed.

(** The version never passes 2^53. *)
Lemma version_bounded (w : World) :
  reachable w -> version (server w) <= MAX_EXACT.
Proof.
  induction 1 as [loaded|w w' ev R IH E].
  - discriminate.
  - rewrite (step_version E). destruct (mutation w ev); [|exact IH].
    unfold incr. destruct (N.ltb_spec (version (server w)) MAX_EXACT); lia.
Qed.

Lemma run_version (evs : list Event) :
  forall w,
    version (server w) + mutations w evs <= MAX_EXACT ->
    version (server (fst (run w evs))) = version (server w) + mutations w evs.
Proof.
  induction evs as [|ev evs IH]; intros w B; simpl in *; [lia|].
  destruct (step w ev) as [w'|e] eqn:E; simpl; [|lia].
  pose proof (step_version E) as V.
  destruct (mutation w ev).
  - rewrite incr_exact in V by lia. rewrite IH; lia.
  - rewrite IH; lia.
Qed.

Lemma route_delete (w : World) (id : nat) (r : Request) (t t' : JSString) :
  method r = js "DELETE" ->
  pathname r = js "/talks/" ++ t ->
  t <> [] -> forallb not_slash t = true -> scan Plain t = Some t' ->
  resolve router w id r = Returns (Some (delete_talk w id t' r)).
Proof.
  intros M P NE F D. unfold router, add. simpl app.
  pose proof (talkPath_exec NE F) as X.
  cbn [resolve urlRegEx r_method handler]. rewrite P, X, M.
  eval_methods. cbn [negb captures decode_all].
  unfold decodeURIComponent. rewrite D. reflexivity.
Qed.

(** C4. The version is 0 at start. One turn of the event loop adds
    exactly 1 to it when the turn is a successful mutation (a talk put, a
    talk that exists deleted, a comment appended to a talk that exists)
    and nothing otherwise; it never decreases. DELETE of a title that is
    absent answers 204 and leaves the server, version included, as it
    was. After any sequence of events the version is the number of
    successful mutations handled (as long as that number is at most 2^53,
    where [++] stops being exact). *)
Theorem version_counts_mutations (loaded : Obj.t Talk) (evs : list Event) :
  mutations (start loaded) evs <= MAX_EXACT ->
  version (server (start loaded)) = 0
  /\ version (server (fst (run (start loaded) evs)))
     = mutations (start loaded) evs
  /\ (forall w ev w', step w ev = Returns w' ->
        version (server w) < MAX_EXACT ->
        version (server w')
        = version (server w) + (if mutation w ev then 1 else 0))
  /\ (forall w ev w', step w ev = Returns w' ->
        version (server w) <= version (server w'))
  /\ (forall w r t t',
        consistent w ->
        method r = js "DELETE" -> pathname r = js "/talks/" ++ t ->
        t <> [] -> forallb not_slash t = true -> scan Plain t = Some t' ->
        Obj.has t' (talks (server w)) = false ->
        mutation w (Arrive r) = false
        /\ step w (Arrive r)
           = Returns (mkWorld (server w) (timers w)
                              (sent w ++ [(nextId w,
                                           mkWire 204 defaultHeaders None)])
                              (static w) (written w) (closed w)
                              (S (nextId w)))).
Proof.
  intros B. split; [reflexivity|]. split; [|split; [|split]].
  - rewrite run_version; simpl; [reflexivity|exact B].
  - intros w ev w' E V. rewrite (step_version E).
    destruct (mutation w ev); [apply incr_exact; exact V|lia].
  - intros w ev w' E. rewrite (step_version E).
    destruct (mutation w ev); [apply incr_le|lia].
  - intros w r t t' C M P NE F D A.
    assert (S : step w (Arrive r)
                = Returns (mkWorld (server w) (timers w)
                              (sent w ++ [(nextId w,
                                           mkWire 204 defaultHeaders None)])
                              (static w) (written w) (closed w)
                              (S (nextId w)))).
    { simpl. unfold listener. rewrite (route_delete _ _ M P NE F D).
      unfold delete_talk. cbn [server talks]. rewrite A.
      unfold respond. rewrite settle_fresh; [reflexivity|].
      simpl. intros H. apply (sent_bound C) in H. lia. }
    split; [|exact S].
    unfold mutation, target. rewrite M. eval_methods. cbv iota.
    rewrite P, (talkPath_exec NE F). cbn [captures]. rewrite D, A.
    reflexivity.
Qed.

Lemma version_counts_mutations_witness :
  let talk := object2 "presenter" "Ann" "summary" "Hi" in
  let evs := [Arrive (PUT "/talks/Intro" talk);
              Arrive (DELETE "/talks/Unknown");
              Arrive (POST "/talks/Intro/comments"
                           (object2 "author" "Bob" "message" "Nice"));
              Arrive (PUT "/talks/Other" (JString (js "talk")));
              Arrive (GET "/talks/Intro" []);
              Arrive (DELETE "/talks/Intro");
              Arrive (DELETE "/talks/Intro")] in
  mutations (start []) evs = 3
  /\ version (server (fst (run (start []) evs))) = 3
  /\ step (start []) (Arrive (DELETE "/talks/Unknown"))
     = Returns (mkWorld (mkServer [] 0 []) []
                        [(0%nat, mkWire 204 defaultHeaders None)]
                        [] [] [] 1).
Proof.
  intros talk evs.
  assert (B : mutations (start []) evs <= MAX_EXACT)
    by (apply N.leb_le; reflexivity).
  destruct (version_counts_mutations (loaded := []) (evs := evs) B)
    as (_ & V & _ & _ & D).
  split; [reflexivity|]. split; [rewrite V; reflexivity|].
  assert (NE : js "Unknown" <> []) by discriminate.
  destruct (D (start []) (DELETE "/talks/Unknown") (js "Unknown") (js "Unknown")
              (consistent_start []) eq_refl eq_refl NE eq_refl eq_refl eq_refl)
    as [_ S].
  exact S.
Defined.

(** ** Closed connections *)

(** C7 as stated fails: a long-poll is pending, its connection closes, and
    the waiter is still in the pending set; the next mutation writes a
    response for it. *)
Lemma closed_connection_still_waits :
  let w := fst (run (start []) [Arrive (poll 0 "30")]) in
  let w' := fst (run w [Close 0]) in
  let w'' := fst (run w' [Arrive (PUT "/talks/Intro"
                                      (object2 "presenter" "Ann"
                                               "summary" "Hi"))]) in
  waiting (server w) = [0%nat]
  /\ step w (Close 0) = Returns w'
  /\ closed w' = [0%nat]
  /\ waiting (server w') = [0%nat]
  /\ sent w' = []
  /\ map fst (sent w'') = [0%nat; 1%nat]
  /\ map (fun e => w_status (snd e)) (sent w'') = [200; 204].
Proof. repeat split. Qed.

(** C7, amended. The close of a connection changes neither the pending
    set, nor the timers, nor the responses written: the waiter of the
    closed connection stays pending with its timer set. It leaves the
    pending set when that timer fires, which writes nothing, or at the
    next [updated], which empties the set and writes the snapshot for
    it. *)
Theorem close_leaves_waiter (w : World) (id : nat) :
  reachable w ->
  In id (waiting (server w)) ->
  exists w',
    step w (Close id) = Returns w'
    /\ server w' = server w /\ timers w' = timers w /\ sent w' = sent w
    /\ In id (closed w')
    /\ In id (waiting (server w'))
    /\ has_timer id w' = true
    /\ (forall w'', step w' (Fire id) = Returns w'' ->
                    ~ In id (waiting (server w'')) /\ sent w'' = sent w')
    /\ waiting (server (updated w')) = []
    /\ In (id, wire (talkResponse (server (updated w')))) (sent (updated w')).
Proof.
  intros R Hin.
  assert (E : step w (Close id)
              = Returns (mkWorld (server w) (timers w) (sent w) (static w)
                                 (written w) (id :: closed w) (nextId w)))
    by reflexivity.
  eexists. split; [exact E|].
  pose proof (reach_step R E) as R'.
  apply reachable_consistent in R'.
  assert (T : has_timer id (mkWorld (server w) (timers w) (sent w) (static w)
                                    (written w) (id :: closed w) (nextId w))
              = true).
  { apply mem_In. exact (waiting_timer R' Hin). }
  repeat (split; [reflexivity || (left; reflexivity) || assumption|]).
  split; [|split].
  - intros w'' F. destruct (timer_drops_waiter T F) as (A & B & _). auto.
  - apply updated_frame.
  - apply waiter_gets_snapshot; assumption.
Qed.

Lemma close_leaves_waiter_witness :
  let w := fst (run (start []) [Arrive (poll 0 "30")]) in
  exists w',
    step w (Close 0) = Returns w'
    /\ In 0%nat (waiting (server w'))
    /\ has_timer 0 w' = true
    /\ In 0%nat (map fst (sent (updated w'))).
Proof.
  intros w.
  assert (R : reachable w) by (apply run_reachable; apply reach_start).
  assert (I : In 0%nat (waiting (server w))) by (left; reflexivity).
  destruct (close_leaves_waiter R I)
    as (w' & E & _ & _ & _ & _ & W & T & _ & _ & S).
  exists w'. repeat split; try assumption.
  apply in_map_iff. eexists. split; [|exact S]. reflexivity.
Defined.

(** ** General forms of the two defects *)

(** Whatever the state, a waiter whose timer fires is dropped without a
    response, and none is ever written for it later. *)
Lemma timed_out_waiter_never_answered (w w' : World) (id : nat) :
  reachable w ->
  In id (waiting (server w)) ->
  step w (Fire id) = Returns w' ->
  ~ In id (waiting (server w'))
  /\ forall later, ~ In id (map fst (sent (fst (run w' later)))).
Proof.
  intros R Hin F.
  apply reachable_consistent in R.
  assert (T : has_timer id w = true).
  { apply mem_In. exact (waiting_timer R Hin). }
  destruct (timer_drops_waiter T F) as (A & B & _).
  split; [exact A|]. intros later.
  apply unanswered_forever.
  - apply step_frame in F as (L & _). apply (waiting_bound R) in Hin. lia.
  - exact A.
  - rewrite B. exact (waiting_fresh R Hin).
Qed.

(** Whatever the state, a talk path whose segment does not decode makes
    the listener throw, for each of the three methods of the talk
    routes. *)
Lemma malformed_title_throws (w : World) (r : Request) (t : JSString) :
  pathname r = js "/talks/" ++ t ->
  t <> [] -> forallb not_slash t = true -> scan Plain t = None ->
  method r = js "GET" \/ method r = js "DELETE" \/ method r = js "PUT" ->
  step w (Arrive r) = Throws (URIError Body Headers).
Proof.
  intros P NE F D M. simpl. unfold listener, router, add. simpl app.
  pose proof (talkPath_exec NE F) as X.
  cbn [resolve urlRegEx r_method handler]. rewrite P, X.
  destruct M as [M|[M|M]]; rewrite M; eval_methods;
    cbn [negb captures decode_all];
    unfold decodeURIComponent; rewrite D; reflexivity.
Qed.

(** ** Examples *)

Example ex_talkPath :
  exec talkPath (js "/talks/My%20Talk")
  = Some (mkMatch 0 (js "/talks/My%20Talk") [js "My%20Talk"]).
Proof. reflexivity. Qed.

Example ex_comment :
  exec talkPathAddComment (js "/talks/x/comments")
  = Some (mkMatch 0 (js "/talks/x/comments") [js "x"]).
Proof. reflexivity. Qed.

(** The group of the validator pattern is greedy: it runs to the last
    double quote of the line. *)
Example ex_quoted :
  let inner := js "12" ++ [dquote] ++ js ", " ++ [dquote] ++ js "13" in
  exec quotedTag (js "W/" ++ [dquote] ++ inner ++ [dquote] ++ js " x")
  = Some (mkMatch 2 ([dquote] ++ inner ++ [dquote]) [inner]).
Proof. reflexivity. Qed.

Example ex_wait :
  exec waitPref (js "respond-async, wait=90; await=7")
  = Some (mkMatch 15 (js "wait=90") [js "90"]).
Proof. reflexivity. Qed.

Example ex_wait_boundary : exec waitPref (js "await=7") = None.
Proof. reflexivity. Qed.

Example ex_header_absent : exec quotedTag (ToString None) = None.
Proof. reflexivity. Qed.

Example ex_round_even :
  StringToNumber (js "9007199254740993") = of_N 9007199254740992
  /\ StringToNumber (js "9007199254740995") = of_N 9007199254740996.
Proof. split; reflexivity. Qed.

Example ex_overflow :
  StringToNumber (js "1.7976931348623157e308") = Fin false (2 ^ 53 - 1) 971
  /\ StringToNumber (js "1.7976931348623159e308") = Inf false.
Proof. split; vm_compute; reflexivity. Qed.

Example ex_not_numbers :
  map StringToNumber [js "."; js "0x"; js "1e"; js "+0x5"; js "1_0"; js "abc"]
  = [NaN; NaN; NaN; NaN; NaN; NaN].
Proof. reflexivity. Qed.

(** [!=] converts the validator to a number: these all equal version 0
    or 10. *)
Example ex_loose :
  map (fun s => loose_eq s 0) [js "0"; []; js " 0 "; js "00"; js "-0"; js "0x0"; js "1"]
  = [true; true; true; true; true; true; false]
  /\ map (fun s => loose_eq s 10) [js "10"; js "1e1"; js "10.0"; js "0xA"; js "10a"]
     = [true; true; true; true; false].
Proof. split; vm_compute; reflexivity. Qed.

Example ex_incr : incr 41 = 42 /\ incr (2 ^ 53 - 1) = 2 ^ 53 /\ incr (2 ^ 53) = 2 ^ 53.
Proof. repeat split. Qed.

Example ex_decode :
  scan Plain (js "My%20Talk") = Some (js "My Talk")
  /\ scan Plain (js "%E2%82%AC") = Some [8364]
  /\ scan Plain (js "%F0%9F%98%80") = Some [55357; 56832]
  /\ map (scan Plain) [js "%"; js "%4"; js "%zz"; js "%C0%80"; js "%ED%A0%80";
                       js "%E2%82"; js "%80"; js "%F8%80%80%80%80"]
     = [None; None; None; None; None; None; None; None].
Proof. repeat split. Qed.

(** Keys that are array indices come first in [Object.keys]. *)
Example ex_keys :
  map fst (Obj.set (js "7") 3%nat
             (Obj.set (js "b") 2%nat
                (Obj.set (js "10") 1%nat (Obj.set (js "a") 0%nat []))))
  = [js "7"; js "10"; js "a"; js "b"].
Proof. reflexivity. Qed.

(** PUT of a talk, then GET of it. *)
Example scenario_put_get :
  let talk := mkTalk (js "Intro") (js "Ann") (js "Hi") [] in
  run (start []) [Arrive (PUT "/talks/Intro"
                              (object2 "presenter" "Ann" "summary" "Hi"));
                  Arrive (GET "/talks/Intro" [])]
  = (mkWorld (mkServer [(js "Intro", talk)] 1 []) []
             [(0%nat, mkWire 204 defaultHeaders None);
              (1%nat, mkWire 200 json_headers (Some (TalkJSON talk)))]
             [] [[(js "Intro", talk)]] [] 2,
     None).
Proof. reflexivity. Qed.

(** The capture is decoded before the handler sees it. *)
Example scenario_decoded_title :
  sent (fst (run (start []) [Arrive (GET "/talks/My%20Talk" [])]))
  = [(0%nat, mkWire 404 defaultHeaders
                    (Some (Text (js "No talk 'My Talk' found"))))].
Proof. reflexivity. Qed.

(** A method without route on a talk path goes to the file server. *)
Example scenario_unhandled :
  let r := mkRequest (js "PATCH") (js "/talks/Intro") [] Unparsable in
  run (start []) [Arrive r]
  = (mkWorld (mkServer [] 0 []) [] [] [0%nat] [] [] 1, None).
Proof. reflexivity. Qed.

(** A long-poll is released by the next mutation, with the new version. *)
Example scenario_long_poll :
  let talk := mkTalk (js "Intro") (js "Ann") (js "Hi") [] in
  sent (fst (run (start [])
                 [Arrive (poll 0 "5");
                  Arrive (PUT "/talks/Intro"
                              (object2 "presenter" "Ann" "summary" "Hi"))]))
  = [(0%nat, mkWire 200
                    [(js "Content-Type", js "application/json");
                     (js "ETag", quoted (js "1"))]
                    (Some (TalksJSON [talk])));
     (1%nat, mkWire 204 defaultHeaders None)].
Proof. reflexivity. Qed.

(* ================================================================== *)
(** * Further properties *)

(** ** [Router.resolve] in general *)

Lemma dispatch_hit (rt : Route) (w : World) (id : nat) (r : Request) :
  hits rt r = true -> dispatch rt w id r <> Returns None.
Proof.
  intros H. apply hits_inv in H as (m & E & _). unfold dispatch. rewrite E.
  destruct (decode_all _); discriminate.
Qed.

(** X1. [resolve] returns [null] exactly when no registered route passes
    both tests, the pattern on the path and the method: a route whose
    pattern matches under another method does not end the search. *)
Theorem resolve_unhandled_iff
        (routes : Router) (w : World) (id : nat) (r : Request) :
  resolve routes w id r = Returns None
  <-> forall rt, In rt routes ->
        exec (urlRegEx rt) (pathname r) = None \/ method r <> r_method rt.
Proof.
  rewrite resolve_find. split.
  - destruct (find _ routes) as [rt|] eqn:F.
    + intros D. apply find_some in F as [_ Hit].
      exfalso. exact (dispatch_hit Hit D).
    + intros _ rt Hin. pose proof (find_none _ _ F _ Hin) as H.
      unfold hits in H. simpl in H.
      destruct (exec (urlRegEx rt) (pathname r)); [right|left; reflexivity].
      intros E. apply eqb_eq in E. congruence.
  - intros H. destruct (find _ routes) as [rt|] eqn:F; [|reflexivity].
    apply find_some in F as [Hin Hit].
    apply hits_inv in Hit as (m & E & M).
    destruct (H rt Hin) as [N|N]; congruence.
Qed.

Lemma resolve_unhandled_iff_witness :
  let routes :=
    add (js "DELETE") talkPath (Titled delete_talk)
      (add (js "GET") talkPath (Titled get_talk) []) in
  resolve routes (start []) 0 (PUT "/talks/Intro" JNull) = Returns None
  /\ resolve routes (start []) 0 (GET "/talks" []) = Returns None.
Proof.
  intros routes. split; apply resolve_unhandled_iff;
    intros rt [<-|[<-|[]]]; simpl;
    first [left; reflexivity | right; discriminate].
Defined.

(** X2. The first route, in the order of registration, that passes both
    tests is the one [resolve] invokes, with the decoded captures; the
    routes after it are not looked at. A route added to a router never
    takes over a request that a route registered before it handles. *)
Theorem resolve_first_match_wins
        (pre post : Router) (rt : Route) (m : Match)
        (w : World) (id : nat) (r : Request) :
  (forall x, In x pre ->
     exec (urlRegEx x) (pathname r) = None \/ method r <> r_method x) ->
  exec (urlRegEx rt) (pathname r) = Some m ->
  method r = r_method rt ->
  resolve (pre ++ rt :: post) w id r
  = match decode_all (captures m) with
    | Throws e => Throws e
    | Returns urlParts => Returns (Some (invoke (handler rt) w id urlParts r))
    end
  /\ forall me re h,
       resolve (add me re h (pre ++ rt :: post)) w id r
       = resolve (pre ++ rt :: post) w id r.
Proof.
  intros Pre E M.
  assert (Miss : forall x, In x pre -> hits x r = false).
  { intros x Hx. unfold hits. destruct (Pre x Hx) as [N|N].
    - rewrite N. reflexivity.
    - destruct (exec (urlRegEx x) (pathname r)); [|reflexivity].
      destruct (JSStr.eqb (method r) (r_method x)) eqn:Q; [|reflexivity].
      apply eqb_eq in Q. contradiction. }
  assert (Hit : hits rt r = true).
  { unfold hits. rewrite E, M. apply eqb_refl. }
  assert (F : forall tail,
             find (fun x => hits x r) (pre ++ rt :: tail) = Some rt).
  { intros tail. clear Pre. induction pre as [|x pre IH]; simpl.
    - rewrite Hit. reflexivity.
    - rewrite (Miss x (or_introl eq_refl)). apply IH.
      intros y Hy. apply Miss. right. exact Hy. }
  split.
  - rewrite resolve_find, F. unfold dispatch. rewrite E. reflexivity.
  - intros me re h. unfold add. rewrite <- app_assoc. simpl.
    rewrite !resolve_find, !F. reflexivity.
Qed.

Lemma resolve_first_match_wins_witness :
  let late := add (js "GET") talkPath
                  (Titled (fun w _ _ _ => (w, respond (Some 500) None None)))
                  router in
  resolve late (start []) 0 (GET "/talks/Intro" [])
  = Returns (Some (get_talk (start []) 0 (js "Intro") (GET "/talks/Intro" []))).
Proof.
  intros late.
  destruct (@resolve_first_match_wins
              []
              [mkRoute (js "DELETE") talkPath (Titled delete_talk);
               mkRoute (js "PUT") talkPath (Titled put_talk);
               mkRoute (js "POST") talkPathAddComment (Titled post_comment);
               mkRoute (js "GET") talksPath (Plainly list_talks)]
              (mkRoute (js "GET") talkPath (Titled get_talk))
              (mkMatch 0 (js "/talks/Intro") [js "Intro"])
              (start []) 0%nat (GET "/talks/Intro" [])
              (fun x (H : In x []) => match H with end) eq_refl eq_refl)
    as [A B].
  unfold late. change router with
    ([] ++ mkRoute (js "GET") talkPath (Titled get_talk)
        :: [mkRoute (js "DELETE") talkPath (Titled delete_talk);
            mkRoute (js "PUT") talkPath (Titled put_talk);
            mkRoute (js "POST") talkPathAddComment (Titled post_comment);
            mkRoute (js "GET") talksPath (Plainly list_talks)]).
  rewrite B, A. reflexivity.
Defined.

(** ** The requests the server takes *)

Lemma span_sound (p : N -> bool) (s a b : JSString) :
  span p s = (a, b) ->
  s = a ++ b /\ forallb p a = true
  /\ match b with [] => True | c :: _ => p c = false end.
Proof.
  revert a b. induction s as [|c s IH]; intros a b; simpl.
  - intros E; injection E as <- <-. auto.
  - destruct (p c) eqn:C.
    + destruct (span p s) as [a' b'] eqn:S. intros E; injection E as <- <-.
      destruct (IH _ _ eq_refl) as (-> & F & T).
      simpl. rewrite C, F. auto.
    + intros E; injection E as <- <-. simpl. rewrite C. auto.
Qed.

Lemma span_run (p : N -> bool) (a b : JSString) :
  forallb p a = true ->
  match b with [] => True | c :: _ => p c = false end ->
  span p (a ++ b) = (a, b).
Proof.
  intros F T. induction a as [|c a IH]; simpl.
  - destruct b as [|d b]; [reflexivity|]. simpl. rewrite T. reflexivity.
  - simpl in F. apply andb_true_iff in F as [C F].
    rewrite C, (IH F). reflexivity.
Qed.

Lemma nonempty_true (s : JSString) : nonempty s = true <-> s <> [].
Proof. destruct s; simpl; split; congruence. Qed.

(** The talk pattern accepts the paths /talks/{segment} and no other. *)
Lemma talkPath_segment (p : JSString) :
  match talk_segment p with
  | Some t => p = js "/talks/" ++ t /\ t <> [] /\ forallb not_slash t = true
              /\ exec talkPath p = Some (mkMatch 0 p [t])
  | None => exec talkPath p = None
  end.
Proof.
  unfold talk_segment.
  destruct (strip (js "/talks/") p) as [t|] eqn:S.
  - apply strip_sound in S. subst p.
    destruct (nonempty t && forallb not_slash t) eqn:B.
    + apply andb_true_iff in B as [NE F]. apply nonempty_true in NE.
      repeat split; auto. apply talkPath_exec; assumption.
    + destruct (exec talkPath _) as [m|] eqn:E; [exfalso|reflexivity].
      apply talkPath_sound in E as (t' & E & NE & F & _).
      apply app_inv_head in E. subst t'.
      apply nonempty_true in NE. rewrite NE, F in B. discriminate.
  - destruct (exec talkPath p) as [m|] eqn:E; [exfalso|reflexivity].
    apply talkPath_sound in E as (t' & -> & _).
    rewrite strip_app in S. discriminate.
Qed.

(** The comment pattern accepts the paths /talks/{segment}/comments and
    no other. *)
Lemma talkPathAddComment_segment (p : JSString) :
  match comment_segment p with
  | Some t => p = js "/talks/" ++ t ++ js "/comments" /\ t <> []
              /\ forallb not_slash t = true
              /\ exec talkPathAddComment p = Some (mkMatch 0 p [t])
  | None => exec talkPathAddComment p = None
  end.
Proof.
  unfold comment_segment.
  destruct (strip (js "/talks/") p) as [rest|] eqn:S.
  - apply strip_sound in S. subst p.
    destruct (span not_slash rest) as [t tail] eqn:Sp.
    destruct (nonempty t && JSStr.eqb tail (js "/comments")) eqn:B.
    + apply andb_true_iff in B as [NE Q]. apply nonempty_true in NE.
      apply eqb_eq in Q. subst tail.
      apply span_sound in Sp as (-> & F & _).
      repeat split; auto. apply talkPathAddComment_exec; assumption.
    + destruct (exec talkPathAddComment _) as [m|] eqn:E;
        [exfalso|reflexivity].
      apply talkPathAddComment_sound in E as (t' & E & NE & F & _).
      apply app_inv_head in E. subst rest.
      rewrite (span_run (p := not_slash) (a := t') (b := js "/comments") F)
        in Sp by reflexivity.
      injection Sp as <- <-.
      apply nonempty_true in NE. rewrite NE in B. discriminate.
  - destruct (exec talkPathAddComment p) as [m|] eqn:E; [exfalso|reflexivity].
    apply talkPathAddComment_sound in E as (t' & -> & _).
    rewrite strip_app in S. discriminate.
Qed.

Lemma talksPath_exact (p : JSString) :
  if JSStr.eqb p (js "/talks")
  then exec talksPath p = Some (mkMatch 0 p [])
  else exec talksPath p = None.
Proof.
  destruct (JSStr.eqb p (js "/talks")) eqn:Q.
  - apply eqb_eq in Q. subst p. reflexivity.
  - destruct (exec talksPath p) as [m|] eqn:E; [exfalso|reflexivity].
    apply talksPath_sound in E as [-> _]. discriminate.
Qed.

Lemma resolve_miss (routes : Router) (w : World) (id : nat) (r : Request) :
  (forall rt, In rt routes -> hits rt r = false) ->
  resolve routes w id r = Returns None.
Proof.
  intros H. rewrite resolve_find.
  destruct (find _ routes) as [rt|] eqn:F; [|reflexivity].
  apply find_some in F as [Hin Hit]. rewrite (H rt Hin) in Hit. discriminate.
Qed.

Lemma resolve_taken (routes : Router) (w : World) (id : nat) (r : Request)
      (rt : Route) :
  In rt routes -> hits rt r = true -> resolve routes w id r <> Returns None.
Proof.
  intros Hin Hit. rewrite resolve_find.
  destruct (find _ routes) as [x|] eqn:F.
  - apply find_some in F as [_ Hx]. apply dispatch_hit. exact Hx.
  - rewrite (find_none _ _ F _ Hin) in Hit. discriminate.
Qed.

(** The routes of the server hit exactly the routed requests. *)
Lemma routed_hits (r : Request) :
  if routed r then exists rt, In rt router /\ hits rt r = true
  else forall rt, In rt router -> hits rt r = false.
Proof.
  unfold routed.
  pose proof (talkPath_segment (pathname r)) as T.
  pose proof (talkPathAddComment_segment (pathname r)) as C.
  pose proof (talksPath_exact (pathname r)) as L.
  destruct (JSStr.eqb (method r) (js "GET")) eqn:MG;
    destruct (JSStr.eqb (method r) (js "DELETE")) eqn:MD;
    destruct (JSStr.eqb (method r) (js "PUT")) eqn:MP;
    destruct (JSStr.eqb (method r) (js "POST")) eqn:MO;
    destruct (JSStr.eqb (pathname r) (js "/talks")) eqn:PL;
    destruct (talk_segment (pathname r)) as [t|];
    destruct (comment_segment (pathname r)) as [c|];
    cbn [andb orb is_some];
    try destruct T as (_ & _ & _ & T); try destruct C as (_ & _ & _ & C);
    match goal with
    | |- exists _, _ => idtac
    | |- _ =>
        intros rt Hin; unfold router, add in Hin; simpl in Hin;
        repeat (destruct Hin as [<-|Hin]; [|]); try contradiction;
        unfold hits; cbn [urlRegEx r_method];
        rewrite ?T, ?C, ?L, ?MG, ?MD, ?MP, ?MO; reflexivity
    end.
  all: first
    [ exists (mkRoute (js "GET") talksPath (Plainly list_talks));
      split; [unfold router, add; simpl; tauto|];
      unfold hits; cbn [urlRegEx r_method]; rewrite L, MG; reflexivity
    | exists (mkRoute (js "GET") talkPath (Titled get_talk));
      split; [unfold router, add; simpl; tauto|];
      unfold hits; cbn [urlRegEx r_method]; rewrite T, MG; reflexivity
    | exists (mkRoute (js "DELETE") talkPath (Titled delete_talk));
      split; [unfold router, add; simpl; tauto|];
      unfold hits; cbn [urlRegEx r_method]; rewrite T, MD; reflexivity
    | exists (mkRoute (js "PUT") talkPath (Titled put_talk));
      split; [unfold router, add; simpl; tauto|];
      unfold hits; cbn [urlRegEx r_method]; rewrite T, MP; reflexivity
    | exists (mkRoute (js "POST") talkPathAddComment (Titled post_comment));
      split; [unfold router, add; simpl; tauto|];
      unfold hits; cbn [urlRegEx r_method]; rewrite C, MO; reflexivity ].
Qed.

(** X3. The server takes a request exactly when it is GET /talks, GET,
    DELETE or PUT on a path /talks/{segment}, or POST on a path
    /talks/{segment}/comments. Any other request is handed to the static
    file server: the application writes no response for it and the
    server, timers and file are left as they were. A request it takes is
    never handed to the file server. *)
Theorem unrouted_requests_go_static (w : World) (r : Request) :
  (routed r = false ->
   step w (Arrive r)
   = Returns (mkWorld (server w) (timers w) (sent w)
                      (static w ++ [nextId w]) (written w) (closed w)
                      (S (nextId w))))
  /\ (routed r = true ->
      forall w', step w (Arrive r) = Returns w' -> static w' = static w).
Proof.
  pose proof (routed_hits r) as H. split; intros R; rewrite R in H.
  - simpl. unfold listener. rewrite (resolve_miss _ _ H). reflexivity.
  - destruct H as (rt & Hin & Hit). intros w'. simpl. unfold listener.
    pose proof (@resolve_taken router
                  (mkWorld (server w) (timers w) (sent w) (static w)
                           (written w) (closed w) (S (nextId w)))
                  (nextId w) r rt Hin Hit) as NN.
    destruct (resolve router _ (nextId w) r) as [[[w1 p]|]|e] eqn:Q;
      [|congruence|discriminate].
    assert (S1 : static w1 = static w).
    { apply resolve_cases
        in Q as [[-> _]|[(ts & -> & _)|[(time & -> & _)|(-> & _)]]];
        try reflexivity.
      etransitivity; [apply updated_frame|reflexivity]. }
    destruct p as [d|e|i]; intros E; injection E as <-; try exact S1.
    + etransitivity; [apply settle_frame|exact S1].
    + etransitivity; [apply settle_frame|exact S1].
Qed.

Lemma unrouted_requests_go_static_witness :
  let patch := mkRequest (js "PATCH") (js "/talks/Intro") [] Unparsable in
  step (start []) (Arrive patch)
  = Returns (mkWorld (mkServer [] 0 []) [] [] [0%nat] [] [] 1)
  /\ step (start []) (Arrive (GET "/talks/a/b" []))
     = Returns (mkWorld (mkServer [] 0 []) [] [] [0%nat] [] [] 1)
  /\ forall w', step (start []) (Arrive (DELETE "/talks/Intro")) = Returns w' ->
                static w' = [].
Proof.
  intros patch.
  destruct (unrouted_requests_go_static (start []) patch) as [A _].
  destruct (unrouted_requests_go_static (start []) (GET "/talks/a/b" []))
    as [B _].
  destruct (unrouted_requests_go_static (start []) (DELETE "/talks/Intro"))
    as [_ C].
  split; [exact (A eq_refl)|]. split; [exact (B eq_refl)|].
  exact (C eq_refl).
Defined.

(** ** The talks object: lookup after update *)

Lemma eqb_neq (a b : JSString) : JSStr.eqb a b = false <-> a <> b.
Proof.
  rewrite <- eqb_eq. destruct (JSStr.eqb a b); split; congruence.
Qed.

Section ObjFacts.
Variable V : Type.
Implicit Types (o : Obj.t V) (k : JSString) (v : V).

Lemma get_app_miss k o o' :
  Obj.get k o = None -> Obj.get k (o ++ o') = Obj.get k o'.
Proof.
  induction o as [|[k' x] o IH]; simpl; [reflexivity|].
  destruct (JSStr.eqb k k'); [discriminate|exact IH].
Qed.

Lemma get_app_hit k o o' x :
  Obj.get k o = Some x -> Obj.get k (o ++ o') = Some x.
Proof.
  induction o as [|[k' y] o IH]; simpl; [discriminate|].
  destruct (JSStr.eqb k k'); [auto|exact IH].
Qed.

Lemma get_insert_same n k v o :
  Obj.get k o = None -> Obj.get k (Obj.insert_index n k v o) = Some v.
Proof.
  induction o as [|[k' x] o IH]; simpl.
  - rewrite eqb_refl. reflexivity.
  - destruct (JSStr.eqb k k') eqn:E; [discriminate|]. intros G.
    destruct (Obj.array_index k') as [n'|];
      [destruct (n <? n')|]; simpl; rewrite ?eqb_refl, ?E; auto.
Qed.

Lemma get_insert_other n k k' v o :
  k' <> k -> Obj.get k' (Obj.insert_index n k v o) = Obj.get k' o.
Proof.
  intros NE. apply eqb_neq in NE.
  induction o as [|[k2 x] o IH]; simpl.
  - rewrite NE. reflexivity.
  - destruct (Obj.array_index k2) as [n'|];
      [destruct (n <? n')|]; simpl; rewrite ?NE; try reflexivity.
    rewrite IH. reflexivity.
Qed.

Lemma get_replace_other k k' v o :
  k' <> k -> Obj.get k' (Obj.replace k v o) = Obj.get k' o.
Proof.
  intros NE. induction o as [|[k2 x] o IH]; simpl; [reflexivity|].
  destruct (JSStr.eqb k k2) eqn:E; simpl.
  - apply eqb_eq in E. subst k2. apply eqb_neq in NE. rewrite NE.
    reflexivity.
  - rewrite IH. reflexivity.
Qed.

(** Assignment, then lookup of the same key. *)
Lemma get_set_same k v o : Obj.get k (Obj.set k v o) = Some v.
Proof.
  unfold Obj.set, Obj.has.
  destruct (Obj.get k o) as [x|] eqn:G.
  - eapply get_replace; eauto.
  - destruct (Obj.array_index k) as [n|].
    + apply get_insert_same; exact G.
    + rewrite (get_app_miss _ G). simpl. rewrite eqb_refl. reflexivity.
Qed.

(** Assignment leaves the other keys alone. *)
Lemma get_set_other k k' v o :
  k' <> k -> Obj.get k' (Obj.set k v o) = Obj.get k' o.
Proof.
  intros NE. unfold Obj.set.
  destruct (Obj.has k o); [apply get_replace_other; exact NE|].
  destruct (Obj.array_index k) as [n|];
    [apply get_insert_other; exact NE|].
  destruct (Obj.get k' o) as [x|] eqn:G.
  - apply get_app_hit; exact G.
  - rewrite (get_app_miss _ G). simpl.
    apply eqb_neq in NE. rewrite NE. reflexivity.
Qed.

Lemma get_delete_same k o : Obj.get k (Obj.delete k o) = None.
Proof.
  induction o as [|[k' x] o IH]; simpl; [reflexivity|].
  destruct (JSStr.eqb k k') eqn:E; simpl; rewrite ?E; exact IH.
Qed.

Lemma get_delete_other k k' o :
  k' <> k -> Obj.get k' (Obj.delete k o) = Obj.get k' o.
Proof.
  intros NE. induction o as [|[k2 x] o IH]; simpl; [reflexivity|].
  destruct (JSStr.eqb k k2) eqn:E; simpl.
  - apply eqb_eq in E. subst k2. apply eqb_neq in NE. rewrite NE. exact IH.
  - rewrite IH. reflexivity.
Qed.

End ObjFacts.

(** ** Turns that answer at once *)

Lemma settle_bump (i : nat) (d : Descriptor) (w : World) :
  settle i d (bump w) = bump (settle i d w).
Proof.
  unfold settle, bump. simpl. destruct (mem i (map fst (sent w))); reflexivity.
Qed.

Lemma updated_bump (w : World) (ts : Obj.t Talk) :
  updated (set_talks (bump w) ts) = bump (updated (set_talks w ts)).
Proof.
  unfold updated.
  set (d := talkResponse _).
  assert (F : forall ids u,
             fold_left (fun acc resolve => settle resolve d acc) ids (bump u)
             = bump (fold_left (fun acc resolve => settle resolve d acc) ids u)).
  { induction ids as [|i ids IH]; intros u; simpl; [reflexivity|].
    rewrite settle_bump. apply IH. }
  simpl. unfold with_server, set_talks, with_server. simpl.
  match goal with |- context [fold_left ?f ?ids (mkWorld ?a ?b ?c ?e ?g ?h (S ?n))] =>
    change (mkWorld a b c e g h (S n)) with (bump (mkWorld a b c e g h n))
  end.
  rewrite F. reflexivity.
Qed.

(** A handler that resolves without touching the server. *)
Lemma answer_at_once (w : World) (r : Request) (d : Descriptor) :
  consistent w ->
  resolve router (bump w) (nextId w) r = Returns (Some (bump w, Resolved d)) ->
  step w (Arrive r) = Returns (answered w (wire d)).
Proof.
  intros C R. simpl. unfold listener. fold (bump w). rewrite R.
  rewrite settle_fresh; [reflexivity|].
  simpl. intros H. apply (sent_bound C) in H. lia.
Qed.

(** A handler that changes the talks, calls [updated] and resolves. *)
Lemma answer_after_update (w : World) (r : Request) (d : Descriptor)
      (ts : Obj.t Talk) :
  consistent w ->
  resolve router (bump w) (nextId w) r
  = Returns (Some (updated (set_talks (bump w) ts), Resolved d)) ->
  step w (Arrive r)
  = Returns (answered (updated (set_talks w ts)) (wire d)).
Proof.
  intros C R. simpl. unfold listener. fold (bump w). rewrite R.
  rewrite updated_bump.
  destruct (updated_frame (set_talks w ts))
    as (_ & _ & _ & _ & _ & _ & _ & U8 & U9 & _).
  rewrite settle_fresh.
  - unfold answered, bump.
    cbn [server timers sent static written closed nextId].
    rewrite U8. reflexivity.
  - simpl. intros H. apply U9 in H. simpl in H. destruct H as [H|H].
    + apply (sent_bound C) in H. lia.
    + apply (waiting_bound C) in H. lia.
Qed.

Lemma route_talk (w : World) (id : nat) (r : Request) (m : string)
      (seg t : JSString) :
  addresses r m seg t ->
  (m = "GET"%string ->
   resolve router w id r = Returns (Some (get_talk w id t r)))
  /\ (m = "DELETE"%string ->
      resolve router w id r = Returns (Some (delete_talk w id t r)))
  /\ (m = "PUT"%string ->
      resolve router w id r = Returns (Some (put_talk w id t r))).
Proof.
  intros (M & P & NE & F & D).
  pose proof (talkPath_exec NE F) as X.
  repeat split; intros ->; unfold router, add; simpl app;
    cbn [resolve urlRegEx r_method handler]; rewrite P, X, M;
    eval_methods; cbn [negb captures decode_all];
    unfold decodeURIComponent; rewrite D; reflexivity.
Qed.

Lemma string_props_valid (a b : JSString) (v : JValue) (x y : JSString) :
  falsy v = false -> string_prop a v = Some x -> string_prop b v = Some y ->
  has_strings a b v = true.
Proof. intros. apply has_strings_test. eauto. Qed.

Lemma get_talk_step (w : World) (r : Request) (seg t : JSString) :
  consistent w -> addresses r "GET" seg t ->
  step w (Arrive r)
  = Returns (answered w
               match Obj.get t (talks (server w)) with
               | Some talk => mkWire 200 json_headers (Some (TalkJSON talk))
               | None => mkWire 404 defaultHeaders (Some (no_talk t))
               end).
Proof.
  intros C A. destruct (route_talk (bump w) (nextId w) A) as (G & _ & _).
  specialize (G eq_refl). unfold get_talk in G. cbn [bump server] in G.
  destruct (Obj.get t (talks (server w))) as [talk|];
    apply (answer_at_once C G).
Qed.

Lemma put_talk_step (w : World) (r : Request) (seg t : JSString)
      (v : JValue) (p s : JSString) :
  consistent w -> addresses r "PUT" seg t ->
  payload r = Parsed v -> falsy v = false ->
  string_prop (js "presenter") v = Some p ->
  string_prop (js "summary") v = Some s ->
  step w (Arrive r)
  = Returns (answered
               (updated (set_talks w (Obj.set t (mkTalk t p s [])
                                              (talks (server w)))))
               no_content).
Proof.
  intros C A Pl F Pp Ps.
  destruct (route_talk (bump w) (nextId w) A) as (_ & _ & G).
  specialize (G eq_refl). unfold put_talk in G.
  rewrite Pl, F, Pp, Ps in G. cbn [bump server] in G.
  apply (answer_after_update C G).
Qed.

Lemma put_talk_refused (w : World) (r : Request) (seg t : JSString) :
  consistent w -> addresses r "PUT" seg t ->
  (payload r = Unparsable ->
   step w (Arrive r)
   = Returns (answered w (mkWire 400 defaultHeaders
                                 (Some (Text (js "Invalid JSON"))))))
  /\ (forall v, payload r = Parsed v ->
        has_strings (js "presenter") (js "summary") v = false ->
        step w (Arrive r)
        = Returns (answered w (mkWire 400 defaultHeaders
                                      (Some (Text (js "Bad talk data")))))).
Proof.
  intros C A. destruct (route_talk (bump w) (nextId w) A) as (_ & _ & G).
  specialize (G eq_refl). unfold put_talk in G. split.
  - intros Pl. rewrite Pl in G. apply (answer_at_once C G).
  - intros v Pl H. rewrite Pl, (has_strings_false _ _ H) in G.
    apply (answer_at_once C G).
Qed.

Lemma delete_talk_step (w : World) (r : Request) (seg t : JSString) :
  consistent w -> addresses r "DELETE" seg t ->
  step w (Arrive r)
  = Returns (if Obj.has t (talks (server w))
             then answered (updated (set_talks w (Obj.delete t
                                                    (talks (server w)))))
                           no_content
             else answered w no_content).
Proof.
  intros C A. destruct (route_talk (bump w) (nextId w) A) as (_ & G & _).
  specialize (G eq_refl). unfold delete_talk in G. cbn [bump server] in G.
  destruct (Obj.has t (talks (server w))).
  - apply (answer_after_update C G).
  - apply (answer_at_once C G).
Qed.

Lemma post_comment_step (w : World) (r : Request) (seg t : JSString)
      (c : JValue) (talk : Talk) :
  consistent w ->
  method r = js "POST" ->
  pathname r = js "/talks/" ++ seg ++ js "/comments" ->
  seg <> [] -> forallb not_slash seg = true -> scan Plain seg = Some t ->
  payload r = Parsed c ->
  has_strings (js "author") (js "message") c = true ->
  Obj.get t (talks (server w)) = Some talk ->
  step w (Arrive r)
  = Returns (answered
               (updated
                  (set_talks w
                     (Obj.replace t
                        (mkTalk (title talk) (presenter talk) (summary talk)
                                (comments talk ++ [c]))
                        (talks (server w)))))
               no_content).
Proof.
  intros C M P NE F D Pl H G.
  pose proof (route_comment (bump w) (nextId w) M P NE F D) as R.
  unfold post_comment in R. rewrite Pl in R.
  apply has_strings_test in H as (x & y & H1 & H2 & H3).
  rewrite H1, H2, H3 in R. cbn [bump server] in R. rewrite G in R.
  apply (answer_after_update C R).
Qed.

(** What [updated] leaves behind, seen through [answered]. *)
Lemma after_update (w : World) (ts : Obj.t Talk) (x : Wire) :
  let w' := answered (updated (set_talks w ts)) x in
  talks (server w') = ts
  /\ version (server w') = incr (version (server w))
  /\ waiting (server w') = []
  /\ written w' = written w ++ [ts]
  /\ timers w' = timers w /\ static w' = static w.
Proof.
  destruct (updated_frame (set_talks w ts))
    as (U1 & U2 & U3 & U4 & U5 & U6 & _).
  unfold answered. simpl. repeat split; assumption.
Qed.

(** ** The talk routes *)

(** X4. GET of a talk. When the decoded title is a key of the talks, the
    response is 200 with the JSON of that talk and the JSON content type;
    otherwise it is 404 with the text "No talk '{title}' found". In both
    cases the request is answered in its turn and the server, the timers
    and the file are left as they were. *)
Theorem get_talk_contract (w : World) (r : Request) (seg t : JSString) :
  consistent w -> addresses r "GET" seg t ->
  (forall talk, Obj.get t (talks (server w)) = Some talk ->
     step w (Arrive r)
     = Returns (answered w (mkWire 200
                                   [(js "Content-Type", js "application/json")]
                                   (Some (TalkJSON talk)))))
  /\ (Obj.get t (talks (server w)) = None ->
      step w (Arrive r)
      = Returns (answered w
                   (mkWire 404 defaultHeaders
                           (Some (Text (js "No talk '" ++ t ++ js "' found"))))))
  /\ (forall w', step w (Arrive r) = Returns w' ->
        server w' = server w /\ timers w' = timers w
        /\ written w' = written w /\ static w' = static w).
Proof.
  intros C A. pose proof (get_talk_step C A) as S.
  split; [|split].
  - intros talk G. rewrite G in S. exact S.
  - intros G. rewrite G in S. exact S.
  - intros w' E. rewrite S in E. injection E as <-. repeat split.
Qed.

Lemma get_talk_contract_witness :
  let talk := mkTalk (js "My Talk") (js "Ann") (js "Hi") [] in
  let w := start [(js "My Talk", talk)] in
  step w (Arrive (GET "/talks/My%20Talk" []))
  = Returns (answered w (mkWire 200 json_headers (Some (TalkJSON talk))))
  /\ step w (Arrive (GET "/talks/Other" []))
     = Returns (answered w (mkWire 404 defaultHeaders
                                   (Some (Text (js "No talk 'Other' found"))))).
Proof.
  intros talk w.
  assert (A1 : addresses (GET "/talks/My%20Talk" []) "GET"
                         (js "My%20Talk") (js "My Talk")).
  { repeat split. discriminate. }
  assert (A2 : addresses (GET "/talks/Other" []) "GET" (js "Other") (js "Other")).
  { repeat split. discriminate. }
  destruct (get_talk_contract (w := w) (consistent_start _) A1) as (X & _ & _).
  destruct (get_talk_contract (w := w) (consistent_start _) A2) as (_ & Y & _).
  split; [exact (X talk eq_refl)|exact (Y eq_refl)].
Defined.

(** X5. PUT of a talk, once the body has been read. A body that does not
    parse gets 400 "Invalid JSON"; a body that parses to anything but an
    object with string [presenter] and string [summary] gets 400 "Bad talk
    data"; in both cases the server is left as it was. A valid body
    stores, under the decoded title, the talk made of that title, the two
    strings and no comments, runs [updated] (version, waiters, file) and
    gets 204; the talks under the other titles are not touched. *)
Theorem put_talk_contract (w : World) (r : Request) (seg t : JSString) :
  consistent w -> addresses r "PUT" seg t ->
  (payload r = Unparsable ->
   step w (Arrive r)
   = Returns (answered w (mkWire 400 defaultHeaders
                                 (Some (Text (js "Invalid JSON"))))))
  /\ (forall v, payload r = Parsed v ->
        has_strings (js "presenter") (js "summary") v = false ->
        step w (Arrive r)
        = Returns (answered w (mkWire 400 defaultHeaders
                                      (Some (Text (js "Bad talk data"))))))
  /\ (forall props p s,
        payload r = Parsed (JObject props) ->
        Obj.get (js "presenter") props = Some (JString p) ->
        Obj.get (js "summary") props = Some (JString s) ->
        exists w',
          step w (Arrive r) = Returns w'
          /\ Obj.get t (talks (server w')) = Some (mkTalk t p s [])
          /\ (forall k, k <> t ->
                Obj.get k (talks (server w')) = Obj.get k (talks (server w)))
          /\ version (server w') = incr (version (server w))
          /\ waiting (server w') = []
          /\ written w' = written w ++ [talks (server w')]
          /\ In (nextId w, mkWire 204 defaultHeaders None) (sent w')).
Proof.
  intros C A. destruct (put_talk_refused C A) as [R1 R2].
  split; [exact R1|]. split; [exact R2|].
  intros props p s Pl Gp Gs.
  assert (Pp : string_prop (js "presenter") (JObject props) = Some p)
    by (simpl; rewrite Gp; reflexivity).
  assert (Ps : string_prop (js "summary") (JObject props) = Some s)
    by (simpl; rewrite Gs; reflexivity).
  pose proof (put_talk_step C A Pl eq_refl Pp Ps) as S.
  eexists. split; [exact S|].
  match goal with |- context [answered (updated (set_talks w ?ts)) ?x] =>
    destruct (after_update w ts x) as (T & V & W & Wr & _)
  end.
  rewrite T, V, W, Wr.
  split; [apply get_set_same|].
  split; [intros k NE; apply get_set_other; exact NE|].
  repeat split. unfold answered. cbn [sent].
  apply in_or_app. right. left. f_equal.
  apply (updated_frame (set_talks w _)).
Qed.

Lemma put_talk_contract_witness :
  let r := PUT "/talks/Intro" (object2 "presenter" "Ann" "summary" "Hi") in
  exists w',
    step (start []) (Arrive r) = Returns w'
    /\ Obj.get (js "Intro") (talks (server w'))
       = Some (mkTalk (js "Intro") (js "Ann") (js "Hi") [])
    /\ version (server w') = 1
  /\ step (start []) (Arrive (PUT "/talks/Intro" (JArray [])))
     = Returns (answered (start [])
                  (mkWire 400 defaultHeaders (Some (Text (js "Bad talk data"))))).
Proof.
  intros r.
  assert (A : forall v, addresses (PUT "/talks/Intro" v) "PUT"
                                  (js "Intro") (js "Intro")).
  { intros v. repeat split. discriminate. }
  destruct (put_talk_contract (consistent_start []) (A (object2 "presenter" "Ann" "summary" "Hi")))
    as (_ & _ & X).
  destruct (put_talk_contract (consistent_start []) (A (JArray [])))
    as (_ & Y & _).
  destruct (X _ (js "Ann") (js "Hi") eq_refl eq_refl eq_refl)
    as (w' & S & G & _ & V & _).
  exists w'. split; [exact S|]. split; [exact G|]. split; [exact V|].
  exact (Y _ eq_refl eq_refl).
Defined.

(** X6. PUT, then GET. After a valid PUT of a title, a GET of that title
    answers 200 with the talk made of the title and the two strings of the
    body, with no comments: a PUT on a title that exists replaces the talk
    and drops the comments it had. *)
Theorem put_then_get (w : World) (rp rg : Request) (seg seg' t : JSString)
        (props : list (JSString * JValue)) (p s : JSString) :
  consistent w ->
  addresses rp "PUT" seg t -> addresses rg "GET" seg' t ->
  payload rp = Parsed (JObject props) ->
  Obj.get (js "presenter") props = Some (JString p) ->
  Obj.get (js "summary") props = Some (JString s) ->
  exists w1,
    step w (Arrive rp) = Returns w1
    /\ run w [Arrive rp; Arrive rg]
       = (answered w1 (mkWire 200 json_headers
                              (Some (TalkJSON (mkTalk t p s [])))),
          None).
Proof.
  intros C Ap Ag Pl Gp Gs.
  assert (Pp : string_prop (js "presenter") (JObject props) = Some p)
    by (simpl; rewrite Gp; reflexivity).
  assert (Ps : string_prop (js "summary") (JObject props) = Some s)
    by (simpl; rewrite Gs; reflexivity).
  pose proof (put_talk_step C Ap Pl eq_refl Pp Ps) as S.
  eexists. split; [exact S|].
  pose proof (consistent_step C S) as C1.
  pose proof (get_talk_step C1 Ag) as G.
  match type of G with context [answered (updated (set_talks w ?ts)) ?x] =>
    destruct (after_update w ts x) as (T & _)
  end.
  rewrite T, get_set_same in G.
  unfold run. rewrite S, G. reflexivity.
Qed.

Lemma put_then_get_witness :
  let old := mkTalk (js "Intro") (js "Bob") (js "Old")
                    [object2 "author" "Eve" "message" "Hello"] in
  let body := object2 "presenter" "Ann" "summary" "Hi" in
  map snd (sent (fst (run (start [(js "Intro", old)])
                          [Arrive (PUT "/talks/Intro" body);
                           Arrive (GET "/talks/Intro" [])])))
  = [no_content;
     mkWire 200 json_headers
            (Some (TalkJSON (mkTalk (js "Intro") (js "Ann") (js "Hi") [])))].
Proof.
  intros old body.
  assert (Ap : addresses (PUT "/talks/Intro" body) "PUT" (js "Intro") (js "Intro")).
  { repeat split. discriminate. }
  assert (Ag : addresses (GET "/talks/Intro" []) "GET" (js "Intro") (js "Intro")).
  { repeat split. discriminate. }
  destruct (put_then_get (consistent_start [(js "Intro", old)]) Ap Ag
              eq_refl eq_refl eq_refl) as (w1 & S & R).
  rewrite R. simpl fst. unfold answered. cbn [sent].
  rewrite map_app. simpl in S. injection S as <-. reflexivity.
Defined.

(** X7. DELETE of a talk that exists removes it and nothing else: the
    title is no key any more, the talks under the other titles are as
    before, [updated] has run (version, waiters, file) and 204 is
    written. *)
Theorem delete_talk_contract (w : World) (r : Request) (seg t : JSString) :
  consistent w -> addresses r "DELETE" seg t ->
  Obj.has t (talks (server w)) = true ->
  exists w',
    step w (Arrive r) = Returns w'
    /\ Obj.get t (talks (server w')) = None
    /\ (forall k, k <> t ->
          Obj.get k (talks (server w')) = Obj.get k (talks (server w)))
    /\ version (server w') = incr (version (server w))
    /\ waiting (server w') = []
    /\ written w' = written w ++ [talks (server w')]
    /\ In (nextId w, mkWire 204 defaultHeaders None) (sent w').
Proof.
  intros C A H. pose proof (delete_talk_step C A) as S. rewrite H in S.
  eexists. split; [exact S|].
  match goal with |- context [answered (updated (set_talks w ?ts)) ?x] =>
    destruct (after_update w ts x) as (T & V & W & Wr & _)
  end.
  rewrite T, V, W, Wr.
  split; [apply get_delete_same|].
  split; [intros k NE; apply get_delete_other; exact NE|].
  repeat split. unfold answered. cbn [sent].
  apply in_or_app. right. left. f_equal.
  apply (updated_frame (set_talks w _)).
Qed.

Lemma delete_talk_contract_witness :
  let a := mkTalk (js "A") (js "Ann") (js "Hi") [] in
  let b := mkTalk (js "B") (js "Bob") (js "Ho") [] in
  exists w',
    step (start [(js "A", a); (js "B", b)]) (Arrive (DELETE "/talks/A"))
    = Returns w'
    /\ Obj.get (js "A") (talks (server w')) = None
    /\ Obj.get (js "B") (talks (server w')) = Some b
    /\ version (server w') = 1.
Proof.
  intros a b.
  assert (A : addresses (DELETE "/talks/A") "DELETE" (js "A") (js "A")).
  { repeat split. discriminate. }
  destruct (delete_talk_contract
              (consistent_start [(js "A", a); (js "B", b)]) A eq_refl)
    as (w' & S & G & O & V & _).
  exists w'. split; [exact S|]. split; [exact G|].
  split; [rewrite O; [reflexivity|discriminate]|exact V].
Defined.

(** X8. DELETE is idempotent. After a DELETE of a title, whether or not
    it was there, a GET of that title answers 404 and a second DELETE of
    it answers 204 and leaves server, version and file as the first one
    left them. *)
Theorem delete_is_idempotent (w : World) (rd rd' rg : Request)
        (s1 s2 s3 t : JSString) :
  consistent w ->
  addresses rd "DELETE" s1 t -> addresses rd' "DELETE" s2 t ->
  addresses rg "GET" s3 t ->
  exists w1,
    step w (Arrive rd) = Returns w1
    /\ step w1 (Arrive rg)
       = Returns (answered w1
                    (mkWire 404 defaultHeaders
                            (Some (Text (js "No talk '" ++ t ++ js "' found")))))
    /\ step w1 (Arrive rd') = Returns (answered w1 no_content).
Proof.
  intros C A A' Ag. pose proof (delete_talk_step C A) as S.
  set (w1 := if Obj.has t (talks (server w))
             then answered (updated (set_talks w (Obj.delete t
                                                    (talks (server w)))))
                           no_content
             else answered w no_content) in S.
  exists w1. split; [exact S|].
  pose proof (consistent_step C S) as C1.
  assert (G : Obj.get t (talks (server w1)) = None).
  { unfold w1. destruct (Obj.has t (talks (server w))) eqn:H.
    - match goal with |- context [answered (updated (set_talks w ?ts)) ?x] =>
        destruct (after_update w ts x) as (T & _)
      end.
      rewrite T. apply get_delete_same.
    - unfold Obj.has in H. simpl.
      destruct (Obj.get t (talks (server w))); [discriminate|reflexivity]. }
  split.
  - rewrite (get_talk_step C1 Ag), G. reflexivity.
  - rewrite (delete_talk_step C1 A'). unfold Obj.has. rewrite G. reflexivity.
Qed.

Lemma delete_is_idempotent_witness :
  let a := mkTalk (js "A") (js "Ann") (js "Hi") [] in
  exists w1,
    step (start [(js "A", a)]) (Arrive (DELETE "/talks/A")) = Returns w1
    /\ version (server w1) = 1
    /\ step w1 (Arrive (DELETE "/talks/A")) = Returns (answered w1 no_content).
Proof.
  intros a.
  assert (A : addresses (DELETE "/talks/A") "DELETE" (js "A") (js "A")).
  { repeat split. discriminate. }
  assert (Ag : addresses (GET "/talks/A" []) "GET" (js "A") (js "A")).
  { repeat split. discriminate. }
  destruct (delete_is_idempotent (consistent_start [(js "A", a)]) A A Ag)
    as (w1 & S & _ & D).
  exists w1. split; [exact S|]. split; [|exact D].
  simpl in S. injection S as <-. reflexivity.
Defined.

(** ** What a turn does to the talks and to the file *)

Lemma resolve_effect (w w1 : World) (id : nat) (r : Request) (p : Promise) :
  resolve router w id r = Returns (Some (w1, p)) ->
  if mutation w (Arrive r)
  then exists ts, change (talks (server w)) ts
                  /\ w1 = updated (set_talks w ts)
  else w1 = w \/ exists time, w1 = fst (waitForChanges time id w).
Proof.
  rewrite resolve_find.
  destruct (find _ router) as [rt|] eqn:F; [|discriminate].
  apply find_some in F as [Hin Hit].
  apply hits_inv in Hit as (m & E & M).
  unfold dispatch. rewrite E.
  destruct (decode_all (captures m)) as [parts|e] eqn:D; [|discriminate].
  intros Eq. injection Eq as Eq.
  unfold router, add in Hin. simpl in Hin.
  repeat (destruct Hin as [<-|Hin]; [|]); try contradiction;
    simpl in E, M, Eq; unfold mutation; rewrite M; eval_methods; cbv iota.
  - destruct (talkPath_sound E) as (c & _ & _ & _ & ->).
    apply decode_one in D as (t & S & ->). simpl in Eq.
    left. unfold get_talk in Eq.
    destruct (Obj.get t (talks (server w))); injection Eq as <- _;
      reflexivity.
  - destruct (talkPath_sound E) as (c & _ & _ & _ & ->).
    apply decode_one in D as (t & S & ->). simpl in Eq.
    unfold target. rewrite E. cbn [captures]. rewrite S.
    unfold delete_talk in Eq. injection Eq as <- _.
    destruct (Obj.has t (talks (server w))) eqn:H.
    + eexists. split; [apply ch_delete; exact H|reflexivity].
    + left. reflexivity.
  - destruct (talkPath_sound E) as (c & _ & _ & _ & ->).
    apply decode_one in D as (t & S & ->). simpl in Eq.
    unfold target. rewrite E. cbn [captures]. rewrite S.
    unfold put_talk in Eq.
    destruct (payload r) as [e| |v|];
      try (injection Eq as <- _; left; reflexivity).
    destruct (has_strings (js "presenter") (js "summary") v) eqn:H.
    + apply has_strings_test in H as (x & y & H1 & H2 & H3).
      rewrite H1, H2, H3 in Eq. injection Eq as <- _.
      eexists. split; [apply ch_put|reflexivity].
    + rewrite (has_strings_false _ _ H) in Eq. injection Eq as <- _.
      left. reflexivity.
  - destruct (talkPathAddComment_sound E) as (c & _ & _ & _ & ->).
    apply decode_one in D as (t & S & ->). simpl in Eq.
    unfold target. rewrite E. cbn [captures]. rewrite S.
    unfold post_comment in Eq.
    destruct (payload r) as [e| |v|];
      try (injection Eq as <- _; left; reflexivity).
    destruct (has_strings (js "author") (js "message") v) eqn:H.
    + apply has_strings_test in H as (x & y & H1 & H2 & H3).
      rewrite H1, H2, H3 in Eq. unfold Obj.has. cbn [andb].
      destruct (Obj.get t (talks (server w))) as [talk|] eqn:G;
        injection Eq as <- _.
      * eexists. split; [apply ch_comment; exact G|reflexivity].
      * left. reflexivity.
    + rewrite (has_strings_false _ _ H) in Eq. injection Eq as <- _.
      left. reflexivity.
  - destruct (talksPath_sound E) as (_ & ->). simpl in D.
    injection D as <-. simpl in Eq. unfold list_talks in Eq.
    destruct (exec quotedTag _); [|injection Eq as <- _; left; reflexivity].
    destruct (negb _); [injection Eq as <- _; left; reflexivity|].
    destruct (exec waitPref _); [|injection Eq as <- _; left; reflexivity].
    right. eexists. rewrite Eq. reflexivity.
Qed.

Lemma step_effect (w w' : World) (ev : Event) :
  step w ev = Returns w' ->
  if mutation w ev
  then change (talks (server w)) (talks (server w'))
       /\ written w' = written w ++ [talks (server w')]
  else talks (server w') = talks (server w) /\ written w' = written w.
Proof.
  destruct ev as [r|id|id]; simpl step.
  - unfold listener. fold (bump w).
    change (mutation w (Arrive r)) with (mutation (bump w) (Arrive r)).
    destruct (resolve router (bump w) (nextId w) r) as [[[w1 p]|]|e] eqn:R;
      [| |discriminate].
    + apply resolve_effect in R.
      assert (K : forall u, match p with
                            | Resolved d => Returns (settle (nextId w) d w1)
                            | Rejected e =>
                                Returns (settle (nextId w) (on_rejected e) w1)
                            | Pending _ => Returns w1
                            end = Returns (E := JSError) u ->
                            server u = server w1 /\ written u = written w1).
      { intros u. destruct p as [d|e|i]; intros E; injection E as <-;
          try (split; reflexivity); split; apply settle_frame. }
      intros E. apply K in E as [-> ->].
      destruct (mutation (bump w) (Arrive r)).
      * destruct R as (ts & Ch & ->).
        destruct (updated_frame (set_talks (bump w) ts))
          as (U1 & _ & _ & _ & _ & U6 & _).
        rewrite U1, U6. split; [exact Ch|reflexivity].
      * destruct R as [->|(time & ->)]; split; reflexivity.
    + apply resolve_none in R. rewrite R.
      intros E; injection E as <-. split; reflexivity.
  - destruct (has_timer id w); intros E; injection E as <-;
      [|split; reflexivity].
    unfold timeout. simpl. destruct (negb _); split; reflexivity.
  - intros E; injection E as <-. split; reflexivity.
Qed.

(** X9. A turn that is no successful mutation (any GET, a refused PUT or
    POST, a DELETE of an absent title, a request for the file server, a
    timer, a close) is read-only: the talks, the version and the file are
    as before. *)
Theorem non_mutation_is_readonly (w w' : World) (ev : Event) :
  step w ev = Returns w' ->
  mutation w ev = false ->
  talks (server w') = talks (server w)
  /\ version (server w') = version (server w)
  /\ written w' = written w.
Proof.
  intros E M. pose proof (step_effect E) as X. pose proof (step_version E) as V.
  rewrite M in X, V. destruct X as [T W]. auto.
Qed.

Lemma non_mutation_is_readonly_witness :
  let a := mkTalk (js "A") (js "Ann") (js "Hi") [] in
  let w := start [(js "A", a)] in
  exists w',
    step w (Arrive (GET "/talks/A" [])) = Returns w'
    /\ talks (server w') = [(js "A", a)]
    /\ version (server w') = 0 /\ written w' = [].
Proof.
  intros a w. eexists. split; [reflexivity|].
  refine (non_mutation_is_readonly (w := w) (ev := Arrive (GET "/talks/A" []))
            eq_refl eq_refl).
Defined.

(** ** Titles as keys *)

Section ObjKeys.
Variable V : Type.
Implicit Types (o : Obj.t V) (k : JSString) (v : V).

Lemma get_none_notin k o : Obj.get k o = None -> ~ In k (map fst o).
Proof.
  induction o as [|[k' x] o IH]; simpl; [tauto|].
  destruct (JSStr.eqb k k') eqn:E; [discriminate|].
  apply eqb_neq in E. intros G [H|H]; [congruence|exact (IH G H)].
Qed.

Lemma get_some_in k o x : Obj.get k o = Some x -> In (k, x) o.
Proof.
  induction o as [|[k' y] o IH]; simpl; [discriminate|].
  destruct (JSStr.eqb k k') eqn:E.
  - apply eqb_eq in E. subst k'. intros G; injection G as <-. auto.
  - auto.
Qed.

Lemma keys_replace k v o : map fst (Obj.replace k v o) = map fst o.
Proof.
  induction o as [|[k' x] o IH]; simpl; [reflexivity|].
  destruct (JSStr.eqb k k'); simpl; [reflexivity|rewrite IH; reflexivity].
Qed.

Lemma in_replace k v o (q : JSString * V) :
  In q (Obj.replace k v o) -> In q o \/ q = (k, v).
Proof.
  induction o as [|[k' x] o IH]; simpl; [tauto|].
  destruct (JSStr.eqb k k') eqn:E; simpl.
  - apply eqb_eq in E. subst k'. intros [<-|H]; auto.
  - intros [H|H]; auto. destruct (IH H); auto.
Qed.

Lemma in_delete k o (q : JSString * V) : In q (Obj.delete k o) -> In q o.
Proof.
  induction o as [|[k' x] o IH]; simpl; [tauto|].
  destruct (JSStr.eqb k k'); simpl; intuition.
Qed.

Lemma nodup_delete k o :
  NoDup (map fst o) -> NoDup (map fst (Obj.delete k o)).
Proof.
  induction o as [|[k' x] o IH]; simpl; [auto|].
  intros ND. inversion ND as [|? ? NI ND']; subst.
  destruct (JSStr.eqb k k'); simpl; [auto|].
  constructor; [|auto].
  intros H. apply NI. apply in_map_iff in H as (q & <- & H).
  apply in_map. eapply in_delete; eauto.
Qed.

Lemma in_insert n k v o (q : JSString * V) :
  In q (Obj.insert_index n k v o) -> q = (k, v) \/ In q o.
Proof.
  induction o as [|[k' x] o IH]; simpl; [intuition|].
  destruct (Obj.array_index k') as [n'|]; [destruct (n <? n')|]; simpl;
    intuition.
Qed.

Lemma keys_insert n k v o :
  Permutation (map fst (Obj.insert_index n k v o)) (k :: map fst o).
Proof.
  induction o as [|[k' x] o IH]; simpl; [reflexivity|].
  destruct (Obj.array_index k') as [n'|]; [destruct (n <? n')|]; simpl;
    try reflexivity.
  rewrite IH. apply perm_swap.
Qed.

Lemma in_set k v o (q : JSString * V) :
  In q (Obj.set k v o) -> q = (k, v) \/ In q o.
Proof.
  unfold Obj.set. destruct (Obj.has k o).
  - intros H. apply in_replace in H. tauto.
  - destruct (Obj.array_index k) as [n|]; [apply in_insert|].
    intros H. apply in_app_or in H as [H|[<-|[]]]; auto.
Qed.

Lemma nodup_set k v o :
  NoDup (map fst o) -> NoDup (map fst (Obj.set k v o)).
Proof.
  intros ND. unfold Obj.set, Obj.has.
  destruct (Obj.get k o) as [x|] eqn:G.
  - rewrite keys_replace. exact ND.
  - apply get_none_notin in G.
    destruct (Obj.array_index k) as [n|].
    + eapply Permutation_NoDup; [apply Permutation_sym, keys_insert|].
      constructor; assumption.
    + rewrite map_app. simpl.
      eapply Permutation_NoDup; [apply Permutation_cons_append|].
      constructor; assumption.
Qed.

End ObjKeys.

Lemma change_well_keyed (o o' : Obj.t Talk) :
  change o o' -> well_keyed o -> well_keyed o'.
Proof.
  intros Ch [ND T]. destruct Ch as [o t H|o t p s|o t talk c G].
  - split; [apply nodup_delete; exact ND|].
    intros k x Hin. apply in_delete in Hin. eauto.
  - split; [apply nodup_set; exact ND|].
    intros k x Hin. apply in_set in Hin as [E|Hin]; [|eauto].
    injection E as -> ->. reflexivity.
  - split; [rewrite keys_replace; exact ND|].
    intros k x Hin. apply in_replace in Hin as [Hin|E]; [eauto|].
    injection E as -> ->. simpl. apply T. apply get_some_in. exact G.
Qed.

(** X10. Titles are unique keys, and every talk is stored under its own
    title: if that holds for the talks loaded at start, it holds after
    every sequence of requests, timers and closes. *)
Theorem talks_stay_well_keyed (loaded : Obj.t Talk) (evs : list Event) :
  well_keyed loaded ->
  well_keyed (talks (server (fst (run (start loaded) evs)))).
Proof.
  intros W.
  assert (G : forall w, well_keyed (talks (server w)) ->
                        well_keyed (talks (server (fst (run w evs))))).
  { induction evs as [|ev evs IH]; intros w K; simpl; [exact K|].
    destruct (step w ev) as [w'|e] eqn:E; [|exact K].
    apply IH. pose proof (step_effect E) as X.
    destruct (mutation w ev).
    - destruct X as [Ch _]. eapply change_well_keyed; eauto.
    - destruct X as [-> _]. exact K. }
  apply G. exact W.
Qed.

Lemma talks_stay_well_keyed_witness :
  let evs := [Arrive (PUT "/talks/B" (object2 "presenter" "Bob" "summary" "Ho"));
              Arrive (PUT "/talks/7" (object2 "presenter" "Ann" "summary" "Hi"));
              Arrive (PUT "/talks/B" (object2 "presenter" "Eve" "summary" "He"));
              Arrive (POST "/talks/7/comments"
                           (object2 "author" "Bob" "message" "Nice"))] in
  well_keyed (talks (server (fst (run (start []) evs))))
  /\ map fst (talks (server (fst (run (start []) evs)))) = [js "7"; js "B"].
Proof.
  intros evs. split; [|reflexivity].
  apply talks_stay_well_keyed. split; [constructor|intros k x []].
Defined.

(** ** The file *)

Lemma last_cons (A : Type) (l : list A) (x d d' : A) :
  last (x :: l) d = last (x :: l) d'.
Proof.
  revert x. induction l as [|y l IH]; intros x; [reflexivity|].
  change (last (y :: l) d = last (y :: l) d'). apply IH.
Qed.

Lemma run_written (evs : list Event) :
  forall w,
    exists extra,
      written (fst (run w evs)) = written w ++ extra
      /\ last extra (talks (server w)) = talks (server (fst (run w evs)))
      /\ N.of_nat (List.length extra) = mutations w evs.
Proof.
  induction evs as [|ev evs IH]; intros w; simpl.
  - exists []. rewrite app_nil_r. auto.
  - destruct (step w ev) as [w'|e] eqn:E.
    + destruct (IH w') as (extra & W & L & M).
      pose proof (step_effect E) as X.
      destruct (mutation w ev).
      * destruct X as [_ Wr].
        exists (talks (server w') :: extra). rewrite W, Wr, <- app_assoc.
        split; [reflexivity|]. split.
        -- rewrite <- L. destruct extra as [|x extra]; [reflexivity|].
           change (last (x :: extra) (talks (server w))
                   = last (x :: extra) (talks (server w'))).
           apply last_cons.
        -- simpl List.length. rewrite Nat2N.inj_succ, M. lia.
      * destruct X as [T Wr]. exists extra. rewrite W, Wr, <- T.
        repeat split; [exact L|rewrite M; lia].
    + exists []. rewrite app_nil_r. auto.
Qed.

(** X11. The file follows the talks. [writeFile] is called once for each
    successful mutation and never otherwise, and the content handed to the
    last call is the talks as they are now (while no mutation happened
    since start, the talks are the ones loaded). *)
Theorem file_follows_talks (loaded : Obj.t Talk) (evs : list Event) :
  let w := fst (run (start loaded) evs) in
  last (written w) loaded = talks (server w)
  /\ N.of_nat (List.length (written w)) = mutations (start loaded) evs
  /\ (mutations (start loaded) evs = 0 -> talks (server w) = loaded).
Proof.
  intros w. destruct (run_written evs (start loaded)) as (extra & W & L & M).
  fold w in W, L. simpl in W, L. rewrite W.
  split; [exact L|]. split; [exact M|].
  intros Z. rewrite Z in M. destruct extra; [|discriminate].
  simpl in L. auto.
Qed.

Lemma file_follows_talks_witness :
  let a := mkTalk (js "A") (js "Ann") (js "Hi") [] in
  let reads := [Arrive (GET "/talks/A" []); Arrive (DELETE "/talks/B");
                Arrive (GET "/talks" []); Fire 3; Close 0] in
  talks (server (fst (run (start [(js "A", a)]) reads))) = [(js "A", a)]
  /\ written (fst (run (start [(js "A", a)]) reads)) = []
  /\ written (fst (run (start [(js "A", a)])
                       (reads ++ [Arrive (DELETE "/talks/A")]))) = [[]].
Proof.
  intros a reads.
  destruct (file_follows_talks [(js "A", a)] reads) as (_ & _ & Z).
  split; [exact (Z eq_refl)|]. split; reflexivity.
Defined.

(** ** Every request is accounted for *)

(** [readStream] stays pending exactly on a stream that has emitted
    chunks only. *)
Lemma readStream_pending (evs : list StreamEvent) :
  forall data,
    readStream evs data = None <-> exists chunks, evs = map Data chunks.
Proof.
  induction evs as [|[c| |e] evs IH]; intros data; simpl.
  - split; [exists []; reflexivity|reflexivity].
  - rewrite IH. split.
    + intros [cs ->]. exists (c :: cs). reflexivity.
    + intros [[|c' cs] H]; [discriminate|].
      injection H as _ ->. exists cs. reflexivity.
  - split; [discriminate|]. intros [[|c cs] H]; discriminate.
  - split; [discriminate|]. intros [[|c cs] H]; discriminate.
Qed.

Lemma body_unfinished (parse : JSString -> option JValue)
      (evs : list StreamEvent) :
  body_of parse evs = Unfinished <-> exists chunks, evs = map Data chunks.
Proof.
  rewrite <- (readStream_pending evs []). unfold body_of.
  destruct (readStream evs []) as [[d|e]|].
  - destruct (parse d); split; discriminate.
  - split; discriminate.
  - split; reflexivity.
Qed.

(** A promise left pending is that of [waitForChanges], made by the list
    route, or that of a PUT or POST suspended on a body that does not
    end. *)
Lemma pending_cases (w w1 : World) (id i : nat) (r : Request) :
  resolve router w id r = Returns (Some (w1, Pending i)) ->
  i = id
  /\ ((method r = js "GET" /\ pathname r = js "/talks"
       /\ exists time, w1 = fst (waitForChanges time id w))
      \/ (w1 = w /\ payload r = Unfinished
          /\ (method r = js "PUT" \/ method r = js "POST"))).
Proof.
  rewrite resolve_find.
  destruct (find _ router) as [rt|] eqn:F; [|discriminate].
  apply find_some in F as [Hin Hit].
  apply hits_inv in Hit as (m & E & M).
  unfold dispatch. rewrite E.
  destruct (decode_all (captures m)) as [parts|e] eqn:D; [|discriminate].
  intros Eq. injection Eq as Eq.
  unfold router, add in Hin. simpl in Hin.
  repeat (destruct Hin as [<-|Hin]; [|]); try contradiction;
    simpl in E, M;
    first [ destruct (talkPath_sound E) as (c & _ & _ & _ & ->)
          | destruct (talkPathAddComment_sound E) as (c & _ & _ & _ & ->)
          | destruct (talksPath_sound E) as (P & ->) ];
    try (apply decode_one in D as (t & S & ->));
    simpl in Eq;
    unfold get_talk, delete_talk, put_talk, post_comment, respond in Eq;
    try (break_match Eq; discriminate).
  - break_match Eq; try discriminate. injection Eq as <- <-.
    split; [reflexivity|]. right.
    split; [reflexivity|]. split; [reflexivity|]. left. exact M.
  - break_match Eq; try discriminate. injection Eq as <- <-.
    split; [reflexivity|]. right.
    split; [reflexivity|]. split; [reflexivity|]. right. exact M.
  - simpl in D. injection D as <-. simpl in Eq. unfold list_talks in Eq.
    unfold respond in Eq. break_match Eq; try discriminate.
    unfold waitForChanges in Eq.
    injection Eq as E1 E2. subst w1 i.
    split; [reflexivity|]. left.
    split; [exact M|]. split; [exact P|]. eexists. reflexivity.
Qed.

(** X12. Every request the listener handles without throwing is
    accounted for in exactly one of four ways: it is handed to the file
    server (no response written, server untouched); it is answered (its
    response is written and it is no waiter); it is parked as a waiter
    with its timer set and no response yet, which only GET /talks does;
    or its handler stays suspended on a body that neither ends nor fails,
    which only a PUT or a POST does: nothing is written, it is no waiter,
    it has no timer of its own, the server is untouched, and no response
    is written for it at any later time. *)
Theorem request_is_accounted_for (w w' : World) (r : Request) :
  consistent w ->
  step w (Arrive r) = Returns w' ->
  let id := nextId w in
  nextId w' = S id
  /\ ((static w' = static w ++ [id] /\ sent w' = sent w
       /\ server w' = server w)
      \/ (static w' = static w
          /\ (exists x, In (id, x) (sent w'))
          /\ ~ In id (waiting (server w')))
      \/ (static w' = static w
          /\ In id (waiting (server w')) /\ has_timer id w' = true
          /\ sent w' = sent w /\ ~ In id (map fst (sent w))
          /\ method r = js "GET" /\ pathname r = js "/talks")
      \/ (static w' = static w
          /\ ~ In id (waiting (server w')) /\ has_timer id w' = false
          /\ sent w' = sent w /\ ~ In id (map fst (sent w))
          /\ server w' = server w /\ timers w' = timers w
          /\ written w' = written w
          /\ payload r = Unfinished
          /\ (method r = js "PUT" \/ method r = js "POST")
          /\ forall later,
               ~ In id (map fst (sent (fst (run w' later)))))).
Proof.
  intros C E. cbv zeta. cbn [step] in E. unfold listener in E.
  fold (bump w) in E. set (id := nextId w) in *.
  assert (Fresh : ~ In id (map fst (sent w))).
  { intros H. apply (sent_bound C) in H. unfold id in H. lia. }
  assert (NW : ~ In id (waiting (server w))).
  { intros H. apply (waiting_bound C) in H. unfold id in H. lia. }
  assert (NT : has_timer id w = false).
  { unfold has_timer. apply mem_false. intros H.
    apply (timers_bound C) in H. unfold id in H. lia. }
  destruct (resolve router (bump w) id r) as [[[w1 p]|]|e] eqn:R;
    [| |discriminate].
  - assert (A : forall d, (forall i, p <> Pending i) ->
              w' = settle id d w1 ->
              nextId w' = S id
              /\ static w' = static w
              /\ (exists x, In (id, x) (sent w'))
              /\ ~ In id (waiting (server w'))).
    { intros d NP ->.
      destruct (settle_frame id d w1) as (S1 & _ & S3 & _ & _ & S6 & S7 & _).
      rewrite S1, S3, S6.
      apply resolve_cases
        in R as [[-> _]|[(ts & -> & _)|[(time & _ & ->)|(_ & -> & _)]]].
      - rewrite settle_fresh by exact Fresh. simpl.
        repeat split; auto. eexists. apply in_or_app. right. left. reflexivity.
      - destruct (updated_frame (set_talks (bump w) ts))
          as (_ & _ & U3 & _ & U5 & _ & _ & U8 & U9 & _).
        rewrite U3, U5, U8. simpl. repeat split; auto.
        rewrite settle_fresh.
        + eexists. apply in_or_app. right. left. reflexivity.
        + intros H. apply U9 in H. simpl in H. tauto.
      - exfalso. exact (NP id eq_refl).
      - exfalso. exact (NP id eq_refl). }
    destruct p as [d|e|i].
    + injection E as <-.
      destruct (A d ltac:(discriminate) eq_refl) as (N & S & X & W).
      split; [exact N|]. right. left. auto.
    + injection E as <-.
      destruct (A (on_rejected e) ltac:(discriminate) eq_refl)
        as (N & S & X & W).
      split; [exact N|]. right. left. auto.
    + injection E as <-.
      apply pending_cases
        in R as (-> & [(M & P & time & ->)|(-> & U & MP)]).
      * simpl. split; [reflexivity|]. right. right. left.
        repeat split; auto.
        -- apply in_or_app. right. left. reflexivity.
        -- apply mem_In. simpl. rewrite map_app. apply in_or_app.
           right. left. reflexivity.
      * simpl. split; [reflexivity|]. right. right. right.
        repeat split; auto.
        intros later. apply unanswered_forever; simpl; auto.
  - injection E as <-. simpl. split; [reflexivity|]. left. auto.
Qed.

Lemma request_is_accounted_for_witness :
  let open := mkRequest (js "PUT") (js "/talks/Intro") []
                        (body_of (fun _ => None) [Data (js "{")]) in
  (exists w',
      step (start []) (Arrive (poll 0 "10")) = Returns w'
      /\ nextId w' = 1%nat /\ In 0%nat (waiting (server w'))
      /\ has_timer 0 w' = true /\ sent w' = [])
  /\ (exists w',
         step (start []) (Arrive open) = Returns w'
         /\ nextId w' = 1%nat /\ waiting (server w') = []
         /\ sent w' = []
         /\ ~ In 0%nat
              (map fst
                 (sent (fst (run w'
                               [Fire 0;
                                Arrive (PUT "/talks/Intro"
                                            (object2 "presenter" "Ann"
                                                     "summary" "Hi"))]))))).
Proof.
  intros open. split.
  - eexists. split; [reflexivity|].
    destruct (request_is_accounted_for
                (w := start []) (r := poll 0 "10") (consistent_start [])
                eq_refl)
      as (N & [(S & _)|[(_ & _ & NW)|[(_ & W & T & S & _)|(_ & NW & _)]]]).
    + discriminate.
    + exfalso. apply NW. left. reflexivity.
    + auto.
    + exfalso. apply NW. left. reflexivity.
  - eexists. split; [reflexivity|].
    destruct (request_is_accounted_for
                (w := start []) (r := open) (consistent_start []) eq_refl)
      as (N & [(S & _)|[(_ & [x X] & _)|[(_ & W & _)|(_ & _ & _ & _ & _ & _
                                               & _ & _ & _ & _ & L)]]]).
    + discriminate.
    + destruct X.
    + destruct W.
    + repeat split; auto.
Defined.

(** ** Long polls, end to end *)

Lemma waitPref_exec (ds : JSString) :
  ds <> [] -> forallb is_digit ds = true ->
  exec waitPref (js "wait=" ++ ds) = Some (mkMatch 0 (js "wait=" ++ ds) [ds]).
Proof.
  intros NE F. apply exec_hit. unfold waitPref.
  change (js "wait=") with [119; 97; 105; 116; 61].
  cbn [match_items app hd_error word_at].
  change (xorb false (is_word 119)) with true. cbv iota.
  change (119 :: 97 :: 105 :: 116 :: 61 :: ds)
    with ([119; 97; 105; 116; 61] ++ ds).
  rewrite strip_app.
  rewrite <- (app_nil_r ds) at 1.
  rewrite (greedy_run (k := match_items []) (t := ds) (rest := [])
             (prev := prev_after [119; 97; 105; 116; 61] None)
             (taken := []) (a := ([], [])) F I).
  - simpl. rewrite app_nil_r. reflexivity.
  - intros _. exact NE.
  - reflexivity.
Qed.

(** X13. A client that sends back the ETag of the current version and a
    preference "wait=" followed by decimal digits is parked, whatever the
    version and the digits: no response is written, the request joins the
    pending waiters and a timer is set for the number the digits denote,
    times 1000. *)
Theorem current_poll_is_parked (w : World) (r : Request) (ds : JSString) :
  consistent w ->
  method r = js "GET" -> pathname r = js "/talks" ->
  header (js "if-none-match") r
  = Some (quoted (NumberToString (version (server w)))) ->
  header (js "prefer") r = Some (js "wait=" ++ ds) ->
  ds <> [] -> forallb is_digit ds = true ->
  step w (Arrive r)
  = Returns (mkWorld (mkServer (talks (server w)) (version (server w))
                               (waiting (server w) ++ [nextId w]))
                     (timers w
                      ++ [(nextId w, mul_N (of_N (digits_val 10 ds)) 1000)])
                     (sent w) (static w) (written w) (closed w)
                     (S (nextId w))).
Proof.
  intros C M P HT HP NE F.
  simpl. unfold listener. rewrite (route_list _ _ M P).
  unfold list_talks. rewrite HT, HP. cbn [ToString].
  destruct (digits_of_N (version (server w))) as (_ & FD & _).
  rewrite (quotedTag_exec (digits_are_dots FD)), (waitPref_exec NE F).
  cbn [captures nth server version].
  rewrite etag_is_current. cbn [negb].
  rewrite (StringToNumber_digits NE F). reflexivity.
Qed.

Lemma current_poll_is_parked_witness :
  step (start []) (Arrive (poll 0 "25"))
  = Returns (mkWorld (mkServer [] 0 [0%nat])
                     [(0%nat, mul_N (of_N 25) 1000)] [] [] [] [] 1).
Proof.
  assert (NE : js "25" <> []) by discriminate.
  exact (current_poll_is_parked (r := poll 0 "25") (consistent_start [])
           eq_refl eq_refl eq_refl eq_refl NE eq_refl).
Defined.

Lemma consistent_bump_talks (w : World) (ts : Obj.t Talk) :
  consistent w -> consistent (set_talks (bump w) ts).
Proof.
  intros [ND FR TM WB SB TB].
  constructor; simpl; eauto using Nat.lt_lt_succ_r.
Qed.

(** X14. Every successful mutation (PUT, DELETE or POST that changes the
    talks) releases all the waiters pending at that time: each one gets,
    in that same turn, the response [talkResponse] builds from the talks
    and the version as they are after the mutation, and the pending set is
    empty afterwards. *)
Theorem mutation_releases_waiters (w w' : World) (ev : Event) :
  consistent w ->
  step w ev = Returns w' ->
  mutation w ev = true ->
  waiting (server w') = []
  /\ forall id, In id (waiting (server w)) ->
       In (id, wire (talkResponse (server w'))) (sent w').
Proof.
  intros C E M. destruct ev as [r|i|i]; try discriminate.
  cbn [step] in E. unfold listener in E. fold (bump w) in E.
  destruct (resolve router (bump w) (nextId w) r) as [[[w1 p]|]|e] eqn:R;
    [| |discriminate].
  - pose proof (resolve_effect R) as X.
    change (mutation (bump w) (Arrive r)) with (mutation w (Arrive r)) in X.
    rewrite M in X. destruct X as (ts & _ & ->).
    pose proof (consistent_bump_talks ts C) as C1.
    destruct (updated_frame (set_talks (bump w) ts)) as (_ & _ & U3 & _).
    assert (K : forall d,
               let u := settle (nextId w) d (updated (set_talks (bump w) ts)) in
               waiting (server u) = []
               /\ forall id, In id (waiting (server w)) ->
                    In (id, wire (talkResponse (server u))) (sent u)).
    { intros d u.
      destruct (settle_frame (nextId w) d (updated (set_talks (bump w) ts)))
        as (S1 & _ & _ & _ & _ & _ & _ & S8).
      fold u in S1, S8. rewrite S1. split; [exact U3|].
      intros id Hin. apply S8. apply waiter_gets_snapshot; assumption. }
    destruct p as [d|e|j]; injection E as <-.
    + apply K.
    + apply K.
    + exfalso.
      assert (L : List.length (written (updated (set_talks (bump w) ts)))
                  = List.length (written (bump w))).
      { apply pending_cases
          in R as (_ & [(_ & _ & time & Q)|(Q & _)]); rewrite Q; reflexivity. }
      destruct (updated_frame (set_talks (bump w) ts))
        as (_ & _ & _ & _ & _ & U6 & _).
      rewrite U6, length_app in L. simpl in L. lia.
  - apply resolve_none in R.
    change (mutation (bump w) (Arrive r)) with (mutation w (Arrive r)) in R.
    congruence.
Qed.

Lemma mutation_releases_waiters_witness :
  let w := fst (run (start []) [Arrive (poll 0 "5"); Arrive (poll 0 "9")]) in
  let talk := mkTalk (js "Intro") (js "Ann") (js "Hi") [] in
  exists w',
    step w (Arrive (PUT "/talks/Intro"
                        (object2 "presenter" "Ann" "summary" "Hi")))
    = Returns w'
    /\ waiting (server w') = []
    /\ In (1%nat, mkWire 200
                    [(js "Content-Type", js "application/json");
                     (js "ETag", quoted (js "1"))]
                    (Some (TalksJSON [talk]))) (sent w').
Proof.
  intros w talk.
  assert (C : consistent w).
  { apply reachable_consistent, run_reachable, reach_start. }
  eexists. split; [reflexivity|].
  destruct (mutation_releases_waiters
              (w := w)
              (ev := Arrive (PUT "/talks/Intro"
                                 (object2 "presenter" "Ann" "summary" "Hi")))
              C eq_refl eq_refl) as [W S].
  split; [exact W|].
  exact (S 1%nat (or_intror (or_introl eq_refl))).
Defined.

(** X15. A request that has left the pending set, released by [updated]
    or dropped by its timer, never enters it again, whatever happens
    later; so its timer, when it fires afterwards, finds nothing to
    remove: server and responses are left as they were. *)
Theorem released_waiter_stays_out (w : World) (id : nat) (evs : list Event) :
  (id < nextId w)%nat ->
  ~ In id (waiting (server w)) ->
  let w' := fst (run w evs) in
  ~ In id (waiting (server w'))
  /\ forall w'', step w' (Fire id) = Returns w'' ->
       server w'' = server w' /\ sent w'' = sent w'.
Proof.
  intros B NW.
  assert (G : forall evs w, (id < nextId w)%nat ->
                ~ In id (waiting (server w)) ->
                ~ In id (waiting (server (fst (run w evs))))).
  { clear. induction evs as [|ev evs IH]; intros w B NW; simpl; [exact NW|].
    destruct (step w ev) as [w1|e] eqn:E; [|exact NW].
    apply step_frame in E as (B' & W' & _). apply IH; [lia|].
    intros H. apply W' in H as [H| ->]; [exact (NW H)|lia]. }
  intros w'. pose proof (G evs w B NW) as N. fold w' in N.
  split; [exact N|].
  intros w'' F. cbn [step] in F.
  destruct (has_timer id w'); injection F as <-; [|split; reflexivity].
  unfold timeout. cbn [server].
  apply mem_false in N. rewrite N. split; reflexivity.
Qed.

Lemma released_waiter_stays_out_witness :
  let w := fst (run (start [])
                    [Arrive (poll 0 "5");
                     Arrive (PUT "/talks/Intro"
                                 (object2 "presenter" "Ann" "summary" "Hi"))]) in
  has_timer 0 w = true
  /\ forall w', step w (Fire 0) = Returns w' ->
                server w' = server w /\ sent w' = sent w.
Proof.
  intros w. split; [reflexivity|].
  assert (B : (0 < nextId w)%nat) by (simpl; lia).
  assert (NW : ~ In 0%nat (waiting (server w))) by (intros []).
  exact (proj2 (released_waiter_stays_out [] B NW)).
Defined.

(** ** Comments *)

(** X16. Comments accumulate in order. Valid comments posted one after
    the other to a talk that exists are appended to its comments in the
    order of the requests; the talk keeps its title, presenter and
    summary, and no request fails. *)
Theorem comments_accumulate (seg t : JSString) (cs : list JValue) :
  seg <> [] -> forallb not_slash seg = true -> scan Plain seg = Some t ->
  forallb (has_strings (js "author") (js "message")) cs = true ->
  forall (w : World) (talk : Talk),
    consistent w ->
    Obj.get t (talks (server w)) = Some talk ->
    let post c := Arrive (mkRequest (js "POST")
                                    (js "/talks/" ++ seg ++ js "/comments")
                                    [] (Parsed c)) in
    let w' := fst (run w (map post cs)) in
    snd (run w (map post cs)) = None
    /\ Obj.get t (talks (server w'))
       = Some (mkTalk (title talk) (presenter talk) (summary talk)
                      (comments talk ++ cs)).
Proof.
  intros NE F D. induction cs as [|c cs IH]; intros V w talk C G post w'.
  - simpl in *. rewrite app_nil_r. destruct talk. auto.
  - simpl in V. apply andb_true_iff in V as [Vc V].
    pose proof (post_comment_step (r := mkRequest (js "POST")
                                    (js "/talks/" ++ seg ++ js "/comments")
                                    [] (Parsed c))
                  C eq_refl eq_refl NE F D eq_refl Vc G) as S.
    pose proof (consistent_step C S) as C1.
    match type of S with context [answered (updated (set_talks w ?ts)) ?x] =>
      set (w1 := answered (updated (set_talks w ts)) x) in *;
      destruct (after_update w ts x) as (T & _)
    end.
    fold w1 in T.
    assert (G1 : Obj.get t (talks (server w1))
                 = Some (mkTalk (title talk) (presenter talk) (summary talk)
                                (comments talk ++ [c])))
      by (rewrite T; eapply get_replace; eauto).
    assert (R : run w (map post (c :: cs)) = run w1 (map post cs)).
    { simpl map. cbn [run]. unfold post at 1. rewrite S. reflexivity. }
    unfold w'. rewrite R.
    destruct (IH V _ _ C1 G1) as [N L]. fold post in N, L.
    split; [exact N|]. rewrite L. simpl. rewrite <- app_assoc. reflexivity.
Qed.

Lemma comments_accumulate_witness :
  let a := mkTalk (js "A") (js "Ann") (js "Hi") [JNull] in
  let c1 := object2 "author" "Bob" "message" "one" in
  let c2 := object2 "author" "Eve" "message" "two" in
  let post c := Arrive (POST "/talks/A/comments" c) in
  option_map comments
    (Obj.get (js "A")
       (talks (server (fst (run (start [(js "A", a)]) [post c1; post c2])))))
  = Some [JNull; c1; c2].
Proof.
  intros a c1 c2 post.
  assert (NE : js "A" <> []) by discriminate.
  destruct (comments_accumulate (seg := js "A") (t := js "A") (cs := [c1; c2])
              NE eq_refl eq_refl eq_refl
              (w := start [(js "A", a)]) (talk := a)
              (consistent_start _) eq_refl) as [_ L].
  etransitivity; [apply f_equal; exact L|reflexivity].
Defined.

(** ** The body stream *)

(** X17. [readStream] resolves with the chunks concatenated in the order
    they arrived, once the stream ends; it rejects with the error of the
    stream if that comes first, whatever was read before; and it stays
    pending as long as the stream has neither ended nor failed. What the
    stream emits after that does not matter. *)
Theorem readStream_collects
        (chunks : list JSString) (later : list StreamEvent) (e : JSError) :
  readStream (map Data chunks ++ End :: later) [] = Some (Returns (List.concat chunks))
  /\ readStream (map Data chunks ++ Error e :: later) [] = Some (Throws e)
  /\ readStream (map Data chunks) [] = None.
Proof.
  assert (G : forall data tail,
             readStream (map Data chunks ++ tail) data
             = readStream tail (data ++ List.concat chunks)).
  { induction chunks as [|c chunks IH]; intros data tail; simpl.
    - rewrite app_nil_r. reflexivity.
    - rewrite IH, <- app_assoc. reflexivity. }
  repeat split.
  - rewrite G. reflexivity.
  - rewrite G. reflexivity.
  - rewrite <- (app_nil_r (map Data chunks)), G. reflexivity.
Qed.
